(** * CanSerial: the CAN socket multiplexer of [cansock.c]

    A shallow embedding of [cansock.c] (the port table, the frame sender,
    the virtual-port factory, the receive thread and the ping driver) and
    the properties of it that the specification states.

    Conventions of the embedding.
    - C integers are [Z]; conversions to an unsigned type are written out
      ([u8], [u16], [u32], [to_size_t]).  Arithmetic on [int] is exact: the
      counters stay far from the bounds of [int] ([reachable_ok] bounds
      [pingcount]).  The host is little-endian.
    - The program's globals ([ports], [sock], [pingptr], [Inotify],
      [threadexit]) are fields of [World].  Every library or system call
      is recorded in [trace] in program order, and its result is read from
      the oracle [os] at position [tick].
    - [printf], [fprintf] and [perror] only log and are left out, as are
      the mutex operations: every function below runs with [lock] held.
    - [exit(1)] is the outcome [Exit 1]; a [memcpy] from a NULL pointer is
      the outcome [Fault]. *)

From Stdlib Require Import ZArith List String Ascii Bool Lia.
Import ListNotations.
Open Scope Z_scope.

(** ** Machine integers *)

Definition u8 (z : Z) : Z := z mod 2 ^ 8.
Definition u16 (z : Z) : Z := z mod 2 ^ 16.
Definition u32 (z : Z) : Z := z mod 2 ^ 32.
Definition to_size_t (z : Z) : Z := z mod 2 ^ 64.

(** The [n] low bytes of [z], least significant first: what a [memcpy] of
    [n] bytes from the address of an integer reads on the host. *)
Fixpoint le_bytes (n : nat) (z : Z) : list Z :=
  match n with
  | O => []
  | S n' => Z.land z 255 :: le_bytes n' (Z.shiftr z 8)
  end.

(** ** Constants of the system headers (Linux) *)

Definition EIO : Z := 5.
Definition EINVAL : Z := 22.
Definition POLLIN : Z := 1.
Definition IN_OPEN : Z := 32.
Definition IN_CLOSE : Z := 24.
Definition F_SETFD : Z := 2.
Definition F_GETFL : Z := 3.
Definition F_SETFL : Z := 4.
Definition FD_CLOEXEC : Z := 1.
Definition O_NONBLOCK : Z := 2048.

(** Modelled from the spec: [CAN_UUID_SIZE] is declared in [cansock.h],
    which is not part of the sources; the UUID is 6 bytes ([CanTtyName]
    prints [can_uuid[0]] to [can_uuid[5]]). *)
Definition CAN_UUID_SIZE : Z := 6.

(** Modelled from the spec: [CAN_DATA_SIZE] is declared in [cansock.h];
    a frame carries at most 8 data bytes. *)
Definition CAN_DATA_SIZE : Z := 8.

(** ** Data *)

Record tCanFrame := mkFrame {
  can_id : Z;          (* canid_t, 32 bits unsigned *)
  can_dlc : Z;         (* 8 bits unsigned *)
  data : list Z        (* the bytes of [data] that are defined *)
}.

Record tPortId := mkPortId {
  port : Z;            (* uint16_t *)
  canid : Z;           (* canid_t *)
  can_uuid : list Z;   (* uint8_t [CAN_UUID_SIZE] *)
  pingcount : Z;       (* int *)
  active : Z;          (* int: is the port open *)
  watch : Z            (* int: inotify watch *)
}.

Record pollfd := mkPollfd {
  fd : Z;
  events : Z;
  revents : Z
}.

(** [p[0]] is unused and [VportFd[0]] is the CAN socket. *)
Record tPorts := mkPorts {
  p : list tPortId;
  VportFd : list pollfd;
  portsize : Z;        (* size of the allocated vectors *)
  portptr : Z
}.

Record inotify_event := mkInotifyEvent {
  wd : Z;
  mask : Z
}.

(** The remaining declarations of [cansock.h] and [portnumber.h], neither
    of which is part of the sources, are parameters of the development. *)
Class Consts := {
  PKT_ID_UUID : Z;
  PKT_ID_SET : Z;
  PKT_ID_UUID_RESP : Z;
  PKT_ID_CTL_FILTER : Z;
  PINGS_BEFORE_DISCONNECT : Z;
  sizeof_tCanFrame : Z;
  PnGetNumber : list Z -> Z
}.

(** ** Arrays *)

Definition zero_port : tPortId := mkPortId 0 0 [] 0 0 0.
Definition zero_pollfd : pollfd := mkPollfd 0 0 0.

Definition rd {A : Type} (d : A) (l : list A) (i : Z) : A :=
  nth (Z.to_nat i) l d.

Fixpoint upd_nat {A : Type} (l : list A) (n : nat) (x : A) : list A :=
  match l, n with
  | [], _ => []
  | _ :: t, O => x :: t
  | h :: t, S n' => h :: upd_nat t n' x
  end.

(** [l[i] = x]; the model leaves [l] alone where C writes out of bounds. *)
Definition upd {A : Type} (l : list A) (i : Z) (x : A) : list A :=
  if i <? 0 then l else upd_nat l (Z.to_nat i) x.

(** The first [i' >= i] among [n] consecutive indices at which [test]
    holds, and [i + n] when there is none: the value of the loop variable
    after [for (; i < hi; i++) if (test i) break;]. *)
Fixpoint scan (test : Z -> bool) (i : Z) (n : nat) : Z :=
  match n with
  | O => i
  | S n' => if test i then i else scan test (i + 1) n'
  end.

(** ** System calls and the world *)

Inductive Call :=
| sys_write_frame (fd_ : Z) (f : tCanFrame) (size : Z)
| sys_read_frame (fd_ : Z)
| sys_write (fd_ : Z) (bytes : list Z)
| sys_read (fd_ : Z) (count : Z)
| sys_read_events (fd_ : Z)
| sys_poll (nfds : Z) (timeout : Z)
| sys_inotify_add_watch (ifd : Z) (path : string) (mask_ : Z)
| sys_inotify_rm_watch (ifd : Z) (wd_ : Z)
| sys_unlink (path : string)
| sys_symlink (target : string) (path : string)
| sys_chmod (path : string) (mode : Z)
| sys_openpty
| sys_fcntl (fd_ : Z) (cmd : Z) (arg : Z)
| sys_ttyname (fd_ : Z)
| sys_realloc (nelem : Z)
| sys_close (fd_ : Z)
| sys_pthread_join.

(** What a call gives back: its return value and whatever it stores
    through its pointer arguments. *)
Record Reply := mkReply {
  rv : Z;
  r_frame : tCanFrame;
  r_bytes : list Z;
  r_revents : list Z;
  r_events : list inotify_event;
  r_fd : Z;
  r_sfd : Z;
  r_path : string
}.

Record World := mkWorld {
  ports : tPorts;
  sock : Z;
  pingptr : Z;
  Inotify : Z;
  threadexit : Z;
  trace : list Call;
  os : nat -> Reply;
  tick : nat
}.

Definition set_ports (t : tPorts) (w : World) : World :=
  mkWorld t (sock w) (pingptr w) (Inotify w) (threadexit w)
          (trace w) (os w) (tick w).

Definition set_pingptr (z : Z) (w : World) : World :=
  mkWorld (ports w) (sock w) z (Inotify w) (threadexit w)
          (trace w) (os w) (tick w).


Definition set_p (l : list tPortId) (t : tPorts) : tPorts :=
  mkPorts l (VportFd t) (portsize t) (portptr t).

Definition set_VportFd (l : list pollfd) (t : tPorts) : tPorts :=
  mkPorts (p t) l (portsize t) (portptr t).

Definition set_portsize (z : Z) (t : tPorts) : tPorts :=
  mkPorts (p t) (VportFd t) z (portptr t).

Definition set_portptr (z : Z) (t : tPorts) : tPorts :=
  mkPorts (p t) (VportFd t) (portsize t) z.

Definition set_pingcount (z : Z) (e : tPortId) : tPortId :=
  mkPortId (port e) (canid e) (can_uuid e) z (active e) (watch e).

Definition set_active (z : Z) (e : tPortId) : tPortId :=
  mkPortId (port e) (canid e) (can_uuid e) (pingcount e) z (watch e).

Definition set_watch (z : Z) (e : tPortId) : tPortId :=
  mkPortId (port e) (canid e) (can_uuid e) (pingcount e) (active e) z.

Definition set_revents (z : Z) (f : pollfd) : pollfd :=
  mkPollfd (fd f) (events f) z.

(** ** The monad of the program: state, process exit and faults *)

Inductive Res (A : Type) :=
| Val (a : A)
| Exit (code : Z)
| Fault.
Arguments Val {A} a.
Arguments Exit {A} code.
Arguments Fault {A}.

Definition M (A : Type) : Type := World -> Res A * World.

Definition ret {A : Type} (a : A) : M A := fun w => (Val a, w).

Definition bind {A B : Type} (m : M A) (k : A -> M B) : M B :=
  fun w =>
    match m w with
    | (Val a, w') => k a w'
    | (Exit c, w') => (Exit c, w')
    | (Fault, w') => (Fault, w')
    end.

Notation "x <- m ;; k" := (bind m (fun x => k))
  (at level 61, m at next level, right associativity).
Notation "m ;;; k" := (bind m (fun _ => k))
  (at level 61, right associativity).

Definition gets {A : Type} (f : World -> A) : M A := fun w => (Val (f w), w).
Definition modify (f : World -> World) : M unit := fun w => (Val tt, f w).
Definition modify_ports (f : tPorts -> tPorts) : M unit :=
  modify (fun w => set_ports (f (ports w)) w).
Definition exit {A : Type} (code : Z) : M A := fun w => (Exit code, w).
Definition fault {A : Type} : M A := fun w => (Fault, w).

(** A call is appended to the trace and answered by the oracle. *)
Definition syscall (c : Call) : M Reply :=
  fun w =>
    (Val (os w (tick w)),
     mkWorld (ports w) (sock w) (pingptr w) (Inotify w) (threadexit w)
             (trace w ++ [c]) (os w) (S (tick w))).

Definition when (b : bool) (m : M unit) : M unit :=
  if b then m else ret tt.

Fixpoint for_range (i : Z) (n : nat) (body : Z -> M unit) : M unit :=
  match n with
  | O => ret tt
  | S n' => body i ;;; for_range (i + 1) n' body
  end.

(** [for (i = lo; i < hi; i++) body], for a body that leaves [hi] alone. *)
Definition for_loop (lo hi : Z) (body : Z -> M unit) : M unit :=
  for_range lo (Z.to_nat (hi - lo)) body.

Fixpoint for_each {A : Type} (l : list A) (body : A -> M unit) : M unit :=
  match l with
  | [] => ret tt
  | x :: t => body x ;;; for_each t body
  end.

(** ** The program *)

Section CanSock.

Context {K : Consts}.

Definition hex_digit (z : Z) : ascii :=
  nth (Z.to_nat z)
      ["0"; "1"; "2"; "3"; "4"; "5"; "6"; "7"; "8"; "9";
       "a"; "b"; "c"; "d"; "e"; "f"]%char "0"%char.

(** [%02x] of a [uint8_t]. *)
Definition hex2 (b : Z) : string :=
  String (hex_digit (b / 16)) (String (hex_digit (b mod 16)) EmptyString).

Definition CanTtyName (e : tPortId) : string :=
  ("/tmp/ttyCAN0_"
     ++ hex2 (rd 0 (can_uuid e) 0) ++ hex2 (rd 0 (can_uuid e) 1)
     ++ hex2 (rd 0 (can_uuid e) 2) ++ hex2 (rd 0 (can_uuid e) 3)
     ++ hex2 (rd 0 (can_uuid e) 4) ++ hex2 (rd 0 (can_uuid e) 5))%string.

(** [len] is a [uint8_t]; [data] is [None] for a NULL pointer and
    otherwise the bytes at the pointer (at least [len] of them). *)
Definition CanSockSend (id : Z) (len : Z) (data_ : option (list Z)) : M Z :=
  if 8 <? len then ret EINVAL
  else
    bytes <- (if len =? 0 then ret []
              else match data_ with
                   | None => fault
                   | Some b => ret (firstn (Z.to_nat len) b)
                   end) ;;
    s <- gets sock ;;
    r <- syscall (sys_write_frame s (mkFrame id len bytes) sizeof_tCanFrame) ;;
    if negb (to_size_t (rv r) =? sizeof_tCanFrame) then ret EIO
    else ret 0.

Definition CanVportClose (e : tPortId) : M unit :=
  ino <- gets Inotify ;;
  syscall (sys_inotify_rm_watch ino (watch e)) ;;;
  syscall (sys_unlink (CanTtyName e)) ;;;
  ret tt.

(** The vector [l] after a successful [realloc] to [n] elements.  The
    content of the new elements is indeterminate in C; they are zero
    here, and they are written before they become live. *)
Definition grow {A : Type} (d : A) (n : Z) (l : list A) : list A :=
  l ++ repeat d (Z.to_nat n - List.length l).

(** Lines 101-110 of [CanVport]: increase the allocated space. *)
Definition CanVport_grow : M unit :=
  t <- gets ports ;;
  when (portptr t =? portsize t)
    (modify_ports (set_portsize (2 * portsize t)) ;;;
     r1 <- syscall (sys_realloc (2 * portsize t)) ;;
     r2 <- syscall (sys_realloc (2 * portsize t)) ;;
     if (rv r1 =? 0) || (rv r2 =? 0) then exit 1
     else
       modify_ports (fun t' =>
         set_VportFd (grow zero_pollfd (portsize t') (VportFd t'))
           (set_p (grow zero_port (portsize t') (p t')) t'))).

(** Lines 112-163 of [CanVport]: fill [ports.p[ports.portptr]], allocate
    the pseudo-terminal, publish the symlink and watch it. *)
Definition CanVport_open (portid : Z) (uuid : list Z) : M Z :=
  t <- gets ports ;;
  let n := portptr t in
  let old := rd zero_port (p t) n in
  (* assign packet handlers *)
  let e := mkPortId (u16 portid) (u32 (2 * portid + PKT_ID_CTL_FILTER))
                    (firstn (Z.to_nat CAN_UUID_SIZE) uuid)
                    PINGS_BEFORE_DISCONNECT 0 (watch old) in
  modify_ports (fun t' =>
    set_VportFd
      (upd (VportFd t') n (set_revents 0 (rd zero_pollfd (VportFd t') n)))
      (set_p (upd (p t') n e) t')) ;;;
  (* allocate virtual port *)
  r <- syscall sys_openpty ;;
  if negb (rv r =? 0) then ret (-1)
  else
    let mfd := r_fd r in
    let sfd := r_sfd r in
    fl <- syscall (sys_fcntl mfd F_GETFL 0) ;;
    if rv fl <? 0 then ret (-1)
    else
      syscall (sys_fcntl mfd F_SETFL (Z.lor (rv fl) O_NONBLOCK)) ;;;
      syscall (sys_fcntl mfd F_SETFD FD_CLOEXEC) ;;;
      syscall (sys_fcntl sfd F_SETFD FD_CLOEXEC) ;;;
      tn <- syscall (sys_ttyname sfd) ;;
      let tname := r_path tn in
      (* create symlink to tty *)
      let fname := CanTtyName e in
      syscall (sys_unlink fname) ;;;
      r <- syscall (sys_symlink tname fname) ;;
      if negb (rv r =? 0) then ret (-1)
      else
        r <- syscall (sys_chmod tname 438) ;;
        if negb (rv r =? 0) then ret (-1)
        else
          modify_ports (fun t' =>
            set_VportFd (upd (VportFd t') n (mkPollfd mfd POLLIN
                           (revents (rd zero_pollfd (VportFd t') n)))) t') ;;;
          ino <- gets Inotify ;;
          r <- syscall (sys_inotify_add_watch ino fname
                          (Z.lor IN_OPEN IN_CLOSE)) ;;
          modify_ports (fun t' =>
            set_portptr (portptr t' + 1)
              (set_p (upd (p t') n
                        (set_watch (rv r) (rd zero_port (p t') n))) t')) ;;;
          t <- gets ports ;;
          ret (portptr t - 1).

Definition CanVport (portid : Z) (uuid : list Z) : M Z :=
  t <- gets ports ;;
  (* check if port exists *)
  let i := scan (fun i => port (rd zero_port (p t) i) =? portid)
                1 (Z.to_nat (portptr t - 1)) in
  if i <? portptr t then
    (* assign the same virtual port for re-initialized CAN *)
    ret i
  else
    CanVport_grow ;;;
    CanVport_open portid uuid.

(** The [resp] structure is packed: 2 bytes of [canid], then the UUID. *)
Definition ConfigurePort (frame : tCanFrame) : M Z :=
  (* generate packet id: (port number*2) + ID offset *)
  let portid := PnGetNumber (data frame) in
  let resp_canid := u16 (2 * portid + PKT_ID_CTL_FILTER) in
  let resp_u := firstn (Z.to_nat CAN_UUID_SIZE) (data frame) in
  (* allocate virtual port for client *)
  CanVport portid resp_u ;;;
  CanSockSend PKT_ID_SET (u8 (2 + CAN_UUID_SIZE))
              (Some (le_bytes 2 resp_canid ++ resp_u)) ;;;
  ret 0.

(** Lines 213-228 of [CanRxThread]: a frame that is not a UUID response. *)
Definition rx_dispatch (frame : tCanFrame) : M unit :=
  t <- gets ports ;;
  let i := scan (fun i => canid (rd zero_port (p t) i) =? u32 (can_id frame - 1))
                1 (Z.to_nat (portptr t - 1)) in
  when (i <? portptr t)
    (let e := rd zero_port (p t) i in
     when ((0 <? can_dlc frame) && negb (active e =? 0))
       (syscall (sys_write (fd (rd zero_pollfd (VportFd t) i))
                           (firstn (Z.to_nat (can_dlc frame)) (data frame))) ;;;
        ret tt) ;;;
     (* refresh channel activity *)
     modify_ports (fun t' =>
       set_p (upd (p t') i
                (set_pingcount PINGS_BEFORE_DISCONNECT
                               (rd zero_port (p t') i))) t')) ;;;
  when (i =? portptr t)
    ((* looks like lost handshake, try to re-init *)
     let txaddr := u16 (can_id frame - 1) in
     CanSockSend PKT_ID_UUID 2 (Some (le_bytes 2 txaddr)) ;;;
     ret tt).

(** Lines 207-229: a frame was read from the CAN socket.  The result is
    [false] when the loop is left by [break]. *)
Definition rx_frame (frame : tCanFrame) : M bool :=
  if can_id frame =? PKT_ID_UUID_RESP then
    (* configure port *)
    res <- ConfigurePort frame ;;
    if res <? 0 then ret false else ret true
  else
    rx_dispatch frame ;;; ret true.

(** Lines 202-230: the CAN socket is readable. *)
Definition rx_can : M bool :=
  t <- gets ports ;;
  r <- syscall (sys_read_frame (fd (rd zero_pollfd (VportFd t) 0))) ;;
  if 0 <=? rv r then rx_frame (r_frame r) else ret true.

(** Lines 233-242: one slot of the loop over the virtual ports. *)
Definition rx_pty (i : Z) : M unit :=
  t <- gets ports ;;
  when (negb (revents (rd zero_pollfd (VportFd t) i) =? 0))
    (r <- syscall (sys_read (fd (rd zero_pollfd (VportFd t) i)) CAN_DATA_SIZE) ;;
     let rl := rv r in
     when (0 <? rl)
       (let rxbuf := firstn (Z.to_nat rl) (r_bytes r) in
        (* end of packet indicator: now we can send responses *)
        when (existsb (fun b => b =? 126) rxbuf)
          (modify_ports (fun t' =>
             set_p (upd (p t') i (set_active 1 (rd zero_port (p t') i))) t')) ;;;
        t' <- gets ports ;;
        CanSockSend (canid (rd zero_port (p t') i)) (u8 rl) (Some rxbuf) ;;;
        ret tt)).

(** Lines 249-262: one inotify event. *)
Definition rx_event (ev : inotify_event) : M unit :=
  t <- gets ports ;;
  let i := scan (fun i => watch (rd zero_port (p t) i) =? wd ev)
                1 (Z.to_nat (portptr t - 1)) in
  when (i <? portptr t)
    (if negb (Z.land (mask ev) IN_OPEN =? 0) then
       modify_ports (fun t' =>
         set_p (upd (p t') i (set_active 1 (rd zero_port (p t') i))) t') ;;;
       (* send reset to MCU *)
       CanSockSend PKT_ID_UUID 2
                   (Some (le_bytes 2 (canid (rd zero_port (p t) i)))) ;;;
       ret tt
     else if negb (Z.land (mask ev) IN_CLOSE =? 0) then
       modify_ports (fun t' =>
         set_p (upd (p t') i (set_active 0 (rd zero_port (p t') i))) t')
     else ret tt).

Definition set_all_revents (l : list Z) (fds : list pollfd) (n : Z)
  : list pollfd :=
  map (fun ix => let '(k, f) := ix in
                 if Z.of_nat k <? n then set_revents (nth k l 0) f else f)
      (combine (seq 0 (List.length fds)) fds).

(** [poll] stores the returned events of the first [portptr] entries. *)
Definition do_poll : M Z :=
  t <- gets ports ;;
  r <- syscall (sys_poll (portptr t) 1000) ;;
  when (0 <=? rv r)
    (modify_ports (fun t' =>
       set_VportFd (set_all_revents (r_revents r) (VportFd t') (portptr t)) t')) ;;;
  ret (rv r).

(** Lines 232-243: the loop over the virtual ports. *)
Definition rx_ptys : M unit :=
  t <- gets ports ;;
  for_loop 1 (portptr t) rx_pty.

(** Lines 246-264: the inotify descriptor is read without blocking. *)
Definition rx_inotify : M unit :=
  ino <- gets Inotify ;;
  r <- syscall (sys_read_events ino) ;;
  when (0 <? rv r) (for_each (r_events r) rx_event).

(** Lines 201-245: one of the descriptors is ready. *)
Definition rx_ready : M bool :=
  t <- gets ports ;;
  if negb (revents (rd zero_pollfd (VportFd t) 0) =? 0) then rx_can
  else rx_ptys ;;; ret true.

(** One turn of the [while] loop of [CanRxThread]; [false] on [break]. *)
Definition CanRxThread_body : M bool :=
  r <- do_poll ;;
  go <- (if 0 <? r then rx_ready else ret true) ;;
  if go then rx_inotify ;;; ret true
  else ret false.

(** The code after the loop: close and delete fd's. *)
Definition CanRxThread_exit : M unit :=
  t <- gets ports ;;
  for_loop 1 (portptr t) (fun i =>
    t' <- gets ports ;; CanVportClose (rd zero_port (p t') i)).


(** The two [memcpy] of lines 296-297, for [j = pingptr]: slot [j + 1]
    of both vectors is copied over slot [j]. *)
Definition copy_next (j : Z) (t : tPorts) : tPorts :=
  set_VportFd (upd (VportFd t) j (rd zero_pollfd (VportFd t) (j + 1)))
    (set_p (upd (p t) j (rd zero_port (p t) (j + 1))) t).

Definition CanPing : M unit :=
  w <- gets (fun w => w) ;;
  if pingptr w =? 0 then
    (* request for new port assign *)
    CanSockSend PKT_ID_UUID 0 None ;;;
    modify (set_pingptr (pingptr w + 1))
  else if portptr (ports w) <=? pingptr w then
    modify (set_pingptr 0)
  else
    let e := rd zero_port (p (ports w)) (pingptr w) in
    (* check if we have packets from remote *)
    if pingcount e =? 0 then
      (* unlink dead port *)
      CanVportClose e ;;;
      for_loop (pingptr w) (portptr (ports w) - 1) (fun _ =>
        modify_ports (copy_next (pingptr w))) ;;;
      modify_ports (fun t => set_portptr (portptr t - 1) t)
    else
      modify_ports (fun t =>
        set_p (upd (p t) (pingptr w)
                   (set_pingcount (pingcount e - 1) e)) t) ;;;
      when (pingcount e - 1 <? 2)
        (CanSockSend (canid e) 0 None ;;; ret tt) ;;;
      modify (set_pingptr (pingptr w + 1)).


End CanSock.

(** ** The state after a successful [CanSockInit] (lines 373-391)

    The vectors hold 8 elements, slot 0 polls the CAN socket, and no
    virtual port exists.  [malloc] does not initialise [ports.p]; its
    elements are written by [CanVport] before they are read. *)
Definition init_world (s ino : Z) (o : nat -> Reply) : World :=
  mkWorld (mkPorts (repeat zero_port 8)
                   (mkPollfd s POLLIN 0 :: repeat zero_pollfd 7) 8 1)
          s 0 ino 0 [] o 0.

(** ** Runs of the process

    The receive thread and the callers of [CanPing] and [CanSockSend]
    alternate under [lock]; a run is a sequence of their turns, each of
    which returns.  A turn of the receive loop is taken as a whole: the
    table does not change between [poll] and the handling of what it
    reported. *)
Inductive Op :=
| OpRx
| OpPing
| OpSend (id len : Z) (data_ : option (list Z)).

Section Runs.

Context {K : Consts}.

Definition exec (o : Op) (w : World) : option World :=
  match o with
  | OpRx => match CanRxThread_body w with
            | (Val true, w') => Some w'
            | _ => None
            end
  | OpPing => match CanPing w with
              | (Val _, w') => Some w'
              | _ => None
              end
  | OpSend id len d => match CanSockSend id len d w with
                       | (Val _, w') => Some w'
                       | _ => None
                       end
  end.

Fixpoint run (l : list Op) (w : World) : option World :=
  match l with
  | [] => Some w
  | o :: t => match exec o w with
              | Some w' => run t w'
              | None => None
              end
  end.

Inductive reachable : World -> Prop :=
| reach_init s ino o : reachable (init_world s ino o)
| reach_step o w w' : reachable w -> exec o w = Some w' -> reachable w'.

End Runs.

(** ** Vocabulary of the statements *)

(** The vectors are allocated with [portsize] elements and the live
    slots are those below [portptr]. *)
Definition wf_ports (t : tPorts) : Prop :=
  1 <= portptr t <= portsize t /\
  Z.of_nat (List.length (p t)) = portsize t /\
  Z.of_nat (List.length (VportFd t)) = portsize t.

(** The live part of the table, slot 0 included. *)
Definition live (t : tPorts) : list tPortId :=
  firstn (Z.to_nat (portptr t)) (p t).

Definition live_fds (t : tPorts) : list pollfd :=
  firstn (Z.to_nat (portptr t)) (VportFd t).

(** A sequence with only its element [i] deleted. *)
Definition delete_slot {A : Type} (i : Z) (l : list A) : list A :=
  firstn (Z.to_nat i) l ++ skipn (Z.to_nat (i + 1)) l.

(** Slot [i] is the one the receive loop stops at for [frame]: the first
    live slot whose [canid] is the frame's identifier minus one. *)
Definition first_match (frame : tCanFrame) (t : tPorts) (i : Z) : Prop :=
  1 <= i < portptr t /\
  canid (rd zero_port (p t) i) = u32 (can_id frame - 1) /\
  forall j, 1 <= j < i -> canid (rd zero_port (p t) j) <> u32 (can_id frame - 1).

Definition no_match (frame : tCanFrame) (t : tPorts) : Prop :=
  forall j, 1 <= j < portptr t ->
            canid (rd zero_port (p t) j) <> u32 (can_id frame - 1).

(** The event sources the receive thread reads from. *)
Inductive Source :=
| SrcCan
| SrcPty (fd_ : Z)
| SrcInotify.

Definition source_of (c : Call) : list Source :=
  match c with
  | sys_read_frame _ => [SrcCan]
  | sys_read f _ => [SrcPty f]
  | sys_read_events _ => [SrcInotify]
  | _ => []
  end.

(** The sources read by the calls of a trace, in order. *)
Definition sources (tr : list Call) : list Source := flat_map source_of tr.

Definition is_close (c : Call) : bool :=
  match c with
  | sys_close _ => true
  | _ => false
  end.

(** The descriptors of the virtual ports [lo .. lo + n - 1] that [poll]
    reported, in slot order. *)
Fixpoint readable_from (fds : list pollfd) (lo : Z) (n : nat) : list Z :=
  match n with
  | O => []
  | S n' =>
      (if revents (rd zero_pollfd fds lo) =? 0 then []
       else [fd (rd zero_pollfd fds lo)]) ++ readable_from fds (lo + 1) n'
  end.

Definition readable (t : tPorts) : list Z :=
  readable_from (VportFd t) 1 (Z.to_nat (portptr t - 1)).

(** Two live slots of the table carry the same port number. *)
Definition duplicate_port (t : tPorts) : Prop :=
  exists i j, 1 <= i < j /\ j < portptr t /\
              port (rd zero_port (p t) i) = port (rd zero_port (p t) j).

(** No two live slots carry the same port number. *)
Definition unique_ports (t : tPorts) : Prop :=
  forall i j, 1 <= i < j -> j < portptr t ->
              port (rd zero_port (p t) i) <> port (rd zero_port (p t) j).


(** The invariant of the port table: it is well formed and the
    [pingcount] of every live slot lies between 0 and
    [PINGS_BEFORE_DISCONNECT]. *)
Definition table_ok {K : Consts} (t : tPorts) : Prop :=
  wf_ports t /\
  forall i, 1 <= i < portptr t ->
            0 <= pingcount (rd zero_port (p t) i) <= PINGS_BEFORE_DISCONNECT.

Definition world_ok {K : Consts} (w : World) : Prop := table_ok (ports w).

(** The ping cursor is an index. *)
Definition cursor_ok (w : World) : Prop := 0 <= pingptr w.

(** The computation maintains the invariant [I] whenever it returns. *)
Definition keeps (I : World -> Prop) {A : Type} (m : M A) : Prop :=
  forall w, I w -> forall a w', m w = (Val a, w') -> I w'.


(** An invocation of the ping driver on slot [j]. *)
Definition CanPing_at {K : Consts} (j : Z) (w : World) : World :=
  snd (CanPing (set_pingptr j w)).

Fixpoint CanPing_visits {K : Consts} (j : Z) (n : nat) (w : World) : World :=
  match n with
  | O => w
  | S n' => CanPing_at j (CanPing_visits j n' w)
  end.

(** The empty frame the ping driver sends on [id]. *)
Definition ping_frame {K : Consts} (s id : Z) : Call :=
  sys_write_frame s (mkFrame id 0 []) sizeof_tCanFrame.

(** A world reached from [w] by calls that read from no event source;
    the descriptors of the CAN socket and of inotify are as in [w]. *)
Definition stable (w w' : World) : Prop :=
  sock w' = sock w /\
  Inotify w' = Inotify w /\
  exists evs, trace w' = trace w ++ evs /\ sources evs = [].

Definition steady {A : Type} (m : M A) : Prop :=
  forall w, stable w (snd (m w)).

(** The computation returns: it neither exits the process nor faults. *)
Definition total {A : Type} (m : M A) : Prop :=
  forall w, exists a, fst (m w) = Val a.

(** Every value the computation returns satisfies [P]. *)
Definition results {A : Type} (m : M A) (P : A -> Prop) : Prop :=
  forall w a w', m w = (Val a, w') -> P a.

(** [CanVport] finds [portid] in the table. *)
Definition port_known (portid : Z) (t : tPorts) : bool :=
  scan (fun i => port (rd zero_port (p t) i) =? portid)
       1 (Z.to_nat (portptr t - 1)) <? portptr t.

(** One of the next two calls, the two [realloc] of [CanVport], returns
    NULL. *)
Definition realloc_fails (w : World) : bool :=
  (rv (os w (tick w)) =? 0) || (rv (os w (S (tick w))) =? 0).

(** [CanVport portid] has to enlarge the full table and cannot. *)
Definition growth_fails (portid : Z) (w : World) : bool :=
  negb (port_known portid (ports w))
  && (portptr (ports w) =? portsize (ports w))
  && realloc_fails w.

(** The acknowledgement [ConfigurePort] sends for [frame]. *)
Definition set_frame {K : Consts} (frame : tCanFrame) : tCanFrame :=
  mkFrame PKT_ID_SET 8
    (firstn 8 (le_bytes 2 (u16 (2 * PnGetNumber (data frame) + PKT_ID_CTL_FILTER))
               ++ firstn 6 (data frame))).


(** ** Concrete inputs

    An instance of the parameters and a few worlds on which the program
    is run below.  The values of the constants are examples. *)
Definition demo : Consts :=
  {| PKT_ID_UUID := 801;
     PKT_ID_SET := 802;
     PKT_ID_UUID_RESP := 803;
     PKT_ID_CTL_FILTER := 384;
     PINGS_BEFORE_DISCONNECT := 3;
     sizeof_tCanFrame := 16;
     PnGetNumber := fun d => nth 0 d 0 |}.

Definition reply_rv (z : Z) : Reply :=
  mkReply z (mkFrame 0 0 []) [] [] [] 0 0 EmptyString.
Definition reply_poll (z : Z) (l : list Z) : Reply :=
  mkReply z (mkFrame 0 0 []) [] l [] 0 0 EmptyString.
Definition reply_frame (f : tCanFrame) : Reply :=
  mkReply 16 f [] [] [] 0 0 EmptyString.
Definition reply_pty (m s : Z) : Reply :=
  mkReply 0 (mkFrame 0 0 []) [] [] [] m s EmptyString.
Definition reply_path (s : string) : Reply :=
  mkReply 0 (mkFrame 0 0 []) [] [] [] 0 0 s.

(** An oracle that answers from a list and then with full frame writes. *)
Definition script_of (l : list Reply) : nat -> Reply :=
  fun n => nth n l (reply_rv 16).

(** The replies to one turn of the receive thread that discovers the
    node [u] and opens the pseudo-terminal [(m, s)] with watch [wd_]. *)
Definition discovery (u : list Z) (m s wd_ : Z) : list Reply :=
  [reply_poll 1 [1]; reply_frame (mkFrame 803 6 (u ++ [0; 0]));
   reply_pty m s; reply_rv 2; reply_rv 0; reply_rv 0; reply_rv 0;
   reply_path "/dev/pts/5"; reply_rv 0; reply_rv 0; reply_rv 0;
   reply_rv wd_; reply_rv 16; reply_rv (-1)].

Definition portA : tPortId := mkPortId 1 386 [1; 2; 3; 4; 5; 6] 0 1 1.
Definition portB : tPortId := mkPortId 2 388 [2; 2; 3; 4; 5; 6] 1 1 2.
Definition portC : tPortId := mkPortId 3 390 [3; 2; 3; 4; 5; 6] 3 0 3.

(** Three virtual ports; the ping cursor is on the first one, whose
    [pingcount] has run out. *)
Definition table_abc : tPorts :=
  mkPorts ([zero_port; portA; portB; portC] ++ repeat zero_port 4)
          ([mkPollfd 3 POLLIN 0; mkPollfd 10 POLLIN 0; mkPollfd 12 POLLIN 0;
            mkPollfd 14 POLLIN 0] ++ repeat zero_pollfd 4)
          8 4.

Definition world_abc (o : nat -> Reply) : World :=
  mkWorld table_abc 3 1 4 0 [] o 0.

(** A frame with the identifier [portB] is sent to, one below its
    [canid], and one with the identifier one above it. *)
Definition frame_below_B : tCanFrame := mkFrame 387 3 [65; 66; 67; 0; 0; 0; 0; 0].
Definition frame_above_B : tCanFrame := mkFrame 389 3 [65; 66; 67; 0; 0; 0; 0; 0].

(** [poll] reports the CAN socket and the second virtual port readable;
    the frame read is addressed to that port. *)
Definition script_both : list Reply :=
  [reply_poll 2 [1; 0; 1; 0]; reply_frame frame_above_B; reply_rv 3;
   reply_rv (-1)].

(** A full table of 7 virtual ports, and a discovery during which
    [realloc] fails. *)
Definition demo_port (k : nat) : tPortId :=
  mkPortId (Z.of_nat k) (2 * Z.of_nat k + 384) [Z.of_nat k; 0; 0; 0; 0; 0]
           3 0 (Z.of_nat k).

Definition table_full : tPorts :=
  mkPorts (zero_port :: map demo_port (seq 1 7))
          (mkPollfd 3 POLLIN 0
             :: map (fun k => mkPollfd (Z.of_nat (10 + k)) POLLIN 0) (seq 1 7))
          8 8.

Definition world_full : World :=
  mkWorld table_full 3 0 4 0 [] (script_of [reply_rv 0; reply_rv 0]) 0.

Definition frame_uuid9 : tCanFrame := mkFrame 803 6 [9; 0; 0; 0; 0; 0; 0; 0].

(** Discovery of three nodes after initialisation, then the ping driver
    until the first port is reaped. *)
Definition script_three : list Reply :=
  discovery [1; 2; 3; 4; 5; 6] 10 11 1 ++
  discovery [2; 2; 3; 4; 5; 6] 12 13 2 ++
  discovery [3; 2; 3; 4; 5; 6] 14 15 3.

Definition ops_three_reap : list Op :=
  [OpRx; OpRx; OpRx] ++ repeat OpPing 17.

(** The world a run ends in ([w] itself when a turn does not return). *)
Definition run_or {K : Consts} (l : list Op) (w : World) : World :=
  match run l w with
  | Some w' => w'
  | None => w
  end.

Definition world_reaped : World :=
  run_or (K := demo) ops_three_reap (init_world 3 4 (script_of script_three)).

(** [openpty] fails during the discovery of a new node. *)
Definition world_no_pty : World := world_abc (script_of [reply_rv (-1)]).


(** ** Vocabulary of the further properties *)

(** The slot [CanVport] prepares for [portid] and [uuid] at the end of
    the table [t], before the watch is set. *)
Definition new_port {K : Consts} (portid : Z) (uuid : list Z) (t : tPorts)
  : tPortId :=
  mkPortId (u16 portid) (u32 (2 * portid + PKT_ID_CTL_FILTER))
           (firstn (Z.to_nat CAN_UUID_SIZE) uuid)
           PINGS_BEFORE_DISCONNECT 0
           (watch (rd zero_port (p t) (portptr t))).

(** The calls of lines 122-160 of [CanVport] when none of them fails,
    with the replies the oracle of [w] gives them. *)
Definition CanVport_calls {K : Consts} (portid : Z) (uuid : list Z) (w : World)
  : list Call :=
  let mfd := r_fd (os w (tick w)) in
  let sfd := r_sfd (os w (tick w)) in
  let tname := r_path (os w (5 + tick w)%nat) in
  let fname := CanTtyName (new_port portid uuid (ports w)) in
  [sys_openpty;
   sys_fcntl mfd F_GETFL 0;
   sys_fcntl mfd F_SETFL (Z.lor (rv (os w (1 + tick w)%nat)) O_NONBLOCK);
   sys_fcntl mfd F_SETFD FD_CLOEXEC;
   sys_fcntl sfd F_SETFD FD_CLOEXEC;
   sys_ttyname sfd;
   sys_unlink fname;
   sys_symlink tname fname;
   sys_chmod tname 438;
   sys_inotify_add_watch (Inotify w) fname (Z.lor IN_OPEN IN_CLOSE)].

(** How many of them are made: [openpty], the first [fcntl], [symlink]
    and [chmod] are the calls whose failure is checked. *)
Definition CanVport_steps (w : World) : nat :=
  if negb (rv (os w (tick w)) =? 0) then 1
  else if rv (os w (1 + tick w)%nat) <? 0 then 2
  else if negb (rv (os w (7 + tick w)%nat) =? 0) then 8
  else if negb (rv (os w (8 + tick w)%nat) =? 0) then 9
  else 10.

(** Slot [i] is the one the inotify loop stops at for [ev]: the first
    live slot whose watch is the event's. *)
Definition first_watch (ev : inotify_event) (t : tPorts) (i : Z) : Prop :=
  1 <= i < portptr t /\
  watch (rd zero_port (p t) i) = wd ev /\
  forall j, 1 <= j < i -> watch (rd zero_port (p t) j) <> wd ev.

Definition no_watch (ev : inotify_event) (t : tPorts) : Prop :=
  forall j, 1 <= j < portptr t -> watch (rd zero_port (p t) j) <> wd ev.

(** The calls of the clean-up loop for the slots [i .. i + n - 1]. *)
Fixpoint exit_calls {K : Consts} (ino : Z) (ps : list tPortId) (i : Z) (n : nat)
  : list Call :=
  match n with
  | O => []
  | S n' =>
      sys_inotify_rm_watch ino (watch (rd zero_port ps i))
        :: sys_unlink (CanTtyName (rd zero_port ps i))
        :: exit_calls ino ps (i + 1) n'
  end.

(** Two entries describe the same port: only the counters differ. *)
Definition same_port (e e' : tPortId) : Prop :=
  port e' = port e /\ canid e' = canid e /\
  can_uuid e' = can_uuid e /\ watch e' = watch e.

(** Every live slot of [t] is still there in [t'], at the same index,
    for the same port and with the same descriptor. *)
Definition table_kept (t t' : tPorts) : Prop :=
  portptr t <= portptr t' /\
  forall j, 0 <= j < portptr t ->
    same_port (rd zero_port (p t) j) (rd zero_port (p t') j) /\
    fd (rd zero_pollfd (VportFd t') j) = fd (rd zero_pollfd (VportFd t) j) /\
    events (rd zero_pollfd (VportFd t') j)
    = events (rd zero_pollfd (VportFd t) j).

Definition kept (w w' : World) : Prop :=
  wf_ports (ports w) ->
  wf_ports (ports w') /\ pingptr w' = pingptr w /\
  table_kept (ports w) (ports w').

(** Every return of the computation is related to its start by [R]. *)
Definition preserves (R : World -> World -> Prop) {A : Type} (m : M A) : Prop :=
  forall w a w', m w = (Val a, w') -> R w w'.

(** [n] successive calls of the ping driver. *)
Fixpoint CanPing_n {K : Consts} (n : nat) (w : World) : World :=
  match n with
  | O => w
  | S n' => snd (CanPing (CanPing_n n' w))
  end.

(** ** [CanSockInit]

    The initialisation runs before the receive thread exists.  Its calls
    are kept in a trace of their own, next to the world they set up; the
    replies come from the oracle of that world as for every other
    call. *)

Definition ENOMEM : Z := 12.
Definition ENOTSOCK : Z := 88.
Definition PF_CAN : Z := 29.
Definition SOCK_RAW : Z := 3.
Definition CAN_RAW : Z := 1.
Definition SIOCGIFINDEX : Z := 35123.
Definition SOL_SOCKET : Z := 1.
Definition SO_SNDBUF : Z := 7.
Definition SO_RCVBUF : Z := 8.
Definition SO_RCVTIMEO : Z := 20.
Definition SOL_CAN_RAW : Z := 101.
Definition CAN_RAW_FILTER : Z := 1.
Definition IN_NONBLOCK : Z := 2048.
Definition IN_CLOEXEC : Z := 524288.

(** The declarations of [cansock.h] that only [CanSockInit] uses. *)
Class InitConsts := {
  PKT_ID_UUID_FILTER : Z;
  PKT_ID_UUID_MASK : Z;
  PKT_ID_CTL_MASK : Z;
  NUM_CAN_FILTERS : Z
}.

Inductive InitCall :=
| init_socket (domain type_ protocol : Z)
| init_ioctl (fd_ request : Z) (ifname : string)
| init_setsockopt (fd_ level optname : Z) (value : list Z)
| init_setsockopt_filter (fd_ : Z) (filters : list (Z * Z))
| init_malloc (nelem : Z)
| init_free
| init_bind (fd_ ifindex : Z)
| init_inotify_init1 (flags : Z)
| init_pthread_mutex_init
| init_pthread_create.

Record InitWorld := mkInitWorld {
  iw : World;
  icalls : list InitCall
}.

Definition MI (A : Type) : Type := InitWorld -> Res A * InitWorld.

Definition iret {A : Type} (a : A) : MI A := fun s => (Val a, s).

Definition ibind {A B : Type} (m : MI A) (k : A -> MI B) : MI B :=
  fun s =>
    match m s with
    | (Val a, s') => k a s'
    | (Exit c, s') => (Exit c, s')
    | (Fault, s') => (Fault, s')
    end.

Notation "x <~ m ;; k" := (ibind m (fun x => k))
  (at level 61, m at next level, right associativity).
Notation "m ;~ k" := (ibind m (fun _ => k))
  (at level 61, right associativity).

Definition ifault {A : Type} : MI A := fun s => (Fault, s).

Definition imodify (f : World -> World) : MI unit :=
  fun s => (Val tt, mkInitWorld (f (iw s)) (icalls s)).

(** A call of the initialisation: it takes the next reply of the
    oracle. *)
Definition initcall (c : InitCall) : MI Reply :=
  fun s =>
    let w := iw s in
    (Val (os w (tick w)),
     mkInitWorld
       (mkWorld (ports w) (sock w) (pingptr w) (Inotify w) (threadexit w)
                (trace w) (os w) (S (tick w)))
       (icalls s ++ [c])).

Definition set_sock (z : Z) (w : World) : World :=
  mkWorld (ports w) z (pingptr w) (Inotify w) (threadexit w)
          (trace w) (os w) (tick w).

Definition set_Inotify (z : Z) (w : World) : World :=
  mkWorld (ports w) (sock w) (pingptr w) z (threadexit w)
          (trace w) (os w) (tick w).

(** The statics of the file when the process starts: all zero. *)
Definition boot_world (o : nat -> Reply) : InitWorld :=
  mkInitWorld (mkWorld (mkPorts [] [] 0 0) 0 0 0 0 [] o 0) [].

Section Init.

Context {K : Consts} {KI : InitConsts}.

(** [malloc] of a vector of [n] elements: NULL is the empty vector. *)
Definition malloc_vec {A : Type} (d : A) (n : Z) (r : Reply) : list A :=
  if rv r =? 0 then [] else repeat d (Z.to_nat n).

(** The value of [ifr.ifr_ifindex] that [ioctl] stores is the [r_fd] of
    its reply. *)
Definition CanSockInit : MI Z :=
  (* open socket *)
  r <~ initcall (init_socket PF_CAN SOCK_RAW CAN_RAW) ;;
  imodify (set_sock (rv r)) ;~
  if rv r <? 0 then iret ENOTSOCK
  else
    let s := rv r in
    r <~ initcall (init_ioctl s SIOCGIFINDEX "can0") ;;
    if rv r <? 0 then iret SIOCGIFINDEX
    else
      let ifindex := r_fd r in
      (* enable TX blocking mode when linux can TX buffer is full *)
      initcall (init_setsockopt s SOL_SOCKET SO_SNDBUF [0]) ;~
      (* set filters *)
      r <~ initcall (init_malloc NUM_CAN_FILTERS) ;;
      if rv r =? 0 then iret ENOMEM
      else
        let rfilter :=
          upd (upd (repeat (0, 0) (Z.to_nat NUM_CAN_FILTERS))
                   0 (PKT_ID_UUID_FILTER, PKT_ID_UUID_MASK))
              1 (PKT_ID_CTL_FILTER, PKT_ID_CTL_MASK) in
        initcall (init_setsockopt_filter s rfilter) ;~
        initcall init_free ;~
        (* set timeout *)
        initcall (init_setsockopt s SOL_SOCKET SO_RCVTIMEO [1; 0]) ;~
        r <~ initcall (init_setsockopt s SOL_SOCKET SO_RCVBUF [512]) ;;
        if rv r <? 0 then iret 1
        else
          r <~ initcall (init_bind s ifindex) ;;
          if rv r <? 0 then iret EIO
          else
            (* allocate ports; skip one position for CAN socket *)
            imodify (fun w => set_ports (mkPorts (p (ports w))
                                           (VportFd (ports w)) 8 1) w) ;~
            rp <~ initcall (init_malloc 8) ;;
            imodify (fun w =>
              set_ports (set_p (malloc_vec zero_port 8 rp) (ports w)) w) ;~
            rf <~ initcall (init_malloc 8) ;;
            (* the memset comes before the test of the pointers *)
            if rv rf =? 0 then ifault
            else
              imodify (fun w =>
                set_ports (set_VportFd (repeat zero_pollfd 8) (ports w)) w) ;~
              if rv rp =? 0 then iret ENOMEM
              else
                imodify (fun w =>
                  set_ports
                    (set_VportFd
                       (upd (VportFd (ports w)) 0 (mkPollfd s POLLIN 0))
                       (ports w)) w) ;~
                (* inotify for port open/close *)
                r <~ initcall (init_inotify_init1
                                 (Z.lor IN_NONBLOCK IN_CLOEXEC)) ;;
                imodify (set_Inotify (rv r)) ;~
                if rv r =? -1 then iret EINVAL
                else
                  r <~ initcall init_pthread_mutex_init ;;
                  if negb (rv r =? 0) then iret (rv r)
                  else
                    (* create CAN RX thread *)
                    r <~ initcall init_pthread_create ;;
                    if negb (rv r =? 0) then iret (rv r)
                    else iret 0.

End Init.

(** The checks of [CanSockInit] on the replies of [o], in the order of
    the calls: [socket], [ioctl], the [malloc] of the filters,
    [setsockopt(SO_RCVBUF)], [bind], the two [malloc] of the table,
    [inotify_init1], [pthread_mutex_init] and [pthread_create].  The
    replies 2, 4, 5 and 6 are those of calls whose result is not
    tested. *)
Definition init_checks (o : nat -> Reply) : list bool :=
  [0 <=? rv (o 0%nat); 0 <=? rv (o 1%nat); negb (rv (o 3%nat) =? 0);
   0 <=? rv (o 7%nat); 0 <=? rv (o 8%nat); negb (rv (o 9%nat) =? 0);
   negb (rv (o 10%nat) =? 0); negb (rv (o 11%nat) =? -1);
   rv (o 12%nat) =? 0; rv (o 13%nat) =? 0].

Definition example_init : InitConsts :=
  {| PKT_ID_UUID_FILTER := 800;
     PKT_ID_UUID_MASK := 2040;
     PKT_ID_CTL_MASK := 1920;
     NUM_CAN_FILTERS := 2 |}.


(** The second [malloc] of the table returns NULL. *)
Definition script_init_nomem : list Reply :=
  [reply_rv 3; reply_pty 2 0; reply_rv 0; reply_rv 1; reply_rv 0; reply_rv 0;
   reply_rv 0; reply_rv 0; reply_rv 0; reply_rv 1; reply_rv 0].

(** The index of the first check that fails. *)
Fixpoint first_failure (l : list bool) : option nat :=
  match l with
  | [] => None
  | b :: t => if b then option_map S (first_failure t) else Some O
  end.

(** The calls of an initialisation in which no check fails. *)
Definition init_calls {K : Consts} {KI : InitConsts} (o : nat -> Reply)
  : list InitCall :=
  let s := rv (o 0%nat) in
  [init_socket PF_CAN SOCK_RAW CAN_RAW;
   init_ioctl s SIOCGIFINDEX "can0";
   init_setsockopt s SOL_SOCKET SO_SNDBUF [0];
   init_malloc NUM_CAN_FILTERS;
   init_setsockopt_filter s
     (upd (upd (repeat (0, 0) (Z.to_nat NUM_CAN_FILTERS))
               0 (PKT_ID_UUID_FILTER, PKT_ID_UUID_MASK))
          1 (PKT_ID_CTL_FILTER, PKT_ID_CTL_MASK));
   init_free;
   init_setsockopt s SOL_SOCKET SO_RCVTIMEO [1; 0];
   init_setsockopt s SOL_SOCKET SO_RCVBUF [512];
   init_bind s (r_fd (o 1%nat));
   init_malloc 8;
   init_malloc 8;
   init_inotify_init1 (Z.lor IN_NONBLOCK IN_CLOEXEC);
   init_pthread_mutex_init;
   init_pthread_create].

(** What [CanSockInit] gives for each check that can fail first. *)
Definition init_failure (o : nat -> Reply) (k : nat) : Res Z :=
  nth k [Val ENOTSOCK; Val SIOCGIFINDEX; Val ENOMEM; Val 1; Val EIO;
         if rv (o 10%nat) =? 0 then Fault else Val ENOMEM;
         Fault; Val EINVAL; Val (rv (o 12%nat)); Val (rv (o 13%nat))]
      Fault.

(** ** Concrete inputs of the further properties *)

(** The replies to the calls of [CanVport] for a new port when all of
    them succeed (the watch is 7), and when [chmod] fails. *)
Definition script_open : list Reply :=
  [reply_pty 16 17; reply_rv 2; reply_rv 0; reply_rv 0; reply_rv 0;
   reply_path "/dev/pts/5"; reply_rv 0; reply_rv 0; reply_rv 0; reply_rv 7].

Definition script_chmod_fails : list Reply :=
  [reply_pty 16 17; reply_rv 2; reply_rv 0; reply_rv 0; reply_rv 0;
   reply_path "/dev/pts/5"; reply_rv 0; reply_rv 0; reply_rv (-1)].

Definition uuid9 : list Z := [9; 8; 7; 6; 5; 4].

(** A full table of 7 ports with all their credit, the cursor at 0, and
    a [realloc] that succeeds. *)
Definition world_full_ok : World :=
  mkWorld table_full 3 0 4 0 [] (script_of []) 0.

(** A [read] that returns the bytes [l]. *)
Definition reply_bytes (l : list Z) : Reply :=
  mkReply (Z.of_nat (List.length l)) (mkFrame 0 0 []) l [] [] 0 0 EmptyString.

(** [poll] has reported the master of the third port readable, and the
    read returns two bytes, the first of which is 0x7E. *)
Definition world_pty_ready : World :=
  snd (do_poll (world_abc (script_of [reply_poll 1 [0; 0; 0; 1];
                                      reply_bytes [126; 65]]))).

(** The symlink of the third port is opened. *)
Definition event_open_C : inotify_event := mkInotifyEvent 3 IN_OPEN.

(** Two ports; the cursor is on the last one, whose [pingcount] has run
    out. *)
Definition table_ba : tPorts :=
  mkPorts ([zero_port; portB; portA] ++ repeat zero_port 5)
          ([mkPollfd 3 POLLIN 0; mkPollfd 12 POLLIN 0; mkPollfd 10 POLLIN 0]
             ++ repeat zero_pollfd 5)
          8 3.

Definition world_ba : World := mkWorld table_ba 3 2 4 0 [] (script_of []) 0.

(** * Properties *)

(** ** Arrays and the search loop *)

Lemma upd_nat_length {A : Type} (l : list A) (n : nat) (x : A) :
  List.length (upd_nat l n x) = List.length l.
Proof.
  revert n; induction l as [|h t IH]; intros [|n]; simpl; auto.
Qed.

Lemma upd_length {A : Type} (l : list A) (i : Z) (x : A) :
  List.length (upd l i x) = List.length l.
Proof.
  unfold upd; destruct (i <? 0); auto using upd_nat_length.
Qed.

Lemma nth_upd_nat_same {A : Type} (d : A) (l : list A) (n : nat) (x : A) :
  (n < List.length l)%nat -> nth n (upd_nat l n x) d = x.
Proof.
  revert n; induction l as [|h t IH]; intros [|n] H; simpl in *;
    try lia; auto.
  apply IH; lia.
Qed.

Lemma nth_upd_nat_other {A : Type} (d : A) (l : list A) (n m : nat) (x : A) :
  n <> m -> nth m (upd_nat l n x) d = nth m l d.
Proof.
  revert n m; induction l as [|h t IH]; intros [|n] [|m] H; simpl;
    try congruence; auto.
Qed.

Lemma rd_upd_same {A : Type} (d : A) (l : list A) (i : Z) (x : A) :
  0 <= i < Z.of_nat (List.length l) -> rd d (upd l i x) i = x.
Proof.
  intros H; unfold rd, upd.
  destruct (Z.ltb_spec i 0); [lia|].
  apply nth_upd_nat_same; lia.
Qed.

Lemma rd_upd_other {A : Type} (d : A) (l : list A) (i j : Z) (x : A) :
  0 <= j -> i <> j -> rd d (upd l i x) j = rd d l j.
Proof.
  intros Hj H; unfold rd, upd.
  destruct (Z.ltb_spec i 0); [reflexivity|].
  apply nth_upd_nat_other; lia.
Qed.

Lemma scan_range (test : Z -> bool) (n : nat) :
  forall i, i <= scan test i n <= i + Z.of_nat n.
Proof.
  induction n as [|n IH]; intros i; simpl scan.
  - lia.
  - destruct (test i); [lia|]. specialize (IH (i + 1)); lia.
Qed.

Lemma scan_hit (test : Z -> bool) (n : nat) :
  forall i, scan test i n < i + Z.of_nat n -> test (scan test i n) = true.
Proof.
  induction n as [|n IH]; intros i; simpl scan.
  - lia.
  - destruct (test i) eqn:E; [auto|].
    intros H; apply IH; lia.
Qed.

Lemma scan_before (test : Z -> bool) (n : nat) :
  forall i j, i <= j < scan test i n -> test j = false.
Proof.
  induction n as [|n IH]; intros i j; simpl scan.
  - lia.
  - destruct (test i) eqn:E; [lia|].
    intros H. destruct (Z.eq_dec j i) as [->|Hne]; [assumption|].
    apply (IH (i + 1)); lia.
Qed.

(** The loop stops at the first index that passes the test. *)
Lemma scan_first (test : Z -> bool) (n : nat) (i j : Z) :
  i <= j < i + Z.of_nat n ->
  test j = true ->
  (forall k, i <= k < j -> test k = false) ->
  scan test i n = j.
Proof.
  intros Hj Ht Hb.
  pose proof (scan_range test n i) as Hr.
  destruct (Z.lt_trichotomy (scan test i n) j) as [Hlt|[Heq|Hgt]]; auto.
  - assert (test (scan test i n) = true) by (apply scan_hit; lia).
    rewrite Hb in H by lia. discriminate.
  - rewrite (scan_before test n i j) in Ht by lia. discriminate.
Qed.

(** The loop runs to its bound when no index passes the test. *)
Lemma scan_none (test : Z -> bool) (n : nat) (i : Z) :
  (forall k, i <= k < i + Z.of_nat n -> test k = false) ->
  scan test i n = i + Z.of_nat n.
Proof.
  intros Hb.
  pose proof (scan_range test n i) as Hr.
  destruct (Z.eq_dec (scan test i n) (i + Z.of_nat n)); auto.
  assert (test (scan test i n) = true) by (apply scan_hit; lia).
  rewrite Hb in H by lia. discriminate.
Qed.
(** ** Calls that read from no event source *)

Lemma stable_refl (w : World) : stable w w.
Proof.
  repeat split. exists []. split; [symmetry; apply app_nil_r|reflexivity].
Qed.

Lemma stable_trans (a b c : World) : stable a b -> stable b c -> stable a c.
Proof.
  intros (S1 & I1 & e1 & T1 & Q1) (S2 & I2 & e2 & T2 & Q2).
  split; [congruence|]. split; [congruence|].
  exists (e1 ++ e2). split.
  - rewrite T2, T1, app_assoc. reflexivity.
  - unfold sources in *. rewrite flat_map_app, Q1, Q2. reflexivity.
Qed.

Lemma steady_ret {A : Type} (a : A) : steady (ret a).
Proof. intros w; apply stable_refl. Qed.

Lemma steady_gets {A : Type} (f : World -> A) : steady (gets f).
Proof. intros w; apply stable_refl. Qed.

Lemma steady_exit {A : Type} (c : Z) : steady (@exit A c).
Proof. intros w; apply stable_refl. Qed.

Lemma steady_fault {A : Type} : steady (@fault A).
Proof. intros w; apply stable_refl. Qed.

Lemma steady_modify_ports (f : tPorts -> tPorts) : steady (modify_ports f).
Proof. intros w; simpl. apply (stable_refl w). Qed.

Lemma steady_syscall (c : Call) : source_of c = [] -> steady (syscall c).
Proof.
  intros H w. simpl. repeat split. exists [c]. split; [reflexivity|].
  unfold sources; simpl. rewrite H. reflexivity.
Qed.

Lemma steady_bind {A B : Type} (m : M A) (k : A -> M B) :
  steady m -> (forall a, steady (k a)) -> steady (bind m k).
Proof.
  intros Hm Hk w. unfold bind. specialize (Hm w).
  destruct (m w) as [[a|c|] w1]; simpl in *; auto.
  eapply stable_trans; [exact Hm|apply Hk].
Qed.

Lemma steady_when (b : bool) (m : M unit) : steady m -> steady (when b m).
Proof. destruct b; simpl; auto using steady_ret. Qed.

Lemma steady_for_each {A : Type} (l : list A) (body : A -> M unit) :
  (forall x, steady (body x)) -> steady (for_each l body).
Proof.
  intros H. induction l as [|x t IH]; simpl.
  - apply steady_ret.
  - apply steady_bind; auto.
Qed.

Ltac steady_step :=
  match goal with
  | |- steady (bind _ _) => apply steady_bind; [|intro]
  | |- steady (ret _) => apply steady_ret
  | |- steady (gets _) => apply steady_gets
  | |- steady (exit _) => apply steady_exit
  | |- steady fault => apply steady_fault
  | |- steady (modify_ports _) => apply steady_modify_ports
  | |- steady (syscall _) => apply steady_syscall; reflexivity
  | |- steady (when _ _) => apply steady_when
  | |- steady (for_each _ _) => apply steady_for_each; intro
  | |- steady (if ?b then _ else _) => destruct b
  | |- steady (match ?x with _ => _ end) => destruct x
  | |- steady _ => assumption
  end.

Lemma total_ret {A : Type} (a : A) : total (ret a).
Proof. intros w; exists a; reflexivity. Qed.

Lemma total_bind {A B : Type} (m : M A) (k : A -> M B) :
  total m -> (forall a, total (k a)) -> total (bind m k).
Proof.
  intros Hm Hk w. unfold bind. destruct (Hm w) as (a & Ha).
  destruct (m w) as [r w1]; simpl in Ha; subst r. apply Hk.
Qed.

Lemma total_gets {A : Type} (f : World -> A) : total (gets f).
Proof. intros w; eexists; reflexivity. Qed.

Lemma total_modify_ports (f : tPorts -> tPorts) : total (modify_ports f).
Proof. intros w; eexists; reflexivity. Qed.

Lemma total_syscall (c : Call) : total (syscall c).
Proof. intros w; eexists; reflexivity. Qed.

Lemma total_when (b : bool) (m : M unit) : total m -> total (when b m).
Proof. destruct b; simpl; auto using total_ret. Qed.

Lemma total_for_each {A : Type} (l : list A) (body : A -> M unit) :
  (forall x, total (body x)) -> total (for_each l body).
Proof.
  intros H. induction l as [|x t IH]; simpl.
  - apply total_ret.
  - apply total_bind; auto.
Qed.

Ltac total_step :=
  match goal with
  | |- total (bind _ _) => apply total_bind; [|intro]
  | |- total (ret _) => apply total_ret
  | |- total (gets _) => apply total_gets
  | |- total (modify_ports _) => apply total_modify_ports
  | |- total (syscall _) => apply total_syscall
  | |- total (when _ _) => apply total_when
  | |- total (for_each _ _) => apply total_for_each; intro
  | |- total (if ?b then _ else _) => destruct b
  | |- total _ => assumption
  end.

Lemma results_ret {A : Type} (a : A) (P : A -> Prop) : P a -> results (ret a) P.
Proof. intros H w b w' E. inversion E; subst; assumption. Qed.

Lemma results_bind {A B : Type} (m : M A) (k : A -> M B)
      (P : A -> Prop) (Q : B -> Prop) :
  results m P -> (forall a, P a -> results (k a) Q) -> results (bind m k) Q.
Proof.
  intros Hm Hk w b w' E. unfold bind in E.
  destruct (m w) as [[a|c|] w1] eqn:Em; try discriminate.
  eapply Hk; [eapply Hm; exact Em|exact E].
Qed.

Lemma results_any {A : Type} (m : M A) : results m (fun _ => True).
Proof. intros w a w' _; exact I. Qed.

(** ** The invariant of the port table *)

Lemma keeps_ret (I : World -> Prop) {A : Type} (a : A) : keeps I (ret a).
Proof. intros w H b w' E; inversion E; subst; exact H. Qed.

Lemma keeps_gets (I : World -> Prop) {A : Type} (f : World -> A) :
  keeps I (gets f).
Proof. intros w H b w' E; inversion E; subst; exact H. Qed.

Lemma keeps_exit (I : World -> Prop) {A : Type} (c : Z) : keeps I (@exit A c).
Proof. intros w H b w' E; discriminate. Qed.

Lemma keeps_fault (I : World -> Prop) {A : Type} : keeps I (@fault A).
Proof. intros w H b w' E; discriminate. Qed.

Lemma keeps_bind (I : World -> Prop) {A B : Type} (m : M A) (k : A -> M B) :
  keeps I m -> (forall a, keeps I (k a)) -> keeps I (bind m k).
Proof.
  intros Hm Hk w Hw b w' E. unfold bind in E.
  destruct (m w) as [[a|c|] w1] eqn:Em; try discriminate.
  eapply Hk; [eapply Hm; eassumption|exact E].
Qed.

Lemma keeps_when (I : World -> Prop) (b : bool) (m : M unit) :
  keeps I m -> keeps I (when b m).
Proof. destruct b; simpl; auto using keeps_ret. Qed.

Lemma keeps_for_range (I : World -> Prop) (body : Z -> M unit) (n : nat) :
  (forall i, keeps I (body i)) -> forall i, keeps I (for_range i n body).
Proof.
  intros H. induction n as [|n IH]; intros i; simpl.
  - apply keeps_ret.
  - apply keeps_bind; auto.
Qed.

Lemma keeps_for_each (I : World -> Prop) {A : Type} (l : list A)
      (body : A -> M unit) :
  (forall x, keeps I (body x)) -> keeps I (for_each l body).
Proof.
  intros H. induction l as [|x t IH]; simpl.
  - apply keeps_ret.
  - apply keeps_bind; auto.
Qed.

Lemma upd_nat_overflow {A : Type} (l : list A) (n : nat) (x : A) :
  (List.length l <= n)%nat -> upd_nat l n x = l.
Proof.
  revert n; induction l as [|h t IH]; intros [|n] H; simpl in *;
    try lia; auto.
  rewrite IH by lia. reflexivity.
Qed.

(** An element of an updated vector is the new element or an old one. *)
Lemma rd_upd_cases {A : Type} (d : A) (l : list A) (i j : Z) (x : A) :
  0 <= j -> rd d (upd l i x) j = x \/ rd d (upd l i x) j = rd d l j.
Proof.
  intros Hj. destruct (Z.eq_dec i j) as [->|Hne].
  - destruct (Z_lt_le_dec j (Z.of_nat (List.length l))).
    + left. apply rd_upd_same; lia.
    + right. unfold upd. destruct (j <? 0); [reflexivity|].
      rewrite upd_nat_overflow by lia. reflexivity.
  - right. apply rd_upd_other; assumption.
Qed.

Lemma set_all_revents_length (l : list Z) (fds : list pollfd) (n : Z) :
  List.length (set_all_revents l fds n) = List.length fds.
Proof.
  unfold set_all_revents.
  rewrite length_map, length_combine, length_seq. lia.
Qed.


Section Properties.

Context {K : Consts}.

(** ** [CanSockSend] *)

(** C5.  [CanSockSend] returns [EINVAL] for a length above 8 and then
    leaves the world as it is, so nothing is written to the socket; it
    returns [EIO] when [write] returns less than the size of a frame
    (an error included); and it never changes the port table. *)
Theorem CanSockSend_errors (id len : Z) (d : option (list Z)) (w : World)
        (Hsize : 0 <= sizeof_tCanFrame < 2 ^ 63)
        (Hrv : - 2 ^ 63 <= rv (os w (tick w)) < 2 ^ 63) :
  (8 < len -> CanSockSend id len d w = (Val EINVAL, w)) /\
  (len <= 8 -> len = 0 \/ d <> None ->
   rv (os w (tick w)) < sizeof_tCanFrame ->
   fst (CanSockSend id len d w) = Val EIO) /\
  ports (snd (CanSockSend id len d w)) = ports w.
Proof.
  unfold CanSockSend. repeat split.
  - intros H. destruct (Z.ltb_spec 8 len); [reflexivity|lia].
  - intros H Hd Hw. destruct (Z.ltb_spec 8 len); [lia|].
    assert (Hne : (to_size_t (rv (os w (tick w))) =? sizeof_tCanFrame) = false).
    { apply Z.eqb_neq. unfold to_size_t.
      destruct (Z_lt_le_dec (rv (os w (tick w))) 0).
      - replace (rv (os w (tick w)) mod 2 ^ 64)
          with (rv (os w (tick w)) + 2 ^ 64); [lia|].
        apply Z.mod_unique with (q := -1); lia.
      - rewrite Z.mod_small; lia. }
    destruct (Z.eqb_spec len 0).
    + unfold bind, ret, gets, syscall; simpl. rewrite Hne. reflexivity.
    + destruct d as [b|]; [|destruct Hd; congruence].
      unfold bind, ret, gets, syscall; simpl. rewrite Hne. reflexivity.
  - destruct (8 <? len); [reflexivity|].
    destruct (len =? 0); [|destruct d]; unfold bind, ret, gets, syscall, fault;
      simpl; try reflexivity;
      destruct (to_size_t _ =? _); reflexivity.
Qed.

(** C10.  With [len = 0] the result does not depend on [data], NULL
    included: no byte is read through it, the call does not fault, and
    the frame written carries [can_dlc = 0]. *)
Theorem CanSockSend_len0 (id : Z) (d : option (list Z)) (w : World) :
  CanSockSend id 0 d w = CanSockSend id 0 None w /\
  fst (CanSockSend id 0 d w) <> Fault /\
  trace (snd (CanSockSend id 0 d w)) =
    trace w ++ [sys_write_frame (sock w) (mkFrame id 0 []) sizeof_tCanFrame].
Proof.
  unfold CanSockSend, bind, ret, gets, syscall; simpl.
  repeat split; destruct (to_size_t _ =? _); simpl; congruence.
Qed.

(** ** [CanVportClose] *)

Lemma CanVportClose_run (e : tPortId) (w : World) :
  CanVportClose e w =
  (Val tt,
   mkWorld (ports w) (sock w) (pingptr w) (Inotify w) (threadexit w)
           (trace w ++ [sys_inotify_rm_watch (Inotify w) (watch e);
                        sys_unlink (CanTtyName e)])
           (os w) (S (S (tick w)))).
Proof.
  unfold CanVportClose, bind, ret, gets, syscall; simpl.
  rewrite <- app_assoc. reflexivity.
Qed.

(** C4.  The calls of [CanVportClose] are [inotify_rm_watch] and
    [unlink]; it closes no descriptor. *)
Theorem CanVportClose_calls (e : tPortId) (w : World) :
  fst (CanVportClose e w) = Val tt /\
  trace (snd (CanVportClose e w)) =
    trace w ++ [sys_inotify_rm_watch (Inotify w) (watch e);
                sys_unlink (CanTtyName e)] /\
  ports (snd (CanVportClose e w)) = ports w /\
  existsb is_close [sys_inotify_rm_watch (Inotify w) (watch e);
                    sys_unlink (CanTtyName e)] = false.
Proof.
  rewrite CanVportClose_run. repeat split.
Qed.

(** ** The dispatch of a received frame *)

Lemma first_match_scan (frame : tCanFrame) (t : tPorts) (i : Z) :
  first_match frame t i ->
  scan (fun k => canid (rd zero_port (p t) k) =? u32 (can_id frame - 1))
       1 (Z.to_nat (portptr t - 1)) = i.
Proof.
  intros (Hi & Hm & Hb). apply scan_first.
  - lia.
  - apply Z.eqb_eq; assumption.
  - intros k Hk. apply Z.eqb_neq, Hb; assumption.
Qed.

Lemma no_match_scan (frame : tCanFrame) (t : tPorts) :
  1 <= portptr t ->
  no_match frame t ->
  scan (fun k => canid (rd zero_port (p t) k) =? u32 (can_id frame - 1))
       1 (Z.to_nat (portptr t - 1)) = portptr t.
Proof.
  intros Hp Hn. rewrite scan_none.
  - lia.
  - intros k Hk. apply Z.eqb_neq, Hn. lia.
Qed.

(** C3.  When slot [i] matches the frame, the payload is written to the
    slot's master descriptor exactly when [can_dlc > 0] and the slot is
    active, and [pingcount] is reset to [PINGS_BEFORE_DISCONNECT] whether
    or not the payload was written. *)
Theorem rx_dispatch_match (frame : tCanFrame) (w : World) (i : Z)
        (Hwf : wf_ports (ports w))
        (Hi : first_match frame (ports w) i) :
  let e := rd zero_port (p (ports w)) i in
  let w' := snd (rx_dispatch frame w) in
  let wr := sys_write (fd (rd zero_pollfd (VportFd (ports w)) i))
                      (firstn (Z.to_nat (can_dlc frame)) (data frame)) in
  fst (rx_dispatch frame w) = Val tt /\
  (0 < can_dlc frame /\ active e <> 0 -> trace w' = trace w ++ [wr]) /\
  (~ (0 < can_dlc frame /\ active e <> 0) -> trace w' = trace w) /\
  pingcount (rd zero_port (p (ports w')) i) = PINGS_BEFORE_DISCONNECT.
Proof.
  intros e w' wr. subst w'.
  pose proof (first_match_scan _ _ _ Hi) as Hs.
  destruct Hi as (Hi & _ & _). destruct Hwf as (Hp & Hlp & _).
  unfold rx_dispatch, bind, gets; simpl. rewrite Hs.
  destruct (Z.ltb_spec i (portptr (ports w))); [|lia].
  destruct (Z.eqb_spec i (portptr (ports w))); [lia|].
  fold e.
  destruct (Z.ltb_spec 0 (can_dlc frame)) as [Hd|Hd];
    destruct (Z.eqb_spec (active e) 0) as [Ha|Ha];
    unfold when, bind, ret, modify_ports, modify, syscall; simpl;
    (split; [reflexivity|]);
    (split; [intros [? ?]; try lia; try congruence; auto|]);
    (split; [intros Hn; try reflexivity; exfalso; apply Hn; split; assumption|]);
    (rewrite rd_upd_same by lia; reflexivity).
Qed.

(** C2, as the code has it.  A frame that is not a UUID response goes to
    the first live slot whose [canid] equals the frame's identifier minus
    one (in 32 bits): that slot's [pingcount] is reset, any payload is
    written to that slot's descriptor, and every other slot is left as it
    was.  When no slot matches, the table is unchanged and a UUID request
    for the identifier minus one is sent instead. *)
Theorem rx_dispatch_routes (frame : tCanFrame) (w : World)
        (Hwf : wf_ports (ports w)) :
  let w' := snd (rx_dispatch frame w) in
  (forall i, first_match frame (ports w) i ->
     pingcount (rd zero_port (p (ports w')) i) = PINGS_BEFORE_DISCONNECT /\
     (forall j, 0 <= j -> j <> i ->
                rd zero_port (p (ports w')) j = rd zero_port (p (ports w)) j) /\
     VportFd (ports w') = VportFd (ports w) /\
     portptr (ports w') = portptr (ports w) /\
     exists evs,
       trace w' = trace w ++ evs /\
       forall c, In c evs ->
         c = sys_write (fd (rd zero_pollfd (VportFd (ports w)) i))
                       (firstn (Z.to_nat (can_dlc frame)) (data frame))) /\
  (no_match frame (ports w) ->
     ports w' = ports w /\
     trace w' = trace w ++
       [sys_write_frame (sock w)
          (mkFrame PKT_ID_UUID 2 (le_bytes 2 (u16 (can_id frame - 1))))
          sizeof_tCanFrame]).
Proof.
  intros w'; subst w'. destruct Hwf as (Hp & Hlp & Hlf). split.
  - intros i Hi.
    pose proof (first_match_scan _ _ _ Hi) as Hs.
    destruct Hi as (Hi & _ & _).
    unfold rx_dispatch, bind, gets; simpl. rewrite Hs.
    destruct (Z.ltb_spec i (portptr (ports w))); [|lia].
    destruct (Z.eqb_spec i (portptr (ports w))); [lia|].
    destruct ((0 <? can_dlc frame)
              && negb (active (rd zero_port (p (ports w)) i) =? 0));
      unfold when, bind, ret, modify_ports, modify, syscall; simpl;
      (split; [rewrite rd_upd_same by lia; reflexivity|]);
      (split; [intros j Hj Hne; apply rd_upd_other; auto|]);
      (split; [reflexivity|]); (split; [reflexivity|]).
    + eexists; split; [reflexivity|]. intros c [<-|[]]; reflexivity.
    + exists []; split; [symmetry; apply app_nil_r|]. intros c [].
  - intros Hn.
    pose proof (no_match_scan frame (ports w) (proj1 Hp) Hn) as Hs.
    unfold rx_dispatch, bind, gets; simpl. rewrite Hs.
    rewrite Z.ltb_irrefl, Z.eqb_refl.
    unfold when, CanSockSend, bind, ret, gets, syscall; simpl.
    destruct (to_size_t _ =? _); simpl; split; reflexivity.
Qed.

(** ** The ping driver *)

Lemma upd_nat_twice {A : Type} (l : list A) (n : nat) (x y : A) :
  upd_nat (upd_nat l n x) n y = upd_nat l n y.
Proof.
  revert n; induction l as [|h t IH]; intros [|n]; simpl; auto.
  rewrite IH; reflexivity.
Qed.

Lemma upd_twice {A : Type} (l : list A) (i : Z) (x y : A) :
  upd (upd l i x) i y = upd l i y.
Proof.
  unfold upd; destruct (i <? 0); auto using upd_nat_twice.
Qed.

Lemma copy_next_twice (j : Z) (t : tPorts) :
  0 <= j -> copy_next j (copy_next j t) = copy_next j t.
Proof.
  intros Hj. unfold copy_next, set_VportFd, set_p; simpl.
  rewrite !rd_upd_other by lia. rewrite !upd_twice. reflexivity.
Qed.

Lemma for_range_copy_next (j : Z) (n : nat) :
  forall i w, 0 <= j ->
    for_range i n (fun _ => modify_ports (copy_next j)) w =
    (Val tt, match n with
             | O => w
             | S _ => set_ports (copy_next j (ports w)) w
             end).
Proof.
  induction n as [|n IH]; intros i w Hj; simpl for_range.
  - reflexivity.
  - unfold bind, modify_ports, modify at 1. rewrite IH by assumption.
    destruct n; [reflexivity|].
    unfold set_ports; simpl. rewrite copy_next_twice by assumption.
    reflexivity.
Qed.

Lemma CanPing_reap_eq (w : World) :
  let j := pingptr w in
  let e := rd zero_port (p (ports w)) j in
  1 <= j < portptr (ports w) ->
  pingcount e = 0 ->
  CanPing w =
  (Val tt,
   mkWorld (set_portptr (portptr (ports w) - 1)
              (if j + 1 <? portptr (ports w)
               then copy_next j (ports w) else ports w))
           (sock w) j (Inotify w) (threadexit w)
           (trace w ++ [sys_inotify_rm_watch (Inotify w) (watch e);
                        sys_unlink (CanTtyName e)])
           (os w) (S (S (tick w)))).
Proof.
  intros j e Hj Hc. unfold CanPing.
  unfold bind at 1, gets at 1. cbv beta iota.
  destruct (Z.eqb_spec (pingptr w) 0); [lia|].
  destruct (Z.leb_spec (portptr (ports w)) (pingptr w)); [lia|].
  fold j. fold e. rewrite Hc. simpl (0 =? 0). cbv beta iota.
  unfold bind at 1. rewrite CanVportClose_run.
  unfold bind at 1. unfold for_loop.
  rewrite for_range_copy_next by lia.
  unfold modify_ports, modify.
  destruct (Z.ltb_spec (j + 1) (portptr (ports w))) as [Hlt|Hge].
  - replace (Z.to_nat (portptr (ports w) - 1 - j))
      with (S (Z.to_nat (portptr (ports w) - 2 - j))) by lia.
    reflexivity.
  - replace (Z.to_nat (portptr (ports w) - 1 - j)) with O by lia.
    reflexivity.
Qed.

(** What [CanPing] does on a slot whose [pingcount] is 0: it releases the
    watch and the symlink, copies the next slot (when there is one) over
    the cursor's, and drops the last slot of the table.  The cursor
    stays. *)
Lemma CanPing_reap_slot (w : World) :
  let j := pingptr w in
  let w' := snd (CanPing w) in
  1 <= j < portptr (ports w) ->
  pingcount (rd zero_port (p (ports w)) j) = 0 ->
  fst (CanPing w) = Val tt /\
  pingptr w' = j /\
  sock w' = sock w /\
  portptr (ports w') = portptr (ports w) - 1 /\
  portsize (ports w') = portsize (ports w) /\
  p (ports w') = (if j + 1 <? portptr (ports w)
                  then upd (p (ports w)) j (rd zero_port (p (ports w)) (j + 1))
                  else p (ports w)) /\
  VportFd (ports w') =
    (if j + 1 <? portptr (ports w)
     then upd (VportFd (ports w)) j (rd zero_pollfd (VportFd (ports w)) (j + 1))
     else VportFd (ports w)) /\
  trace w' = trace w ++
    [sys_inotify_rm_watch (Inotify w)
                          (watch (rd zero_port (p (ports w)) j));
     sys_unlink (CanTtyName (rd zero_port (p (ports w)) j))].
Proof.
  intros j w' Hj Hc. subst w'.
  rewrite (CanPing_reap_eq w Hj Hc). fold j.
  destruct (j + 1 <? portptr (ports w)); simpl; repeat split; reflexivity.
Qed.

Lemma CanPing_live_eq (w : World) :
  let j := pingptr w in
  let e := rd zero_port (p (ports w)) j in
  1 <= j < portptr (ports w) ->
  pingcount e <> 0 ->
  CanPing w =
  (Val tt,
   mkWorld (set_p (upd (p (ports w)) j (set_pingcount (pingcount e - 1) e))
                  (ports w))
           (sock w) (j + 1) (Inotify w) (threadexit w)
           (trace w ++ (if pingcount e - 1 <? 2
                        then [ping_frame (sock w) (canid e)] else []))
           (os w)
           (if pingcount e - 1 <? 2 then S (tick w) else tick w)).
Proof.
  intros j e Hj Hc. unfold CanPing.
  unfold bind at 1, gets at 1. cbv beta iota.
  destruct (Z.eqb_spec (pingptr w) 0); [lia|].
  destruct (Z.leb_spec (portptr (ports w)) (pingptr w)); [lia|].
  fold j. fold e.
  destruct (Z.eqb_spec (pingcount e) 0); [contradiction|].
  destruct (pingcount e - 1 <? 2);
    unfold when, CanSockSend, bind, ret, gets, syscall, modify_ports, modify,
      ping_frame; simpl.
  - destruct (to_size_t _ =? _); reflexivity.
  - rewrite app_nil_r. reflexivity.
Qed.

Lemma upd_nat_nth {A : Type} (d : A) (l : list A) (n : nat) :
  upd_nat l n (nth n l d) = l.
Proof.
  revert n; induction l as [|h t IH]; intros [|n]; simpl; auto.
  rewrite IH; reflexivity.
Qed.

Lemma upd_rd {A : Type} (d : A) (l : list A) (i : Z) :
  upd l i (rd d l i) = l.
Proof.
  unfold upd, rd; destruct (i <? 0); auto using upd_nat_nth.
Qed.

(** The table after [k] invocations of the driver on the live slot [j],
    while the slot's [pingcount] lasts: only that counter has changed. *)
Lemma CanPing_visits_inv (w : World) (j : Z) (k : nat) :
  let e := rd zero_port (p (ports w)) j in
  wf_ports (ports w) ->
  1 <= j < portptr (ports w) ->
  Z.of_nat k <= pingcount e ->
  let wk := CanPing_visits j k w in
  ports wk = set_p (upd (p (ports w)) j
                        (set_pingcount (pingcount e - Z.of_nat k) e))
                   (ports w) /\
  sock wk = sock w /\ Inotify wk = Inotify w.
Proof.
  intros e Hwf Hj. destruct Hwf as (Hp & Hlp & Hlf).
  induction k as [|k IH]; intros Hk wk; subst wk.
  - simpl. rewrite Z.sub_0_r.
    replace (set_pingcount (pingcount e) e) with e by (destruct e; reflexivity).
    unfold e. rewrite upd_rd. destruct (ports w); auto.
  - destruct IH as (IHp & IHs & IHi); [lia|].
    simpl CanPing_visits. unfold CanPing_at.
    set (wk := CanPing_visits j k w) in *.
    assert (He : rd zero_port (p (ports (set_pingptr j wk))) j
                 = set_pingcount (pingcount e - Z.of_nat k) e).
    { simpl. rewrite IHp. simpl. apply rd_upd_same; lia. }
    rewrite CanPing_live_eq; simpl pingptr; simpl ports.
    + replace (pingcount e - Z.of_nat (S k))
        with (pingcount e - Z.of_nat k - 1) by lia.
      simpl in He. rewrite He. simpl. rewrite IHp. simpl.
      rewrite upd_twice. repeat split; auto.
    + rewrite IHp; simpl; lia.
    + simpl in He. rewrite He. simpl. lia.
Qed.

(** C8.  On a live slot with a nonzero [pingcount] the driver decrements
    the counter, sends an empty frame on the slot's [canid] exactly when
    the decremented counter is below 2, and advances the cursor.  Over
    the invocations on one slot that receives nothing, a ping is sent
    exactly in those that start with a counter of 2 or 1, the last two
    before the counter is 0; the invocation after them reaps the slot
    and sends nothing. *)
Theorem CanPing_pings_near_timeout (w : World) (j : Z)
        (Hwf : wf_ports (ports w))
        (Hj : 1 <= j < portptr (ports w)) :
  let e := rd zero_port (p (ports w)) j in
  (pingptr w = j -> pingcount e <> 0 ->
   let w' := snd (CanPing w) in
   fst (CanPing w) = Val tt /\
   pingcount (rd zero_port (p (ports w')) j) = pingcount e - 1 /\
   pingptr w' = j + 1 /\
   (pingcount e - 1 < 2 ->
    trace w' = trace w ++ [ping_frame (sock w) (canid e)]) /\
   (2 <= pingcount e - 1 -> trace w' = trace w)) /\
  (forall k : nat, Z.of_nat k < pingcount e ->
   let wk := CanPing_visits j k w in
   let wk1 := CanPing_visits j (S k) w in
   pingcount (rd zero_port (p (ports wk)) j) = pingcount e - Z.of_nat k /\
   (pingcount e - Z.of_nat k <= 2 ->
    trace wk1 = trace wk ++ [ping_frame (sock w) (canid e)]) /\
   (2 < pingcount e - Z.of_nat k -> trace wk1 = trace wk)) /\
  (0 <= pingcount e ->
   let wz := CanPing_visits j (Z.to_nat (pingcount e)) w in
   pingcount (rd zero_port (p (ports wz)) j) = 0 /\
   portptr (ports wz) = portptr (ports w) /\
   portptr (ports (CanPing_at j wz)) = portptr (ports w) - 1 /\
   trace (CanPing_at j wz) =
     trace wz ++ [sys_inotify_rm_watch (Inotify w) (watch e);
                  sys_unlink (CanTtyName e)]).
Proof.
  intros e. pose proof Hwf as (Hp & Hlp & Hlf). split; [|split].
  - intros Hc Hn w'. subst w' j.
    rewrite (CanPing_live_eq w Hj Hn). fold e. simpl.
    rewrite rd_upd_same by lia. simpl.
    repeat split; auto.
    + intros H. destruct (Z.ltb_spec (pingcount e - 1) 2); [reflexivity|lia].
    + intros H. destruct (Z.ltb_spec (pingcount e - 1) 2); [lia|].
      apply app_nil_r.
  - intros k Hk wk wk1.
    destruct (CanPing_visits_inv w j k Hwf Hj) as (Ip & Is & Ii);
      [fold e; lia|]. fold e in Ip. fold wk in Ip, Is, Ii.
    assert (He : rd zero_port (p (ports wk)) j
                 = set_pingcount (pingcount e - Z.of_nat k) e).
    { rewrite Ip. simpl. apply rd_upd_same; lia. }
    split; [rewrite He; reflexivity|].
    subst wk1. simpl CanPing_visits. fold wk. unfold CanPing_at.
    rewrite CanPing_live_eq; simpl pingptr; simpl ports.
    + cbn [snd trace sock set_pingptr]. rewrite He, Is. simpl. split; intros H.
      * destruct (Z.ltb_spec (pingcount e - Z.of_nat k - 1) 2);
          [reflexivity|lia].
      * destruct (Z.ltb_spec (pingcount e - Z.of_nat k - 1) 2); [lia|].
        apply app_nil_r.
    + rewrite Ip; simpl; lia.
    + rewrite He; simpl; lia.
  - intros Hc wz.
    destruct (CanPing_visits_inv w j (Z.to_nat (pingcount e)) Hwf Hj)
      as (Ip & Is & Ii); [fold e; lia|]. fold e in Ip. fold wz in Ip, Is, Ii.
    rewrite Z2Nat.id, Z.sub_diag in Ip by assumption.
    assert (He : rd zero_port (p (ports wz)) j = set_pingcount 0 e).
    { rewrite Ip. simpl. apply rd_upd_same; lia. }
    split; [rewrite He; reflexivity|].
    split; [rewrite Ip; reflexivity|].
    unfold CanPing_at.
    rewrite CanPing_reap_eq; simpl pingptr; simpl ports.
    + cbn [snd trace sock Inotify ports set_pingptr]. rewrite He, Ii. simpl.
      split; [|reflexivity].
      rewrite Ip. simpl.
      destruct (j + 1 <? portptr (ports w)); reflexivity.
    + rewrite Ip; simpl; lia.
    + rewrite He; reflexivity.
Qed.

(** ** The virtual-port factory and [ConfigurePort] *)

Lemma CanSockSend_some_run (id len : Z) (b : list Z) (w : World) :
  len <= 8 ->
  CanSockSend id len (Some b) w =
  (Val (if to_size_t (rv (os w (tick w))) =? sizeof_tCanFrame then 0 else EIO),
   mkWorld (ports w) (sock w) (pingptr w) (Inotify w) (threadexit w)
           (trace w ++ [sys_write_frame (sock w)
                          (mkFrame id len (firstn (Z.to_nat len) b))
                          sizeof_tCanFrame])
           (os w) (S (tick w))).
Proof.
  intros H. unfold CanSockSend.
  destruct (Z.ltb_spec 8 len); [lia|].
  destruct (Z.eqb_spec len 0) as [->|Hn];
    unfold bind, ret, gets, syscall; simpl;
    destruct (to_size_t _ =? _); reflexivity.
Qed.

Lemma steady_CanSockSend (id len : Z) (d : option (list Z)) :
  steady (CanSockSend id len d).
Proof. unfold CanSockSend. repeat steady_step. Qed.

Lemma total_CanSockSend_some (id len : Z) (b : list Z) :
  total (CanSockSend id len (Some b)).
Proof. unfold CanSockSend. repeat total_step. Qed.

Lemma steady_CanVport_grow : steady CanVport_grow.
Proof. unfold CanVport_grow. repeat steady_step. Qed.

Lemma steady_CanVport_open (portid : Z) (uuid : list Z) :
  steady (CanVport_open portid uuid).
Proof. unfold CanVport_open. repeat steady_step. Qed.

Lemma total_CanVport_open (portid : Z) (uuid : list Z) :
  total (CanVport_open portid uuid).
Proof. unfold CanVport_open. repeat total_step. Qed.

Lemma steady_CanVport (portid : Z) (uuid : list Z) :
  steady (CanVport portid uuid).
Proof.
  unfold CanVport.
  repeat (steady_step || apply steady_CanVport_grow
          || apply steady_CanVport_open).
Qed.

Lemma steady_ConfigurePort (frame : tCanFrame) : steady (ConfigurePort frame).
Proof.
  unfold ConfigurePort.
  repeat (steady_step || apply steady_CanVport || apply steady_CanSockSend).
Qed.

Lemma steady_rx_dispatch (frame : tCanFrame) : steady (rx_dispatch frame).
Proof.
  unfold rx_dispatch. repeat (steady_step || apply steady_CanSockSend).
Qed.

Lemma total_rx_dispatch (frame : tCanFrame) : total (rx_dispatch frame).
Proof.
  unfold rx_dispatch. repeat (total_step || apply total_CanSockSend_some).
Qed.

Lemma steady_rx_event (ev : inotify_event) : steady (rx_event ev).
Proof.
  unfold rx_event. repeat (steady_step || apply steady_CanSockSend).
Qed.

Lemma total_rx_event (ev : inotify_event) : total (rx_event ev).
Proof.
  unfold rx_event. repeat (total_step || apply total_CanSockSend_some).
Qed.

(** [CanVport] on a port number that is in the table: the index of the
    first slot that holds it is returned and the world is as before (no
    call is made, nothing is written). *)
Lemma CanVport_known (portid : Z) (uuid : list Z) (w : World) :
  port_known portid (ports w) = true ->
  exists i,
    CanVport portid uuid w = (Val i, w) /\
    1 <= i < portptr (ports w) /\
    port (rd zero_port (p (ports w)) i) = portid /\
    forall j, 1 <= j < i -> port (rd zero_port (p (ports w)) j) <> portid.
Proof.
  unfold port_known. intros H.
  set (test := fun i => port (rd zero_port (p (ports w)) i) =? portid) in *.
  set (n := Z.to_nat (portptr (ports w) - 1)) in *.
  exists (scan test 1 n). apply Z.ltb_lt in H.
  pose proof (scan_range test n 1) as Hr.
  split; [|split; [lia|split]].
  - unfold CanVport, bind, gets; simpl. fold test n.
    destruct (Z.ltb_spec (scan test 1 n) (portptr (ports w))); [|lia].
    reflexivity.
  - apply Z.eqb_eq. apply (scan_hit test n 1). lia.
  - intros j Hj. apply Z.eqb_neq. apply (scan_before test n 1 j). lia.
Qed.

Lemma port_known_intro (portid : Z) (t : tPorts) (i : Z) :
  1 <= i < portptr t ->
  port (rd zero_port (p t) i) = portid ->
  port_known portid t = true.
Proof.
  intros Hi Hp. unfold port_known. apply Z.ltb_lt.
  set (test := fun i => port (rd zero_port (p t) i) =? portid).
  set (n := Z.to_nat (portptr t - 1)).
  pose proof (scan_range test n 1) as Hr.
  destruct (Z_lt_le_dec (scan test 1 n) (portptr t)) as [|Hge]; auto.
  assert (E : test i = false) by (apply (scan_before test n 1 i); lia).
  unfold test in E. apply Z.eqb_neq in E. contradiction.
Qed.

Lemma CanVport_unknown (portid : Z) (uuid : list Z) (w : World) :
  port_known portid (ports w) = false ->
  CanVport portid uuid w = (CanVport_grow ;;; CanVport_open portid uuid) w.
Proof.
  unfold port_known. intros Hk.
  unfold CanVport, bind at 1, gets at 1. cbv beta iota zeta. rewrite Hk.
  reflexivity.
Qed.

Lemma CanVport_grow_fails (w : World) :
  portptr (ports w) = portsize (ports w) ->
  realloc_fails w = true ->
  fst (CanVport_grow w) = Exit 1 /\
  trace (snd (CanVport_grow w)) =
    trace w ++ [sys_realloc (2 * portsize (ports w));
                sys_realloc (2 * portsize (ports w))].
Proof.
  unfold realloc_fails. intros Hp Hr.
  unfold CanVport_grow, bind, gets, when, modify_ports, modify, syscall, exit.
  cbv beta iota. rewrite Hp, Z.eqb_refl. cbn [ports set_ports tick os fst snd].
  rewrite Hr. cbn [fst snd trace]. rewrite <- app_assoc. split; reflexivity.
Qed.

Lemma CanVport_grow_returns (w : World) :
  (portptr (ports w) =? portsize (ports w)) && realloc_fails w = false ->
  fst (CanVport_grow w) = Val tt.
Proof.
  unfold realloc_fails. intros H.
  unfold CanVport_grow, bind, gets, when, modify_ports, modify, syscall, exit, ret.
  cbv beta iota.
  destruct (portptr (ports w) =? portsize (ports w)); [|reflexivity].
  cbn [andb] in H. cbn [ports set_ports tick os fst snd].
  rewrite H. reflexivity.
Qed.

(** [CanVport] returns unless it has to enlarge the table and [realloc]
    fails, in which case the process exits with status 1 after the two
    [realloc] calls. *)
Lemma CanVport_outcome (portid : Z) (uuid : list Z) (w : World) :
  (growth_fails portid w = false ->
   exists r, fst (CanVport portid uuid w) = Val r) /\
  (growth_fails portid w = true ->
   fst (CanVport portid uuid w) = Exit 1 /\
   trace (snd (CanVport portid uuid w)) =
     trace w ++ [sys_realloc (2 * portsize (ports w));
                 sys_realloc (2 * portsize (ports w))]).
Proof.
  unfold growth_fails.
  destruct (port_known portid (ports w)) eqn:Hk; cbn [negb andb].
  { split; [|discriminate]. intros _.
    destruct (CanVport_known portid uuid w Hk) as (i & E & _).
    rewrite E. exists i; reflexivity. }
  rewrite (CanVport_unknown portid uuid w Hk). unfold bind. split.
  - intros H. pose proof (CanVport_grow_returns w H) as Hg.
    destruct (CanVport_grow w) as [r w1]; simpl in Hg; subst r.
    apply total_CanVport_open.
  - intros H. apply andb_true_iff in H. destruct H as (Hp & Hr).
    apply Z.eqb_eq in Hp.
    destruct (CanVport_grow_fails w Hp Hr) as (Hf & Ht).
    destruct (CanVport_grow w) as [r w1]; simpl in Hf, Ht; subst r.
    split; [reflexivity|exact Ht].
Qed.

Lemma results_ConfigurePort (frame : tCanFrame) :
  results (ConfigurePort frame) (fun r => r = 0).
Proof.
  unfold ConfigurePort.
  eapply results_bind; [apply results_any|intros _ _].
  eapply results_bind; [apply results_any|intros _ _].
  apply results_ret. reflexivity.
Qed.

Ltac results_step :=
  match goal with
  | |- results (bind _ _) _ => eapply results_bind; [apply results_any|intros ? _]
  | |- results (ret _) _ => apply results_ret
  | |- results (if ?b then _ else _) _ => destruct b
  end.

Lemma results_rx_frame (frame : tCanFrame) :
  results (rx_frame frame) (fun go => go = true).
Proof.
  unfold rx_frame. destruct (can_id frame =? PKT_ID_UUID_RESP).
  - eapply results_bind; [apply results_ConfigurePort|].
    intros r ->. apply results_ret. reflexivity.
  - repeat results_step. reflexivity.
Qed.

Lemma results_CanRxThread_body :
  results CanRxThread_body (fun go => go = true).
Proof.
  unfold CanRxThread_body.
  eapply results_bind; [apply results_any|intros r _].
  eapply results_bind with (P := fun go => go = true).
  - destruct (0 <? r); [|apply results_ret; reflexivity].
    unfold rx_ready. results_step. results_step.
    + unfold rx_can. results_step. results_step. results_step.
      * apply results_rx_frame.
      * apply results_ret; reflexivity.
    + repeat results_step. reflexivity.
  - intros go ->. repeat results_step. reflexivity.
Qed.

(** C9, as the code has it.  Unless [CanVport] has to enlarge a full
    table and [realloc] fails (the process then exits with status 1 and
    no frame is sent), [ConfigurePort] returns 0 and its last call writes
    the SET frame, whatever [CanVport] returned, -1 included.  It never
    returns another value, so a turn of the receive loop never ends by
    [break]. *)
Theorem ConfigurePort_returns_0 (frame : tCanFrame) (w : World) :
  let portid := PnGetNumber (data frame) in
  let uuid := firstn (Z.to_nat CAN_UUID_SIZE) (data frame) in
  (growth_fails portid w = false ->
   exists r w1 w2,
     CanVport portid uuid w = (Val r, w1) /\
     ConfigurePort frame w = (Val 0, w2) /\
     trace w2 = trace w1 ++
       [sys_write_frame (sock w) (set_frame frame) sizeof_tCanFrame]) /\
  (growth_fails portid w = true ->
   fst (ConfigurePort frame w) = Exit 1 /\
   trace (snd (ConfigurePort frame w)) =
     trace w ++ [sys_realloc (2 * portsize (ports w));
                 sys_realloc (2 * portsize (ports w))]) /\
  (forall r w', ConfigurePort frame w = (Val r, w') -> r = 0) /\
  fst (CanRxThread_body w) <> Val false.
Proof.
  intros portid uuid.
  destruct (CanVport_outcome portid uuid w) as (Hret & Hexit).
  pose proof (steady_CanVport portid uuid w) as (Hs & _).
  split; [|split; [|split]].
  - intros Hg. destruct (Hret Hg) as (r & Hr).
    unfold ConfigurePort. fold portid uuid. unfold bind at 1.
    destruct (CanVport portid uuid w) as [res w1]. simpl in Hr, Hs. subst res.
    exists r, w1. unfold bind.
    rewrite CanSockSend_some_run by (vm_compute; discriminate).
    eexists. split; [reflexivity|]. split; [reflexivity|].
    simpl. rewrite Hs. reflexivity.
  - intros Hg. destruct (Hexit Hg) as (Hf & Ht).
    destruct (CanVport portid uuid w) as [res w1] eqn:Ev.
    cbn [fst snd] in Hf, Ht. subst res.
    assert (Ec : ConfigurePort frame w = (Exit 1, w1)).
    { unfold ConfigurePort. fold portid uuid. unfold bind at 1.
      rewrite Ev. reflexivity. }
    rewrite Ec. split; [reflexivity|exact Ht].
  - intros r w' E. exact (results_ConfigurePort frame w r w' E).
  - intros E. destruct (CanRxThread_body w) as [res w'] eqn:Eb.
    simpl in E. subst res.
    discriminate (results_CanRxThread_body w false w' Eb).
Qed.

(** ** One turn of the receive loop *)

Lemma sources_app (a b : list Call) : sources (a ++ b) = sources a ++ sources b.
Proof. apply flat_map_app. Qed.

Lemma do_poll_run (w : World) :
  let r := os w (tick w) in
  do_poll w =
  (Val (rv r),
   mkWorld (if 0 <=? rv r
            then set_VportFd (set_all_revents (r_revents r) (VportFd (ports w))
                                              (portptr (ports w))) (ports w)
            else ports w)
           (sock w) (pingptr w) (Inotify w) (threadexit w)
           (trace w ++ [sys_poll (portptr (ports w)) 1000])
           (os w) (S (tick w))).
Proof.
  unfold do_poll, bind, gets, syscall, when, modify_ports, modify, ret; simpl.
  destruct (0 <=? rv (os w (tick w))); reflexivity.
Qed.

(** A readable virtual port is read once; the table of descriptors is
    not touched. *)
Lemma rx_pty_sources (i : Z) (w : World) :
  let f := rd zero_pollfd (VportFd (ports w)) i in
  let w' := snd (rx_pty i w) in
  fst (rx_pty i w) = Val tt /\
  VportFd (ports w') = VportFd (ports w) /\
  portptr (ports w') = portptr (ports w) /\
  Inotify w' = Inotify w /\
  exists evs, trace w' = trace w ++ evs /\
    sources evs = if revents f =? 0 then [] else [SrcPty (fd f)].
Proof.
  intros f w'. subst w' f.
  unfold rx_pty, CanSockSend, when, bind, ret, gets, syscall, modify_ports,
    modify.
  cbv beta iota.
  destruct (revents (rd zero_pollfd (VportFd (ports w)) i) =? 0); cbn [negb].
  - repeat split. exists []. split; [symmetry; apply app_nil_r|reflexivity].
  - cbn [ports set_ports set_p VportFd portptr Inotify trace os tick sock
         fst snd].
    repeat match goal with
           | |- context [if ?b then _ else _] => destruct b
           end;
      cbn [ports set_ports set_p VportFd portptr Inotify trace fst snd];
      (repeat (split; [reflexivity|]));
      try rewrite <- app_assoc;
      (eexists; split; [reflexivity|reflexivity]).
Qed.

Lemma rx_ptys_sources_from (n : nat) :
  forall i w,
    let w' := snd (for_range i n rx_pty w) in
    fst (for_range i n rx_pty w) = Val tt /\
    VportFd (ports w') = VportFd (ports w) /\
    portptr (ports w') = portptr (ports w) /\
    Inotify w' = Inotify w /\
    exists evs, trace w' = trace w ++ evs /\
      sources evs = map SrcPty (readable_from (VportFd (ports w)) i n).
Proof.
  induction n as [|n IH]; intros i w; simpl for_range.
  - simpl. repeat split. exists []. split; [symmetry; apply app_nil_r|reflexivity].
  - unfold bind.
    destruct (rx_pty_sources i w) as (Hf & Hv & Hp & Hi & e1 & Ht & Hs).
    destruct (rx_pty i w) as [r w1]. cbn [fst snd] in *. subst r.
    destruct (IH (i + 1) w1) as (Hf2 & Hv2 & Hp2 & Hi2 & e2 & Ht2 & Hs2).
    split; [exact Hf2|]. split; [congruence|]. split; [congruence|].
    split; [congruence|].
    exists (e1 ++ e2). split.
    + rewrite Ht2, Ht, app_assoc. reflexivity.
    + rewrite sources_app, Hs, Hs2, Hv. simpl readable_from.
      rewrite map_app. f_equal.
      destruct (revents _ =? 0); reflexivity.
Qed.

Lemma rx_ptys_sources (w : World) :
  let w' := snd (rx_ptys w) in
  fst (rx_ptys w) = Val tt /\
  Inotify w' = Inotify w /\
  exists evs, trace w' = trace w ++ evs /\
    sources evs = map SrcPty (readable (ports w)).
Proof.
  unfold rx_ptys, bind, gets, for_loop, readable. cbv beta iota zeta.
  destruct (rx_ptys_sources_from (Z.to_nat (portptr (ports w) - 1)) 1 w)
    as (Hf & _ & _ & Hi & Hev).
  auto.
Qed.

Lemma steady_rx_frame (frame : tCanFrame) : steady (rx_frame frame).
Proof.
  unfold rx_frame.
  repeat (steady_step || apply steady_ConfigurePort
          || apply steady_rx_dispatch).
Qed.

(** The CAN socket is read once, and nothing else is read. *)
Lemma rx_can_sources (w : World) :
  let w' := snd (rx_can w) in
  Inotify w' = Inotify w /\
  exists evs, trace w' = trace w ++ evs /\ sources evs = [SrcCan].
Proof.
  unfold rx_can, bind, gets, syscall. cbv beta iota zeta.
  set (w1 := mkWorld _ _ _ _ _ _ _ _).
  set (k := if 0 <=? rv (os w (tick w)) then _ else _).
  assert (Hk : steady k) by (subst k; repeat (steady_step || apply steady_rx_frame)).
  destruct (Hk w1) as (_ & Hi & evs & Ht & Hs).
  destruct (k w1) as [r w2]. cbn [snd] in *.
  split; [exact Hi|].
  exists (sys_read_frame (fd (rd zero_pollfd (VportFd (ports w)) 0)) :: evs).
  split.
  - rewrite Ht. subst w1. simpl. rewrite <- app_assoc. reflexivity.
  - unfold sources in *. simpl. rewrite Hs. reflexivity.
Qed.

(** The inotify descriptor is read once, and the turn goes on. *)
Lemma rx_inotify_sources (w : World) :
  fst (rx_inotify w) = Val tt /\
  exists evs, trace (snd (rx_inotify w)) = trace w ++ evs /\
              sources evs = [SrcInotify].
Proof.
  unfold rx_inotify, bind, gets, syscall. cbv beta iota zeta.
  set (w1 := mkWorld _ _ _ _ _ _ _ _).
  set (k := when _ _).
  assert (Hk : steady k) by (subst k; repeat (steady_step || apply steady_rx_event)).
  assert (Hr : total k) by (subst k; repeat (total_step || apply total_rx_event)).
  destruct (Hk w1) as (_ & Hi & evs & Ht & Hs).
  destruct (Hr w1) as ([] & Ha).
  destruct (k w1) as [r w2]. cbn [fst snd] in *. subst r.
  split; [reflexivity|].
  exists (sys_read_events (Inotify w) :: evs).
  split.
  - rewrite Ht. subst w1. simpl. rewrite <- app_assoc. reflexivity.
  - unfold sources in *. simpl. rewrite Hs. reflexivity.
Qed.

Lemma results_rx_can : results rx_can (fun go => go = true).
Proof.
  unfold rx_can. results_step. results_step. results_step.
  - apply results_rx_frame.
  - apply results_ret; reflexivity.
Qed.

(** Lines 201-245: the CAN socket when it has events, and the virtual
    ports only when it has none. *)
Lemma rx_ready_sources (w : World) :
  let w' := snd (rx_ready w) in
  Inotify w' = Inotify w /\
  (forall go, fst (rx_ready w) = Val go -> go = true) /\
  exists evs, trace w' = trace w ++ evs /\
    sources evs =
      if revents (rd zero_pollfd (VportFd (ports w)) 0) =? 0
      then map SrcPty (readable (ports w))
      else [SrcCan].
Proof.
  assert (E : rx_ready w =
              if revents (rd zero_pollfd (VportFd (ports w)) 0) =? 0
              then (rx_ptys ;;; ret true) w else rx_can w).
  { unfold rx_ready, bind at 1, gets. cbv beta iota.
    destruct (revents _ =? 0); reflexivity. }
  intros w'. subst w'. rewrite E. clear E.
  destruct (revents (rd zero_pollfd (VportFd (ports w)) 0) =? 0).
  - destruct (rx_ptys_sources w) as (Hf & Hi & Hev).
    unfold bind, ret. destruct (rx_ptys w) as [r w1]. cbn [fst snd] in *.
    subst r. cbn [fst snd]. split; [exact Hi|]. split; [|exact Hev].
    intros go E; inversion E; reflexivity.
  - destruct (rx_can_sources w) as (Hi & Hev).
    split; [exact Hi|]. split; [|exact Hev].
    intros go E. destruct (rx_can w) as [r w1] eqn:Ec. cbn [fst] in E. subst r.
    exact (results_rx_can w go w1 Ec).
Qed.

(** C6, as the code has it.  In a turn of the receive loop in which
    [poll] reports events, the CAN socket is read, and no virtual port,
    when slot 0 has events; otherwise each virtual port that has events
    is read, in slot order.  The inotify descriptor is read last, in
    every turn that is not cut short by the exit of the process. *)
Theorem CanRxThread_body_order (w : World) :
  let r := os w (tick w) in
  let w1 := snd (do_poll w) in
  exists evs,
    trace (snd (CanRxThread_body w)) = trace w ++ evs /\
    sources evs =
      (if 0 <? rv r then
         if revents (rd zero_pollfd (VportFd (ports w1)) 0) =? 0
         then map SrcPty (readable (ports w1))
         else [SrcCan]
       else [])
      ++ match fst (CanRxThread_body w) with
         | Val _ => [SrcInotify]
         | _ => []
         end.
Proof.
  intros r w1.
  assert (Hp : do_poll w = (Val (rv r), w1) /\ Inotify w1 = Inotify w /\
               trace w1 = trace w ++ [sys_poll (portptr (ports w)) 1000]).
  { subst w1. rewrite do_poll_run. repeat split. }
  destruct Hp as (Hp & Hi1 & Ht1). clearbody w1.
  assert (Hmid : exists res w2 evs,
            (if 0 <? rv r then rx_ready else ret true) w1 = (res, w2) /\
            (forall go, res = Val go -> go = true) /\
            trace w2 = trace w1 ++ evs /\
            sources evs =
              (if 0 <? rv r then
                 if revents (rd zero_pollfd (VportFd (ports w1)) 0) =? 0
                 then map SrcPty (readable (ports w1))
                 else [SrcCan]
               else [])).
  { destruct (0 <? rv r).
    - destruct (rx_ready_sources w1) as (_ & Hg & evs & Ht & Hs).
      destruct (rx_ready w1) as [res w2]. cbn [fst snd] in *.
      exists res, w2, evs. auto.
    - exists (Val true), w1, []. repeat split.
      + intros go E; inversion E; reflexivity.
      + symmetry; apply app_nil_r. }
  destruct Hmid as (res & w2 & e2 & Hm & Hgo & Ht2 & Hs2).
  assert (Eb : CanRxThread_body w =
               match res with
               | Val go => (if go then rx_inotify ;;; ret true
                            else ret false) w2
               | Exit c => (Exit c, w2)
               | Fault => (Fault, w2)
               end).
  { unfold CanRxThread_body. unfold bind at 1. rewrite Hp. cbv beta iota.
    unfold bind at 1. rewrite Hm. destruct res; reflexivity. }
  rewrite Eb. clear Eb.
  destruct res as [go|c|].
  - rewrite (Hgo go eq_refl).
    destruct (rx_inotify_sources w2) as (Hf & e3 & Ht3 & Hs3).
    unfold bind, ret. destruct (rx_inotify w2) as [r3 w3].
    cbn [fst snd] in *. subst r3. cbn [fst snd].
    exists ([sys_poll (portptr (ports w)) 1000] ++ e2 ++ e3). split.
    + rewrite Ht3, Ht2, Ht1, <- !app_assoc. reflexivity.
    + rewrite !sources_app, Hs2, Hs3. reflexivity.
  - cbn [fst snd]. exists ([sys_poll (portptr (ports w)) 1000] ++ e2). split.
    + rewrite Ht2, Ht1, <- !app_assoc. reflexivity.
    + rewrite !sources_app, Hs2. simpl. rewrite app_nil_r. reflexivity.
  - cbn [fst snd]. exists ([sys_poll (portptr (ports w)) 1000] ++ e2). split.
    + rewrite Ht2, Ht1, <- !app_assoc. reflexivity.
    + rewrite !sources_app, Hs2. simpl. rewrite app_nil_r. reflexivity.
Qed.

(** ** What the factory keeps of the table *)

Lemma rd_grow {A : Type} (d : A) (n : Z) (l : list A) (j : Z) :
  rd d (grow d n l) j = rd d l j.
Proof.
  unfold rd, grow.
  destruct (Nat.lt_ge_cases (Z.to_nat j) (List.length l)) as [H|H].
  - apply app_nth1; assumption.
  - rewrite app_nth2 by assumption.
    rewrite (nth_overflow l) by assumption.
    apply nth_repeat.
Qed.

Lemma grow_length {A : Type} (d : A) (n : Z) (l : list A) :
  Z.of_nat (List.length l) <= n ->
  Z.of_nat (List.length (grow d n l)) = n.
Proof.
  intros H. unfold grow. rewrite length_app, repeat_length. lia.
Qed.

Lemma port_unknown_all (portid : Z) (t : tPorts) :
  port_known portid t = false ->
  forall i, 1 <= i < portptr t -> port (rd zero_port (p t) i) <> portid.
Proof.
  intros Hk i Hi E.
  rewrite (port_known_intro portid t i Hi E) in Hk. discriminate.
Qed.

(** [CanVport_grow] leaves the live slots and [portptr] alone, and makes
    room for one more slot when it returns. *)
Lemma CanVport_grow_keeps (w : World) :
  let w' := snd (CanVport_grow w) in
  wf_ports (ports w) ->
  portptr (ports w') = portptr (ports w) /\
  (forall j, rd zero_port (p (ports w')) j = rd zero_port (p (ports w)) j) /\
  (fst (CanVport_grow w) = Val tt ->
   wf_ports (ports w') /\ portptr (ports w') < portsize (ports w')).
Proof.
  intros w' (Hp & Hlp & Hlf). subst w'.
  unfold CanVport_grow, bind, gets, when, modify_ports, modify, syscall, exit,
    ret.
  cbv beta iota.
  destruct (Z.eqb_spec (portptr (ports w)) (portsize (ports w))) as [E|E].
  - cbn [ports set_ports tick os fst snd].
    destruct ((rv (os w (tick w)) =? 0) || (rv (os w (S (tick w))) =? 0));
      cbn [ports set_ports set_p set_VportFd set_portsize p VportFd portptr
           portsize fst snd].
    + split; [reflexivity|]. split; [reflexivity|]. discriminate.
    + split; [reflexivity|]. split; [intros j; apply rd_grow|].
      intros _. unfold wf_ports.
      cbn [ports set_ports set_p set_VportFd set_portsize p VportFd portptr
           portsize].
      rewrite !grow_length by lia. lia.
  - cbn [fst snd]. split; [reflexivity|]. split; [reflexivity|].
    intros _. unfold wf_ports. lia.
Qed.

Lemma bind_ret {A B : Type} (a : A) (k : A -> M B) (w : World) :
  bind (ret a) k w = k a w.
Proof. reflexivity. Qed.

Lemma bind_gets {A B : Type} (f : World -> A) (k : A -> M B) (w : World) :
  bind (gets f) k w = k (f w) w.
Proof. reflexivity. Qed.

Lemma bind_modify_ports {B : Type} (f : tPorts -> tPorts) (k : unit -> M B)
      (w : World) :
  bind (modify_ports f) k w = k tt (set_ports (f (ports w)) w).
Proof. reflexivity. Qed.

Lemma bind_syscall {B : Type} (c : Call) (k : Reply -> M B) (w : World) :
  bind (syscall c) k w =
  k (os w (tick w))
    (mkWorld (ports w) (sock w) (pingptr w) (Inotify w) (threadexit w)
             (trace w ++ [c]) (os w) (S (tick w))).
Proof. reflexivity. Qed.

(** One step of the symbolic execution of a computation. *)
Ltac run_step :=
  first [ rewrite bind_gets | rewrite bind_modify_ports
        | rewrite bind_syscall | rewrite bind_ret ];
  cbv beta;
  cbn [ports sock pingptr Inotify threadexit os tick set_ports].

(** [CanVport_open] leaves the live slots and the size of the vectors
    alone; it either keeps [portptr] (when a call fails) or makes the
    slot at [portptr] live, with the port number it was called with and
    a full [pingcount]. *)
Lemma CanVport_open_keeps (portid : Z) (uuid : list Z) (w : World) :
  let t := ports w in
  let t' := ports (snd (CanVport_open portid uuid w)) in
  wf_ports t ->
  portptr t < portsize t ->
  portsize t' = portsize t /\
  List.length (p t') = List.length (p t) /\
  List.length (VportFd t') = List.length (VportFd t) /\
  (forall j, 0 <= j < portptr t ->
             rd zero_port (p t') j = rd zero_port (p t) j) /\
  (portptr t' = portptr t \/
   portptr t' = portptr t + 1 /\
   port (rd zero_port (p t') (portptr t)) = u16 portid /\
   pingcount (rd zero_port (p t') (portptr t)) = PINGS_BEFORE_DISCONNECT).
Proof.
  intros t t' (Hp & Hlp & Hlf) Hroom. subst t'.
  pattern (snd (CanVport_open portid uuid w)).
  set (Q := fun w' : World => _).
  assert (Hfail : forall w1,
             ports w1 =
               set_VportFd
                 (upd (VportFd t) (portptr t)
                      (set_revents 0 (rd zero_pollfd (VportFd t) (portptr t))))
                 (set_p (upd (p t) (portptr t)
                           (mkPortId (u16 portid)
                              (u32 (2 * portid + PKT_ID_CTL_FILTER))
                              (firstn (Z.to_nat CAN_UUID_SIZE) uuid)
                              PINGS_BEFORE_DISCONNECT 0
                              (watch (rd zero_port (p t) (portptr t))))) t) ->
             Q w1).
  { intros w1 E. subst Q. cbv beta. rewrite E.
    cbn [set_VportFd set_p p VportFd portptr portsize].
    rewrite !upd_length.
    repeat (split; [reflexivity|]).
    split; [|left; reflexivity].
    intros j Hj. apply rd_upd_other; lia. }
  unfold CanVport_open. run_step. cbv zeta. fold t. run_step. run_step.
  destruct (negb _); [apply Hfail; reflexivity|].
  run_step.
  destruct (_ <? 0); [apply Hfail; reflexivity|].
  do 6 run_step.
  destruct (negb _); [apply Hfail; reflexivity|].
  run_step.
  destruct (negb _); [apply Hfail; reflexivity|].
  do 5 run_step.
  unfold ret. cbn [snd]. subst Q. cbv beta.
  cbn [ports set_ports set_VportFd set_p set_portptr p VportFd portptr
       portsize].
  subst t. rewrite !upd_length.
  repeat (split; [reflexivity|]).
  split.
  - intros j Hj. rewrite !rd_upd_other by lia. reflexivity.
  - right. split; [reflexivity|].
    rewrite !rd_upd_same by (rewrite ?upd_length; lia).
    split; reflexivity.
Qed.

(** [CanVport] never adds a second entry for a port number: it keeps
    the port numbers of the table pairwise distinct. *)
Lemma CanVport_keeps_unique (portid : Z) (uuid : list Z) (w : World) :
  wf_ports (ports w) ->
  0 <= portid < 2 ^ 16 ->
  unique_ports (ports w) ->
  unique_ports (ports (snd (CanVport portid uuid w))).
Proof.
  intros Hwf Hid Hu.
  destruct (port_known portid (ports w)) eqn:Hk.
  { destruct (CanVport_known portid uuid w Hk) as (i & E & _).
    rewrite E. exact Hu. }
  rewrite (CanVport_unknown portid uuid w Hk). unfold bind.
  destruct (CanVport_grow_keeps w Hwf) as (Hp1 & Hr1 & Hwf1).
  destruct (CanVport_grow w) as [[[]|c|] w1]; cbn [fst snd] in *;
    try (intros i j Hi Hj; rewrite !Hr1; apply Hu; lia).
  destruct (Hwf1 eq_refl) as (Hw1 & Hroom).
  destruct (CanVport_open_keeps portid uuid w1 Hw1 Hroom)
    as (_ & _ & _ & Hr2 & Hp2).
  set (w2 := snd (CanVport_open portid uuid w1)) in *.
  intros i j Hi Hj.
  destruct Hp2 as [Hp2|(Hp2 & Hnew & _)].
  - rewrite !Hr2, !Hr1 by lia. apply Hu; lia.
  - destruct (Z.eq_dec j (portptr (ports w1))) as [->|Hne].
    + rewrite Hnew, Hr2, Hr1 by lia.
      unfold u16. rewrite Z.mod_small by lia.
      apply (port_unknown_all portid (ports w) Hk). lia.
    + rewrite !Hr2, !Hr1 by lia. apply Hu; lia.
Qed.

(** ** Where the reaping of [CanPing] does delete the slot *)

Lemma firstn_upd_nat_last {A : Type} (l : list A) (n : nat) (x : A) :
  (n < List.length l)%nat ->
  firstn (S n) (upd_nat l n x) = firstn n l ++ [x].
Proof.
  revert n; induction l as [|h t IH]; intros [|n] H; simpl in *; try lia.
  - reflexivity.
  - f_equal. apply IH. lia.
Qed.

Lemma skipn_firstn_last {A : Type} (d : A) (l : list A) (n : nat) :
  (S n < List.length l)%nat ->
  skipn (S n) (firstn (S (S n)) l) = [nth (S n) l d].
Proof.
  revert n; induction l as [|h t IH]; intros n H; simpl in *; try lia.
  destruct n as [|n].
  - destruct t as [|h2 t2]; simpl in *; [lia|reflexivity].
  - apply (IH n). lia.
Qed.

(** When at most one slot follows the cursor, the live table after the
    reaping is the live table before it with the cursor's slot deleted. *)
Lemma CanPing_reap_deletes_near_end (w : World) :
  let j := pingptr w in
  wf_ports (ports w) ->
  1 <= j < portptr (ports w) ->
  portptr (ports w) <= j + 2 ->
  pingcount (rd zero_port (p (ports w)) j) = 0 ->
  live (ports (snd (CanPing w))) = delete_slot j (live (ports w)).
Proof.
  intros j (Hp & Hlp & Hlf) Hj Hnear Hc.
  destruct (CanPing_reap_slot w Hj Hc) as (_ & _ & _ & Hn & _ & Hq & _).
  fold j in Hn, Hq. unfold live, delete_slot. rewrite Hn, Hq.
  destruct (Z.ltb_spec (j + 1) (portptr (ports w))) as [H|H].
  - assert (E : portptr (ports w) = j + 2) by lia. rewrite E.
    replace (Z.to_nat (j + 2 - 1)) with (S (Z.to_nat j)) by lia.
    replace (Z.to_nat (j + 2)) with (S (S (Z.to_nat j))) by lia.
    replace (Z.to_nat (j + 1)) with (S (Z.to_nat j)) by lia.
    unfold upd, rd. destruct (Z.ltb_spec j 0); [lia|].
    rewrite firstn_upd_nat_last by lia.
    rewrite (skipn_firstn_last zero_port) by lia.
    rewrite firstn_firstn. replace (Init.Nat.min (Z.to_nat j) (S (S (Z.to_nat j))))
      with (Z.to_nat j) by lia.
    replace (Z.to_nat (j + 1)) with (S (Z.to_nat j)) by lia.
    reflexivity.
  - assert (E : portptr (ports w) = j + 1) by lia. rewrite E.
    replace (j + 1 - 1) with j by lia.
    rewrite firstn_firstn.
    replace (Init.Nat.min (Z.to_nat j) (Z.to_nat (j + 1))) with (Z.to_nat j) by lia.
    rewrite skipn_all2 by (rewrite length_firstn; lia).
    rewrite app_nil_r. reflexivity.
Qed.

(** ** The invariant holds in every reachable state *)

Section Invariant.

Hypothesis pings_nonneg : 0 <= PINGS_BEFORE_DISCONNECT.

Lemma table_ok_upd (t : tPorts) (i : Z) (x : tPortId) :
  table_ok t ->
  0 <= pingcount x <= PINGS_BEFORE_DISCONNECT ->
  table_ok (set_p (upd (p t) i x) t).
Proof.
  intros ((Hp & Hlp & Hlf) & Hc) Hx. split.
  - unfold wf_ports; simpl. rewrite upd_length. auto.
  - simpl. intros k Hk.
    destruct (rd_upd_cases zero_port (p t) i k x) as [E|E]; [lia| |];
      rewrite E; auto.
Qed.

Lemma table_ok_upd_keep (t : tPorts) (i : Z) (x : tPortId) :
  table_ok t ->
  pingcount x = pingcount (rd zero_port (p t) i) ->
  table_ok (set_p (upd (p t) i x) t).
Proof.
  intros ((Hp & Hlp & Hlf) & Hc) Hx. split.
  - unfold wf_ports; simpl. rewrite upd_length. auto.
  - simpl. intros k Hk.
    destruct (Z.eq_dec i k) as [->|Hne].
    + destruct (rd_upd_cases zero_port (p t) k k x) as [E|E]; [lia| |];
        rewrite E; [rewrite Hx|]; auto.
    + rewrite rd_upd_other by lia. auto.
Qed.

Lemma table_ok_fds (t : tPorts) (l : list pollfd) :
  table_ok t ->
  List.length l = List.length (VportFd t) ->
  table_ok (set_VportFd l t).
Proof.
  intros ((Hp & Hlp & Hlf) & Hc) Hl. split.
  - unfold wf_ports; simpl. rewrite Hl. auto.
  - exact Hc.
Qed.

Lemma ok_syscall (c : Call) : keeps world_ok (syscall c).
Proof. intros w H b w' E; inversion E; subst; exact H. Qed.

Lemma ok_modify_ports (f : tPorts -> tPorts) :
  (forall t, table_ok t -> table_ok (f t)) -> keeps world_ok (modify_ports f).
Proof. intros H w Hw b w' E; inversion E; subst. apply H. exact Hw. Qed.

Lemma ok_set_pingptr (z : Z) : keeps world_ok (modify (set_pingptr z)).
Proof. intros w H b w' E; inversion E; subst; exact H. Qed.

Lemma cur_syscall (c : Call) : keeps cursor_ok (syscall c).
Proof. intros w H b w' E; inversion E; subst; exact H. Qed.

Lemma cur_modify_ports (f : tPorts -> tPorts) : keeps cursor_ok (modify_ports f).
Proof. intros w H b w' E; inversion E; subst; exact H. Qed.

Lemma cur_set_pingptr (z : Z) :
  0 <= z -> keeps cursor_ok (modify (set_pingptr z)).
Proof. intros Hz w H b w' E; inversion E; subst; exact Hz. Qed.

Ltac keeps_step :=
  match goal with
  | |- keeps _ (bind _ _) => apply keeps_bind; [|intro]
  | |- keeps _ (ret _) => apply keeps_ret
  | |- keeps _ (gets _) => apply keeps_gets
  | |- keeps _ (exit _) => apply keeps_exit
  | |- keeps _ fault => apply keeps_fault
  | |- keeps world_ok (syscall _) => apply ok_syscall
  | |- keeps cursor_ok (syscall _) => apply cur_syscall
  | |- keeps world_ok (modify (set_pingptr _)) => apply ok_set_pingptr
  | |- keeps _ (when _ _) => apply keeps_when
  | |- keeps _ (for_each _ _) => apply keeps_for_each; intro
  | |- keeps _ (for_loop _ _ _) => apply keeps_for_range; intro
  | |- keeps _ (if ?b then _ else _) => destruct b
  | |- keeps _ (match ?x with _ => _ end) => destruct x
  | |- keeps world_ok (modify_ports _) => apply ok_modify_ports; intros ? ?
  | |- keeps cursor_ok (modify_ports _) => apply cur_modify_ports
  | |- keeps _ _ => assumption
  end.

Lemma ok_CanSockSend (id len : Z) (d : option (list Z)) :
  keeps world_ok (CanSockSend id len d).
Proof. unfold CanSockSend. repeat keeps_step. Qed.

Lemma ok_CanVportClose (e : tPortId) : keeps world_ok (CanVportClose e).
Proof. unfold CanVportClose. repeat keeps_step. Qed.

Lemma ok_CanVport (portid : Z) (uuid : list Z) :
  keeps world_ok (CanVport portid uuid).
Proof.
  intros w Hw r w' E. destruct (port_known portid (ports w)) eqn:Hk.
  { destruct (CanVport_known portid uuid w Hk) as (i & Ei & _).
    rewrite Ei in E. inversion E; subst. exact Hw. }
  rewrite (CanVport_unknown portid uuid w Hk) in E. unfold bind in E.
  destruct Hw as (Hwf & Hc).
  destruct (CanVport_grow_keeps w Hwf) as (Hp1 & Hr1 & Hwf1).
  destruct (CanVport_grow w) as [[[]|c|] w1]; try discriminate.
  cbn [fst snd] in *.
  destruct (Hwf1 eq_refl) as (Hw1 & Hroom).
  destruct (CanVport_open_keeps portid uuid w1 Hw1 Hroom)
    as (Hs2 & Hl2 & Hf2 & Hr2 & Hp2).
  rewrite E in *. cbn [snd] in *.
  destruct Hw1 as (Hq & Hlq & Hfq).
  split.
  - unfold wf_ports. rewrite Hs2, Hl2, Hf2.
    destruct Hp2 as [->|(-> & _)]; lia.
  - intros i Hi.
    destruct (Z_lt_le_dec i (portptr (ports w1))) as [Hlt|Hge].
    + rewrite Hr2, Hr1 by lia. apply Hc. lia.
    + destruct Hp2 as [Hp2|(Hp2 & _ & Hnew)]; [lia|].
      replace i with (portptr (ports w1)) by lia.
      rewrite Hnew. lia.
Qed.

Lemma ok_ConfigurePort (frame : tCanFrame) :
  keeps world_ok (ConfigurePort frame).
Proof.
  unfold ConfigurePort.
  repeat (keeps_step || apply ok_CanVport || apply ok_CanSockSend).
Qed.

Lemma ok_rx_dispatch (frame : tCanFrame) : keeps world_ok (rx_dispatch frame).
Proof.
  unfold rx_dispatch.
  repeat (keeps_step || apply ok_CanSockSend).
  apply table_ok_upd; [assumption|simpl; lia].
Qed.

Lemma ok_rx_pty (i : Z) : keeps world_ok (rx_pty i).
Proof.
  unfold rx_pty.
  repeat (keeps_step || apply ok_CanSockSend).
  apply table_ok_upd_keep; [assumption|reflexivity].
Qed.

Lemma ok_rx_event (ev : inotify_event) : keeps world_ok (rx_event ev).
Proof.
  unfold rx_event.
  repeat (keeps_step || apply ok_CanSockSend);
    (apply table_ok_upd_keep; [assumption|reflexivity]).
Qed.

Lemma ok_CanRxThread_body : keeps world_ok CanRxThread_body.
Proof.
  unfold CanRxThread_body, do_poll, rx_ready, rx_can, rx_frame, rx_ptys,
    rx_inotify.
  repeat (keeps_step || apply ok_ConfigurePort || apply ok_rx_dispatch
          || apply ok_rx_pty || apply ok_rx_event).
  apply table_ok_fds; [assumption|apply set_all_revents_length].
Qed.

Lemma cur_CanRxThread_body : keeps cursor_ok CanRxThread_body.
Proof.
  unfold CanRxThread_body, do_poll, rx_ready, rx_can, rx_frame, rx_ptys,
    rx_inotify, rx_pty, rx_event, rx_dispatch, ConfigurePort, CanVport,
    CanVport_grow, CanVport_open, CanSockSend.
  repeat keeps_step.
Qed.

Lemma cur_CanSockSend (id len : Z) (d : option (list Z)) :
  keeps cursor_ok (CanSockSend id len d).
Proof. unfold CanSockSend. repeat keeps_step. Qed.

Lemma ok_CanPing (w : World) :
  world_ok w -> cursor_ok w ->
  forall a w', CanPing w = (Val a, w') -> world_ok w' /\ cursor_ok w'.
Proof.
  unfold cursor_ok.
  intros Hw Hcur a w' E. pose proof Hw as ((Hp & Hlp & Hlf) & Hc).
  destruct (Z.eq_dec (pingptr w) 0) as [E0|E0].
  { assert (Hk : keeps world_ok
                   (CanSockSend PKT_ID_UUID 0 None ;;;
                    modify (set_pingptr (pingptr w + 1))))
      by (repeat (keeps_step || apply ok_CanSockSend)).
    assert (Hq : keeps cursor_ok
                   (CanSockSend PKT_ID_UUID 0 None ;;;
                    modify (set_pingptr (pingptr w + 1))))
      by (repeat (keeps_step || apply cur_CanSockSend
                  || (apply cur_set_pingptr; lia))).
    assert (E' : (CanSockSend PKT_ID_UUID 0 None ;;;
                  modify (set_pingptr (pingptr w + 1))) w = (Val a, w')).
    { rewrite <- E. unfold CanPing. rewrite bind_gets.
      destruct (Z.eqb_spec (pingptr w) 0); [reflexivity|contradiction]. }
    split; [exact (Hk w Hw a w' E')|exact (Hq w Hcur a w' E')]. }
  destruct (Z_le_gt_dec (portptr (ports w)) (pingptr w)) as [Hge|Hlt].
  { unfold CanPing in E. rewrite bind_gets in E.
    destruct (Z.eqb_spec (pingptr w) 0); [contradiction|].
    destruct (Z.leb_spec (portptr (ports w)) (pingptr w)); [|lia].
    inversion E; subst. split; [exact Hw|simpl; lia]. }
  assert (Hj : 1 <= pingptr w < portptr (ports w)) by lia.
  destruct (Z.eq_dec (pingcount (rd zero_port (p (ports w)) (pingptr w))) 0)
    as [Ez|Ez].
  - rewrite (CanPing_reap_eq w Hj Ez) in E. inversion E; subst. clear E.
    split; [|simpl; lia].
    unfold world_ok, table_ok, wf_ports. cbn [ports].
    destruct (Z.ltb_spec (pingptr w + 1) (portptr (ports w))) as [Hm|Hm];
      cbn [set_portptr copy_next set_VportFd set_p p VportFd portptr portsize];
      rewrite ?upd_length.
    + split; [lia|]. intros i Hi.
      destruct (rd_upd_cases zero_port (p (ports w)) (pingptr w) i
                  (rd zero_port (p (ports w)) (pingptr w + 1))) as [Ei|Ei];
        [lia| |]; rewrite Ei; apply Hc; lia.
    + split; [lia|]. intros i Hi. apply Hc. lia.
  - rewrite (CanPing_live_eq w Hj Ez) in E. inversion E; subst. clear E.
    split; [|simpl; lia].
    unfold world_ok. cbn [ports].
    apply table_ok_upd; [exact Hw|]. simpl.
    specialize (Hc (pingptr w) Hj). lia.
Qed.

(** Every state a run reaches satisfies the invariant: the statements
    that assume a well-formed table apply to all of them, and the
    counters never leave the range in which C's [int] is exact. *)
Lemma reachable_ok (w : World) : reachable w -> world_ok w /\ cursor_ok w.
Proof.
  induction 1 as [s ino o|o w w' Hr (IH & IHc) Hs].
  - unfold world_ok, cursor_ok, table_ok, wf_ports; simpl.
    split; [|lia]. split; [lia|]. intros i Hi. lia.
  - destruct o as [| |id len d]; simpl in Hs.
    + destruct (CanRxThread_body w) as [[[|]|c|] w1] eqn:E; inversion Hs; subst.
      split; [exact (ok_CanRxThread_body w IH true w' E)
             |exact (cur_CanRxThread_body w IHc true w' E)].
    + destruct (CanPing w) as [[u|c|] w1] eqn:E; inversion Hs; subst.
      exact (ok_CanPing w IH IHc u w' E).
    + destruct (CanSockSend id len d w) as [[u|c|] w1] eqn:E;
        inversion Hs; subst.
      split; [exact (ok_CanSockSend id len d w IH u w' E)
             |exact (cur_CanSockSend id len d w IHc u w' E)].
Qed.

Corollary reachable_wf (w : World) : reachable w -> wf_ports (ports w).
Proof. intros H. destruct (reachable_ok w H) as ((Hwf & _) & _). exact Hwf. Qed.

End Invariant.

End Properties.

(** * The program on concrete inputs *)

(** The worlds along a run are reachable. *)
Lemma run_reachable {K : Consts} (l : list Op) :
  forall w w', reachable w -> run l w = Some w' -> reachable w'.
Proof.
  induction l as [|o t IH]; intros w w' Hr E; simpl in E.
  - inversion E; subst; assumption.
  - destruct (exec o w) as [w1|] eqn:Eo; [|discriminate].
    apply (IH w1 w'); [|assumption].
    eapply reach_step; eassumption.
Qed.

(** The table of three ports is well formed. *)
Lemma wf_table_abc : wf_ports table_abc.
Proof. unfold wf_ports; simpl; lia. Qed.

(** The receive loop stops at the second port for [frame_above_B]. *)
Lemma first_match_above_B :
  first_match frame_above_B table_abc 2.
Proof.
  unfold first_match. split; [simpl; lia|]. split; [reflexivity|].
  intros j Hj. assert (j = 1) by lia. subst j. vm_compute. discriminate.
Defined.

(** C1 fails on the code.  With three virtual ports and the cursor on
    the first, whose [pingcount] is 0, [CanPing] copies the second port
    over the first and drops the last slot: the table holds the second
    port twice and the third port is lost, where deleting the slot would
    leave the second and the third. *)
Theorem CanPing_reap_overwrites :
  let w := world_abc (script_of []) in
  let w' := snd (CanPing (K := demo) w) in
  pingcount (rd zero_port (p (ports w)) (pingptr w)) = 0 /\
  live (ports w) = [zero_port; portA; portB; portC] /\
  delete_slot (pingptr w) (live (ports w)) = [zero_port; portB; portC] /\
  live (ports w') = [zero_port; portB; portB] /\
  map fd (live_fds (ports w')) = [3; 12; 12] /\
  pingptr w' = pingptr w.
Proof. vm_compute. repeat split. Qed.

(** C2 fails on the code.  A frame whose identifier is one below the
    [canid] of the second port goes to the first port, whose [canid] is
    one below the frame's identifier: that port gets the payload and the
    reset of [pingcount], and the second port gets neither. *)
Lemma rx_dispatch_plus_one_counterexample :
  let w := world_abc (script_of []) in
  let w' := snd (rx_dispatch (K := demo) frame_below_B w) in
  canid (rd zero_port (p (ports w)) 2) = u32 (can_id frame_below_B + 1) /\
  pingcount (rd zero_port (p (ports w)) 2) = 1 /\
  pingcount (rd zero_port (p (ports w')) 2) = 1 /\
  canid (rd zero_port (p (ports w)) 1) = u32 (can_id frame_below_B - 1) /\
  pingcount (rd zero_port (p (ports w')) 1) = 3 /\
  fd (rd zero_pollfd (VportFd (ports w)) 1) = 10 /\
  trace w' = [sys_write 10 [65; 66; 67]].
Proof. vm_compute. repeat split. Qed.

(** The routing theorem on a frame for the second of three ports. *)
Lemma rx_dispatch_routes_witness :
  wf_ports table_abc /\
  first_match frame_above_B table_abc 2 /\
  pingcount (rd zero_port
               (p (ports (snd (rx_dispatch (K := demo) frame_above_B
                                           (world_abc (script_of []))))))
               2) = 3.
Proof.
  split; [exact wf_table_abc|]. split; [exact first_match_above_B|].
  exact (proj1 (proj1 (rx_dispatch_routes (K := demo) frame_above_B
                         (world_abc (script_of [])) wf_table_abc)
                      2 first_match_above_B)).
Defined.

(** The second port is active and the frame carries three bytes: they
    are written to its master descriptor. *)
Lemma rx_dispatch_match_witness :
  wf_ports table_abc /\
  first_match frame_above_B table_abc 2 /\
  trace (snd (rx_dispatch (K := demo) frame_above_B (world_abc (script_of []))))
  = [sys_write 12 [65; 66; 67]].
Proof.
  split; [exact wf_table_abc|]. split; [exact first_match_above_B|].
  refine (proj1 (proj2 (rx_dispatch_match (K := demo) frame_above_B
                          (world_abc (script_of [])) 2 wf_table_abc
                          first_match_above_B)) _).
  split; [reflexivity|discriminate].
Defined.

(** A payload of 9 bytes, and a [write] that returns -1. *)
Lemma CanSockSend_errors_witness :
  CanSockSend (K := demo) 801 9 (Some [1; 2; 3; 4; 5; 6; 7; 8; 9])
              (world_abc (script_of [])) =
    (Val EINVAL, world_abc (script_of [])) /\
  fst (CanSockSend (K := demo) 801 2 (Some [1; 2])
                   (world_abc (script_of [reply_rv (-1)]))) = Val EIO.
Proof.
  split.
  - refine (proj1 (CanSockSend_errors (K := demo) 801 9 _ _ _ _) _);
      simpl; lia.
  - refine (proj1 (proj2 (CanSockSend_errors (K := demo) 801 2 _ _ _ _))
                  _ _ _); simpl; try lia.
    right; discriminate.
Defined.

(** The third port has a [pingcount] of 3: the second invocation on it
    sends a ping. *)
Lemma CanPing_pings_near_timeout_witness :
  wf_ports table_abc /\
  1 <= 3 < portptr table_abc /\
  trace (CanPing_visits (K := demo) 3 2 (world_abc (script_of []))) =
  trace (CanPing_visits (K := demo) 3 1 (world_abc (script_of [])))
        ++ [ping_frame (K := demo) 3 390].
Proof.
  split; [exact wf_table_abc|]. split; [simpl; lia|].
  refine (proj1 (proj2 (proj1 (proj2
            (CanPing_pings_near_timeout (K := demo) (world_abc (script_of []))
               3 wf_table_abc _)) 1%nat _)) _); simpl; lia.
Defined.

(** C6 fails on the code.  [poll] reports the CAN socket and the master
    of the second virtual port readable; the turn reads the frame and
    then the inotify descriptor, and does not read the virtual port. *)
Lemma CanRxThread_body_both_counterexample :
  let w := world_abc (script_of script_both) in
  revents (rd zero_pollfd (VportFd (ports (snd (do_poll w)))) 0) = 1 /\
  readable (ports (snd (do_poll w))) = [12] /\
  fst (CanRxThread_body (K := demo) w) = Val true /\
  sources (trace (snd (CanRxThread_body (K := demo) w))) = [SrcCan; SrcInotify].
Proof. vm_compute. repeat split. Qed.

(** C7 fails on the code.  After the discovery of three nodes that then
    stay silent, the seventeenth call of [CanPing] reaps the first port;
    the table reached holds the second port number twice. *)
Theorem duplicate_port_reachable :
  reachable (K := demo) world_reaped /\
  map port (live (ports world_reaped)) = [0; 2; 2] /\
  duplicate_port (ports world_reaped).
Proof.
  split; [|split].
  - apply (run_reachable (K := demo) ops_three_reap
                         (init_world 3 4 (script_of script_three))).
    + constructor.
    + vm_compute. reflexivity.
  - vm_compute. reflexivity.
  - exists 1, 2. vm_compute. repeat split; discriminate.
Qed.

(** C9 fails on the code.  The table is full and [realloc] fails during
    a discovery: the process exits in [CanVport], and [ConfigurePort]
    neither returns nor sends the SET frame. *)
Lemma ConfigurePort_exit_counterexample :
  fst (ConfigurePort (K := demo) frame_uuid9 world_full) = Exit 1 /\
  trace (snd (ConfigurePort (K := demo) frame_uuid9 world_full)) =
    [sys_realloc 16; sys_realloc 16].
Proof. vm_compute. repeat split. Qed.

(** [openpty] fails, [CanVport] returns -1, and the SET frame is sent. *)
Lemma ConfigurePort_returns_0_witness :
  growth_fails 9 world_no_pty = false /\
  fst (CanVport (K := demo) 9 [9; 0; 0; 0; 0; 0] world_no_pty) = Val (-1) /\
  exists r w1 w2,
    CanVport (K := demo) 9 [9; 0; 0; 0; 0; 0] world_no_pty = (Val r, w1) /\
    ConfigurePort (K := demo) frame_uuid9 world_no_pty = (Val 0, w2) /\
    trace w2 = trace w1 ++
      [sys_write_frame 3 (mkFrame 802 8 [146; 1; 9; 0; 0; 0; 0; 0]) 16].
Proof.
  split; [reflexivity|]. split; [reflexivity|].
  exact (proj1 (ConfigurePort_returns_0 (K := demo) frame_uuid9 world_no_pty)
               eq_refl).
Defined.

(** * Further properties of the code *)

(** ** [CanSockSend] and [CanTtyName] *)

Section SendAndNames.

Context {K : Consts}.

(** A payload of at most 8 bytes is written to the CAN socket as one
    frame that carries the identifier, the length and exactly the first
    [len] bytes; the result is 0 when [write] returns the size of a frame
    and [EIO] otherwise, and nothing else is called. *)
Theorem CanSockSend_writes_payload (id len : Z) (b : list Z) (w : World)
        (Hlen : 0 <= len <= 8)
        (Hb : len <= Z.of_nat (List.length b)) :
  let w' := snd (CanSockSend id len (Some b) w) in
  exists f,
    trace w' = trace w ++ [sys_write_frame (sock w) f sizeof_tCanFrame] /\
    can_id f = id /\ can_dlc f = len /\
    data f = firstn (Z.to_nat len) b /\
    Z.of_nat (List.length (data f)) = len /\
    (to_size_t (rv (os w (tick w))) = sizeof_tCanFrame ->
     fst (CanSockSend id len (Some b) w) = Val 0) /\
    (to_size_t (rv (os w (tick w))) <> sizeof_tCanFrame ->
     fst (CanSockSend id len (Some b) w) = Val EIO).
Proof.
  intros w'. subst w'.
  rewrite CanSockSend_some_run by lia. cbn [fst snd trace].
  eexists. split; [reflexivity|]. cbn [can_id can_dlc data].
  repeat (split; [reflexivity|]).
  split; [rewrite length_firstn; lia|].
  split; intros H.
  - apply Z.eqb_eq in H. rewrite H. reflexivity.
  - apply Z.eqb_neq in H. rewrite H. reflexivity.
Qed.

Lemma hex_digit_inj (a b : Z) :
  0 <= a < 16 -> 0 <= b < 16 -> hex_digit a = hex_digit b -> a = b.
Proof.
  intros Ha Hb.
  assert (Ea : exists n, (n < 16)%nat /\ a = Z.of_nat n)
    by (exists (Z.to_nat a); lia).
  assert (Eb : exists n, (n < 16)%nat /\ b = Z.of_nat n)
    by (exists (Z.to_nat b); lia).
  destruct Ea as (n & Hn & ->). destruct Eb as (m & Hm & ->).
  unfold hex_digit. rewrite !Nat2Z.id.
  do 16 (destruct n as [|n]; [do 16 (destruct m as [|m];
    [first [reflexivity | discriminate]|]); lia|]).
  lia.
Qed.

Lemma hex2_inj (a b : Z) :
  0 <= a < 256 -> 0 <= b < 256 -> hex2 a = hex2 b -> a = b.
Proof.
  intros Ha Hb E. unfold hex2 in E. injection E as E1 E2.
  apply hex_digit_inj in E1;
    [|split; [apply Z.div_pos; lia|apply Z.div_lt_upper_bound; lia] ..].
  apply hex_digit_inj in E2; [|apply Z.mod_pos_bound; lia ..].
  rewrite (Z.div_mod a 16), (Z.div_mod b 16) by lia. congruence.
Qed.

(** The name of a port's symlink is 25 characters long, so it fits the
    64 bytes [snprintf] is given, and two ports whose UUID bytes differ
    have different names. *)
Theorem CanTtyName_injective (e1 e2 : tPortId)
        (H1 : forall k, 0 <= k < 6 -> 0 <= rd 0 (can_uuid e1) k < 256)
        (H2 : forall k, 0 <= k < 6 -> 0 <= rd 0 (can_uuid e2) k < 256) :
  String.length (CanTtyName e1) = 25%nat /\
  (CanTtyName e1 = CanTtyName e2 ->
   forall k, 0 <= k < 6 -> rd 0 (can_uuid e1) k = rd 0 (can_uuid e2) k).
Proof.
  split; [reflexivity|].
  intros E k Hk. unfold CanTtyName in E. simpl String.append in E.
  injection E as E0 E0' E1 E1' E2 E2' E3 E3' E4 E4' E5 E5'.
  assert (Hex : forall j, 0 <= j < 6 ->
            hex2 (rd 0 (can_uuid e1) j) = hex2 (rd 0 (can_uuid e2) j) ->
            rd 0 (can_uuid e1) j = rd 0 (can_uuid e2) j)
    by (intros j Hj; apply hex2_inj; auto).
  assert (Hc : k = 0 \/ k = 1 \/ k = 2 \/ k = 3 \/ k = 4 \/ k = 5) by lia.
  destruct Hc as [->|[->|[->|[->|[->| ->]]]]];
    apply Hex; try lia; unfold hex2; congruence.
Qed.

End SendAndNames.

(** ** The virtual-port factory *)

Section Factory.

Context {K : Consts}.

(** [CanVport_open] step by step: the calls it makes are a prefix of
    [CanVport_calls], cut after the first call that fails; the slot at
    [portptr] becomes live when none fails. *)
Lemma CanVport_open_run (portid : Z) (uuid : list Z) (w : World) :
  let t := ports w in
  let n := portptr t in
  let res := fst (CanVport_open portid uuid w) in
  let w' := snd (CanVport_open portid uuid w) in
  let k := CanVport_steps w in
  wf_ports t ->
  n < portsize t ->
  res = Val (if Nat.eqb k 10 then n else -1) /\
  trace w' = trace w ++ firstn k (CanVport_calls portid uuid w) /\
  tick w' = (k + tick w)%nat /\
  os w' = os w /\ sock w' = sock w /\ Inotify w' = Inotify w /\
  pingptr w' = pingptr w /\
  portsize (ports w') = portsize t /\
  List.length (p (ports w')) = List.length (p t) /\
  List.length (VportFd (ports w')) = List.length (VportFd t) /\
  portptr (ports w') = (if Nat.eqb k 10 then n + 1 else n) /\
  (forall j, 0 <= j -> j <> n ->
     rd zero_port (p (ports w')) j = rd zero_port (p t) j /\
     rd zero_pollfd (VportFd (ports w')) j = rd zero_pollfd (VportFd t) j) /\
  (k = 10%nat ->
   rd zero_port (p (ports w')) n =
     set_watch (rv (os w (9 + tick w)%nat)) (new_port portid uuid t) /\
   rd zero_pollfd (VportFd (ports w')) n =
     mkPollfd (r_fd (os w (tick w))) POLLIN 0).
Proof.
  intros t n res w' k (Hp & Hlp & Hlf) Hroom. subst res w' k.
  destruct (CanVport_open portid uuid w) as [res w'] eqn:E. cbn [fst snd].
  unfold CanVport_steps, CanVport_calls. cbv zeta. cbn [Nat.add].
  unfold CanVport_open in E.
  rewrite bind_gets in E. cbv beta zeta in E.
  rewrite bind_modify_ports in E. rewrite bind_syscall in E.
  cbv beta in E. cbn [ports sock pingptr Inotify threadexit os tick set_ports] in E.
  fold t n (new_port portid uuid t) in E. fold t n.
  assert (Hother : forall (x : tPortId) (y : pollfd) j, 0 <= j -> j <> n ->
            rd zero_port (upd (p t) n x) j = rd zero_port (p t) j /\
            rd zero_pollfd (upd (VportFd t) n y) j = rd zero_pollfd (VportFd t) j)
    by (intros x y j Hj Hne; split; apply rd_upd_other; auto).
  assert (Hfail : forall tr' tk' (J : Prop), J ->
            let w1 :=
              mkWorld
                (set_VportFd
                   (upd (VportFd t) n
                        (set_revents 0 (rd zero_pollfd (VportFd t) n)))
                   (set_p (upd (p t) n (new_port portid uuid t)) t))
                (sock w) (pingptr w) (Inotify w) (threadexit w) tr' (os w) tk' in
            os w1 = os w /\ sock w1 = sock w /\ Inotify w1 = Inotify w /\
            pingptr w1 = pingptr w /\
            portsize (ports w1) = portsize t /\
            List.length (p (ports w1)) = List.length (p t) /\
            List.length (VportFd (ports w1)) = List.length (VportFd t) /\
            portptr (ports w1) = n /\
            (forall j, 0 <= j -> j <> n ->
               rd zero_port (p (ports w1)) j = rd zero_port (p t) j /\
               rd zero_pollfd (VportFd (ports w1)) j
               = rd zero_pollfd (VportFd t) j) /\ J).
  { intros tr' tk' J HJ w1. subst w1.
    cbn [os sock Inotify pingptr ports set_VportFd set_p p VportFd portptr
         portsize].
    rewrite !upd_length. repeat (split; [reflexivity|]).
    split; [|exact HJ]. intros j Hj Hne; apply Hother; auto. }
  match type of E with context [if ?c then _ else _] => destruct c end.
  { inversion E; subst; clear E.
    cbn [Nat.eqb firstn Nat.add trace tick].
    split; [reflexivity|]. split; [reflexivity|]. split; [reflexivity|].
    apply Hfail. discriminate. }
  rewrite bind_syscall in E. cbv beta in E.
  cbn [ports sock pingptr Inotify threadexit os tick set_ports] in E.
  match type of E with context [if ?c then _ else _] => destruct c end.
  { inversion E; subst; clear E.
    cbn [Nat.eqb firstn Nat.add trace tick].
    split; [reflexivity|].
    split; [rewrite <- !app_assoc; reflexivity|]. split; [reflexivity|].
    apply Hfail. discriminate. }
  do 6 (rewrite bind_syscall in E; cbv beta in E;
        cbn [ports sock pingptr Inotify threadexit os tick set_ports] in E).
  match type of E with context [if ?c then _ else _] => destruct c end.
  { inversion E; subst; clear E.
    cbn [Nat.eqb firstn Nat.add trace tick].
    split; [reflexivity|].
    split; [rewrite <- !app_assoc; reflexivity|]. split; [reflexivity|].
    apply Hfail. discriminate. }
  rewrite bind_syscall in E. cbv beta in E.
  cbn [ports sock pingptr Inotify threadexit os tick set_ports] in E.
  match type of E with context [if ?c then _ else _] => destruct c end.
  { inversion E; subst; clear E.
    cbn [Nat.eqb firstn Nat.add trace tick].
    split; [reflexivity|].
    split; [rewrite <- !app_assoc; reflexivity|]. split; [reflexivity|].
    apply Hfail. discriminate. }
  rewrite bind_modify_ports in E. rewrite bind_gets in E.
  rewrite bind_syscall in E. rewrite bind_modify_ports in E.
  rewrite bind_gets in E. unfold ret in E.
  inversion E; subst; clear E.
  cbn [Nat.eqb firstn Nat.add trace tick os sock Inotify pingptr ports
       set_ports set_VportFd set_p set_portptr p VportFd portptr portsize].
  rewrite !upd_length, <- !app_assoc. fold t n.
  split; [f_equal; f_equal; lia|].
  repeat (split; [reflexivity|]).
  split.
  - intros j Hj Hne. rewrite !rd_upd_other by auto. split; reflexivity.
  - intros _.
    rewrite !rd_upd_same by (rewrite ?upd_length; fold t; lia).
    split; reflexivity.
Qed.

(** [CanVport_grow] when it returns: nothing happens unless the table
    is full; then both vectors are enlarged to twice [portsize] by two
    calls of [realloc]. *)
Lemma CanVport_grow_run (w : World) :
  let full := portptr (ports w) =? portsize (ports w) in
  let w' := snd (CanVport_grow w) in
  fst (CanVport_grow w) = Val tt ->
  ports w' =
    (if full
     then set_VportFd (grow zero_pollfd (2 * portsize (ports w))
                            (VportFd (ports w)))
            (set_p (grow zero_port (2 * portsize (ports w)) (p (ports w)))
               (set_portsize (2 * portsize (ports w)) (ports w)))
     else ports w) /\
  trace w' = trace w ++
    (if full then [sys_realloc (2 * portsize (ports w));
                   sys_realloc (2 * portsize (ports w))] else []) /\
  tick w' = (if full then S (S (tick w)) else tick w) /\
  os w' = os w /\ sock w' = sock w /\ Inotify w' = Inotify w /\
  pingptr w' = pingptr w.
Proof.
  intros full w'. subst full w'.
  unfold CanVport_grow, bind, gets, when, modify_ports, modify, syscall, exit,
    ret.
  cbv beta iota.
  destruct (portptr (ports w) =? portsize (ports w)).
  - cbn [ports set_ports tick os fst snd].
    destruct ((rv (os w (tick w)) =? 0) || (rv (os w (S (tick w))) =? 0));
      cbn [fst snd]; [discriminate|]. intros _.
    cbn [ports set_ports set_portsize portsize trace tick os sock Inotify
         pingptr].
    rewrite <- app_assoc. repeat split; reflexivity.
  - intros _. cbn [fst snd]. rewrite app_nil_r. repeat split; reflexivity.
Qed.

(** A full table grows by doubling: [portsize] and the length of both
    vectors are twice what they were, every slot holds what it held, and
    [portptr] is unchanged. *)
Theorem CanVport_grow_doubles (w : World)
        (Hwf : wf_ports (ports w))
        (Hfull : portptr (ports w) = portsize (ports w))
        (Hret : fst (CanVport_grow w) = Val tt) :
  let t := ports w in
  let t' := ports (snd (CanVport_grow w)) in
  portsize t' = 2 * portsize t /\
  Z.of_nat (List.length (p t')) = 2 * portsize t /\
  Z.of_nat (List.length (VportFd t')) = 2 * portsize t /\
  portptr t' = portptr t /\
  (forall j, rd zero_port (p t') j = rd zero_port (p t) j) /\
  (forall j, rd zero_pollfd (VportFd t') j = rd zero_pollfd (VportFd t) j) /\
  trace (snd (CanVport_grow w)) =
    trace w ++ [sys_realloc (2 * portsize t); sys_realloc (2 * portsize t)].
Proof.
  intros t t'. subst t t'. destruct Hwf as (Hp & Hlp & Hlf).
  destruct (CanVport_grow_run w Hret) as (Ep & Et & _).
  rewrite Ep, Et.
  replace (portptr (ports w) =? portsize (ports w)) with true
    by (symmetry; apply Z.eqb_eq; exact Hfull).
  cbn [set_VportFd set_p set_portsize p VportFd portsize portptr].
  rewrite !grow_length by lia.
  repeat split; try reflexivity; intros j; apply rd_grow.
Qed.

Lemma CanVport_unknown_result (portid : Z) (uuid : list Z) (w : World)
        (r : Z) (w' : World)
        (Hwf : wf_ports (ports w))
        (Hnew : port_known portid (ports w) = false)
        (Hret : CanVport portid uuid w = (Val r, w')) :
  let n := portptr (ports w) in
  wf_ports (ports w') /\
  pingptr w' = pingptr w /\
  (forall j, 0 <= j < n ->
     rd zero_port (p (ports w')) j = rd zero_port (p (ports w)) j /\
     rd zero_pollfd (VportFd (ports w')) j
     = rd zero_pollfd (VportFd (ports w)) j) /\
  (r = -1 /\ portptr (ports w') = n \/
   r = n /\ portptr (ports w') = n + 1 /\
   let e := rd zero_port (p (ports w')) n in
   let f := rd zero_pollfd (VportFd (ports w')) n in
   port e = u16 portid /\
   canid e = u32 (2 * portid + PKT_ID_CTL_FILTER) /\
   can_uuid e = firstn 6 uuid /\
   pingcount e = PINGS_BEFORE_DISCONNECT /\
   active e = 0 /\
   events f = POLLIN /\ revents f = 0).
Proof.
  intros n. subst n.
  rewrite (CanVport_unknown portid uuid w Hnew) in Hret. unfold bind in Hret.
  destruct (CanVport_grow_keeps w Hwf) as (Hp1 & _ & Hwf1).
  pose proof (CanVport_grow_run w) as Hg.
  destruct (CanVport_grow w) as [[[]|c|] w1]; try discriminate.
  cbn [fst snd] in *.
  destruct (Hg eq_refl) as (Ep & _ & _ & _ & _ & _ & Eq). clear Hg.
  destruct (Hwf1 eq_refl) as (Hw1 & Hroom). clear Hwf1.
  assert (Hsame : forall j,
            rd zero_port (p (ports w1)) j = rd zero_port (p (ports w)) j /\
            rd zero_pollfd (VportFd (ports w1)) j
            = rd zero_pollfd (VportFd (ports w)) j).
  { intros j. rewrite Ep.
    destruct (portptr (ports w) =? portsize (ports w));
      cbn [set_VportFd set_p p VportFd]; [|split; reflexivity].
    split; apply rd_grow. }
  pose proof (CanVport_open_run portid uuid w1 Hw1 Hroom) as Ho.
  rewrite Hret in Ho. cbn [fst snd] in Ho.
  destruct Ho as (Er & _ & _ & _ & _ & _ & Epp & Es & El & Ef & En & Hj & Hk).
  pose proof Hw1 as (Hq & Hlq & Hfq).
  split.
  { unfold wf_ports. rewrite Es, El, Ef, En.
    destruct (Nat.eqb (CanVport_steps w1) 10); lia. }
  split; [congruence|].
  split.
  { intros j Hjn. destruct (Hj j) as (A & B); [lia|lia|].
    destruct (Hsame j) as (C & D). split; congruence. }
  destruct (Nat.eqb_spec (CanVport_steps w1) 10) as [E10|E10].
  - right. inversion Er; subst r. rewrite <- Hp1.
    split; [reflexivity|]. split; [exact En|].
    destruct (Hk E10) as (Ee & Efd). rewrite Ee, Efd.
    cbn. repeat split; reflexivity.
  - left. inversion Er; subst r. rewrite <- Hp1. split; [reflexivity|exact En].
Qed.

(** What a call of [CanVport] for a port number that is not in the table
    leaves behind when it returns.  The live slots are as before.  The
    result is -1 and no slot is added, or the result is the old
    [portptr] and the slot at that index is live: it carries the port
    number, the identifier [2 * portid + PKT_ID_CTL_FILTER], the UUID and
    a full [pingcount], it is not active, and its master descriptor is
    polled for input. *)
Theorem CanVport_result (portid : Z) (uuid : list Z) (w : World)
        (r : Z) (w' : World)
        (Hwf : wf_ports (ports w))
        (Hnew : port_known portid (ports w) = false)
        (Hret : CanVport portid uuid w = (Val r, w')) :
  let n := portptr (ports w) in
  wf_ports (ports w') /\
  pingptr w' = pingptr w /\
  (forall j, 0 <= j < n ->
     rd zero_port (p (ports w')) j = rd zero_port (p (ports w)) j /\
     rd zero_pollfd (VportFd (ports w')) j
     = rd zero_pollfd (VportFd (ports w)) j) /\
  (r = -1 /\ portptr (ports w') = n \/
   r = n /\ portptr (ports w') = n + 1 /\
   let e := rd zero_port (p (ports w')) n in
   let f := rd zero_pollfd (VportFd (ports w')) n in
   port e = u16 portid /\
   canid e = u32 (2 * portid + PKT_ID_CTL_FILTER) /\
   can_uuid e = firstn 6 uuid /\
   pingcount e = PINGS_BEFORE_DISCONNECT /\
   active e = 0 /\
   events f = POLLIN /\ revents f = 0).
Proof. exact (CanVport_unknown_result portid uuid w r w' Hwf Hnew Hret). Qed.

(** A call of [CanVport] that fails undoes nothing.  With room in the
    table, the calls it makes for a new port number are a prefix of the
    calls of a successful one, [-1] is returned exactly when the prefix
    is proper, and no descriptor is closed; when [chmod] is the call that
    fails, the last calls are the [symlink] and the [chmod], so the link
    just created stays. *)
Theorem CanVport_failure_undoes_nothing (portid : Z) (uuid : list Z) (w : World)
        (Hwf : wf_ports (ports w))
        (Hnew : port_known portid (ports w) = false)
        (Hroom : portptr (ports w) < portsize (ports w)) :
  let k := CanVport_steps w in
  let calls := CanVport_calls portid uuid w in
  let fname := CanTtyName (new_port portid uuid (ports w)) in
  let tname := r_path (os w (5 + tick w)%nat) in
  trace (snd (CanVport portid uuid w)) = trace w ++ firstn k calls /\
  (fst (CanVport portid uuid w) = Val (-1) <-> k <> 10%nat) /\
  existsb is_close calls = false /\
  (k = 9%nat ->
   exists l, firstn k calls = l ++ [sys_symlink tname fname;
                                    sys_chmod tname 438]).
Proof.
  intros k calls fname tname. subst k calls fname tname.
  rewrite (CanVport_unknown portid uuid w Hnew).
  assert (Eg : CanVport_grow w = (Val tt, w)).
  { unfold CanVport_grow, bind, gets, when, ret. cbv beta.
    destruct (Z.eqb_spec (portptr (ports w)) (portsize (ports w)));
      [lia|reflexivity]. }
  unfold bind. rewrite Eg.
  destruct (CanVport_open_run portid uuid w Hwf Hroom) as (Er & Et & _).
  destruct Hwf as (Hp & _).
  split; [exact Et|]. split; [|split; [reflexivity|]].
  - rewrite Er.
    destruct (Nat.eqb_spec (CanVport_steps w) 10) as [E|E].
    + split; [intros H; inversion H; lia|intros H; contradiction].
    + split; [intros _; exact E|reflexivity].
  - intros E. rewrite E. unfold CanVport_calls. cbv zeta.
    cbn [firstn].
    eexists [_; _; _; _; _; _; _]. reflexivity.
Qed.

(** Opening and closing fit together: when [CanVport] succeeds,
    [CanVportClose] on the new slot removes the watch that
    [inotify_add_watch] returned and unlinks the path that was linked
    and watched. *)
Theorem CanVport_close_round_trip (portid : Z) (uuid : list Z) (w : World)
        (Hwf : wf_ports (ports w))
        (Hnew : port_known portid (ports w) = false)
        (Hroom : portptr (ports w) < portsize (ports w))
        (Hok : CanVport_steps w = 10%nat) :
  let w' := snd (CanVport portid uuid w) in
  let e := rd zero_port (p (ports w')) (portptr (ports w)) in
  let fname := CanTtyName e in
  fst (CanVport portid uuid w) = Val (portptr (ports w)) /\
  (exists l tname,
     trace w' = trace w ++ l ++
       [sys_symlink tname fname; sys_chmod tname 438;
        sys_inotify_add_watch (Inotify w) fname (Z.lor IN_OPEN IN_CLOSE)]) /\
  watch e = rv (os w (9 + tick w)%nat) /\
  trace (snd (CanVportClose e w')) =
    trace w' ++ [sys_inotify_rm_watch (Inotify w) (rv (os w (9 + tick w)%nat));
                 sys_unlink fname].
Proof.
  intros w' e fname. subst w' e fname.
  rewrite (CanVport_unknown portid uuid w Hnew).
  assert (Eg : CanVport_grow w = (Val tt, w)).
  { unfold CanVport_grow, bind, gets, when, ret. cbv beta.
    destruct (Z.eqb_spec (portptr (ports w)) (portsize (ports w)));
      [lia|reflexivity]. }
  assert (Ev : (CanVport_grow ;;; CanVport_open portid uuid) w
               = CanVport_open portid uuid w)
    by (unfold bind; rewrite Eg; reflexivity).
  rewrite Ev. clear Ev Eg.
  destruct (CanVport_open_run portid uuid w Hwf Hroom)
    as (Er & Et & _ & _ & _ & Ei & _ & _ & _ & _ & _ & _ & Hk).
  rewrite Hok in *. destruct (Hk eq_refl) as (Ee & _). clear Hk.
  cbn [Nat.eqb] in Er.
  rewrite CanVportClose_run. cbn [snd trace]. rewrite Ee, Ei.
  split; [exact Er|]. split; [|split; reflexivity].
  rewrite Et. unfold CanVport_calls. cbv zeta. cbn [firstn].
  eexists [_; _; _; _; _; _; _], _. reflexivity.
Qed.

End Factory.

(** ** The pieces of the receive loop *)

Section ReceiveLoop.

Context {K : Consts}.

Ltac run_in E :=
  first [ rewrite bind_gets in E | rewrite bind_modify_ports in E
        | rewrite bind_syscall in E | rewrite bind_ret in E ];
  cbv beta zeta in E;
  cbn [ports sock pingptr Inotify threadexit os tick set_ports] in E.

Lemma existsb_7e (l : list Z) :
  existsb (fun b => b =? 126) l = true <-> In 126 l.
Proof.
  rewrite existsb_exists. split.
  - intros (x & Hx & E). apply Z.eqb_eq in E. subst x. exact Hx.
  - intros H. exists 126. split; [exact H|reflexivity].
Qed.

(** Bytes read from the master of a virtual port go out as one frame on
    the port's [canid], with the bytes as they were read; a chunk that
    holds the byte 0x7E also marks the port active.  Nothing is sent when
    the read returns nothing or fails, and a port without events is not
    read.  No other slot, and no [pingcount], changes. *)
Theorem rx_pty_forwards (i : Z) (w : World)
        (Hwf : wf_ports (ports w))
        (Hi : 1 <= i < portptr (ports w)) :
  let f := rd zero_pollfd (VportFd (ports w)) i in
  let e := rd zero_port (p (ports w)) i in
  let r := os w (tick w) in
  let chunk := firstn (Z.to_nat (rv r)) (r_bytes r) in
  let w' := snd (rx_pty i w) in
  (revents f = 0 -> rx_pty i w = (Val tt, w)) /\
  (revents f <> 0 -> rv r <= 0 ->
   ports w' = ports w /\
   trace w' = trace w ++ [sys_read (fd f) CAN_DATA_SIZE]) /\
  (revents f <> 0 -> 0 < rv r <= 8 ->
   trace w' = trace w ++
     [sys_read (fd f) CAN_DATA_SIZE;
      sys_write_frame (sock w) (mkFrame (canid e) (rv r) chunk)
                      sizeof_tCanFrame] /\
   VportFd (ports w') = VportFd (ports w) /\
   portptr (ports w') = portptr (ports w) /\
   (forall j, 0 <= j -> j <> i ->
      rd zero_port (p (ports w')) j = rd zero_port (p (ports w)) j) /\
   (In 126 chunk -> rd zero_port (p (ports w')) i = set_active 1 e) /\
   (~ In 126 chunk -> rd zero_port (p (ports w')) i = e)).
Proof.
  intros f e r chunk w'. subst w'. destruct Hwf as (Hp & Hlp & Hlf).
  destruct (rx_pty i w) as [res w'] eqn:E. cbn [snd].
  unfold rx_pty in E. run_in E. fold f in E.
  split; [|split].
  - intros H0. rewrite H0 in E. cbn in E. symmetry. exact E.
  - intros Hn Hr. apply Z.eqb_neq in Hn. rewrite Hn in E.
    cbn [negb when] in E. run_in E. fold r in E.
    destruct (Z.ltb_spec 0 (rv r)); [lia|].
    cbn [when] in E. inversion E; subst. split; reflexivity.
  - intros Hn Hr. apply Z.eqb_neq in Hn. rewrite Hn in E.
    cbn [negb when] in E. run_in E. fold r chunk in E.
    destruct (Z.ltb_spec 0 (rv r)); [|lia].
    cbn [when] in E.
    assert (Eu : u8 (rv r) = rv r) by (unfold u8; apply Z.mod_small; lia).
    assert (Ec : firstn (Z.to_nat (rv r)) chunk = chunk).
    { unfold chunk. rewrite firstn_firstn. f_equal. lia. }
    destruct (existsb (fun b => b =? 126) chunk) eqn:Ex.
    + cbn [when] in E. run_in E. run_in E.
      cbn [set_p p] in E. unfold bind in E.
      rewrite CanSockSend_some_run in E by lia. inversion E; subst. clear E.
      cbn [trace ports set_ports set_p VportFd portptr p sock].
      rewrite rd_upd_same by lia. cbn [canid set_active].
      rewrite Eu, Ec, <- app_assoc. fold e.
      split; [reflexivity|]. split; [reflexivity|]. split; [reflexivity|].
      split; [intros j Hj Hne; apply rd_upd_other; auto|].
      split; [intros _; reflexivity|].
      intros Hnot. exfalso. apply Hnot. apply existsb_7e. exact Ex.
    + cbn [when] in E. run_in E. run_in E. unfold bind in E.
      rewrite CanSockSend_some_run in E by lia. inversion E; subst. clear E.
      cbn [trace ports VportFd portptr p sock].
      rewrite Eu, Ec, <- app_assoc. fold e.
      split; [reflexivity|]. split; [reflexivity|]. split; [reflexivity|].
      split; [intros j Hj Hne; reflexivity|].
      split; [|intros _; reflexivity].
      intros Hin. apply existsb_7e in Hin. congruence.
Qed.

Lemma first_watch_scan (ev : inotify_event) (t : tPorts) (i : Z) :
  first_watch ev t i ->
  scan (fun k => watch (rd zero_port (p t) k) =? wd ev)
       1 (Z.to_nat (portptr t - 1)) = i.
Proof.
  intros (Hi & Hm & Hb). apply scan_first.
  - lia.
  - apply Z.eqb_eq; assumption.
  - intros k Hk. apply Z.eqb_neq, Hb; assumption.
Qed.

Lemma no_watch_scan (ev : inotify_event) (t : tPorts) :
  1 <= portptr t ->
  no_watch ev t ->
  scan (fun k => watch (rd zero_port (p t) k) =? wd ev)
       1 (Z.to_nat (portptr t - 1)) = portptr t.
Proof.
  intros Hp Hn. rewrite scan_none.
  - lia.
  - intros k Hk. apply Z.eqb_neq, Hn. lia.
Qed.

(** An inotify event acts on the first live slot that has its watch: an
    open marks the port active and sends a UUID request that carries the
    low 16 bits of the port's [canid]; a close (when the open bit is not
    set) marks it inactive and sends nothing; any other event, and an
    event for a watch that no live slot has, changes nothing. *)
Theorem rx_event_toggles (ev : inotify_event) (w : World)
        (Hwf : wf_ports (ports w)) :
  let w' := snd (rx_event ev w) in
  (no_watch ev (ports w) -> rx_event ev w = (Val tt, w)) /\
  (forall i, first_watch ev (ports w) i ->
     let e := rd zero_port (p (ports w)) i in
     (forall j, 0 <= j -> j <> i ->
        rd zero_port (p (ports w')) j = rd zero_port (p (ports w)) j) /\
     (Z.land (mask ev) IN_OPEN <> 0 ->
      rd zero_port (p (ports w')) i = set_active 1 e /\
      trace w' = trace w ++
        [sys_write_frame (sock w)
           (mkFrame PKT_ID_UUID 2 (le_bytes 2 (canid e))) sizeof_tCanFrame]) /\
     (Z.land (mask ev) IN_OPEN = 0 -> Z.land (mask ev) IN_CLOSE <> 0 ->
      rd zero_port (p (ports w')) i = set_active 0 e /\ trace w' = trace w) /\
     (Z.land (mask ev) IN_OPEN = 0 -> Z.land (mask ev) IN_CLOSE = 0 ->
      rx_event ev w = (Val tt, w))).
Proof.
  intros w'. subst w'. destruct Hwf as (Hp & Hlp & Hlf).
  destruct (rx_event ev w) as [res w'] eqn:E. cbn [snd].
  unfold rx_event in E. run_in E.
  split.
  - intros Hn. rewrite (no_watch_scan ev (ports w) (proj1 Hp) Hn) in E.
    rewrite Z.ltb_irrefl in E. cbn in E. symmetry. exact E.
  - intros i Hi. set (e := rd zero_port (p (ports w)) i).
    rewrite (first_watch_scan ev (ports w) i Hi) in E.
    destruct Hi as (Hi & _ & _).
    destruct (Z.ltb_spec i (portptr (ports w))); [|lia].
    cbn [when] in E. fold e in E.
    destruct (Z.eqb_spec (Z.land (mask ev) IN_OPEN) 0) as [Eo|Eo];
      cbn [negb] in E.
    + destruct (Z.eqb_spec (Z.land (mask ev) IN_CLOSE) 0) as [Ec|Ec];
        cbn [negb] in E.
      * inversion E; subst. clear E.
        split; [intros; reflexivity|]. split; [contradiction|].
        split; [contradiction|]. intros _ _. reflexivity.
      * inversion E; subst. clear E.
        cbn [ports set_ports set_p p trace].
        split; [intros j Hj Hne; apply rd_upd_other; auto|].
        split; [contradiction|]. split; [|contradiction].
        intros _ _. rewrite rd_upd_same by lia. split; reflexivity.
    + run_in E. unfold bind in E.
      rewrite CanSockSend_some_run in E by lia. inversion E; subst. clear E.
      cbn [ports set_ports set_p p trace sock].
      split; [intros j Hj Hne; apply rd_upd_other; auto|].
      split; [|split; contradiction].
      intros _. rewrite rd_upd_same by lia. split; reflexivity.
Qed.

Lemma exit_loop_run (n : nat) :
  forall i w,
    for_range i n (fun k => t' <- gets ports ;;
                            CanVportClose (rd zero_port (p t') k)) w =
    (Val tt,
     mkWorld (ports w) (sock w) (pingptr w) (Inotify w) (threadexit w)
             (trace w ++ exit_calls (Inotify w) (p (ports w)) i n)
             (os w) (2 * n + tick w)).
Proof.
  induction n as [|n IH]; intros i w; simpl for_range.
  - unfold ret. simpl. rewrite app_nil_r. destruct w; reflexivity.
  - unfold bind at 1. rewrite bind_gets. rewrite CanVportClose_run.
    rewrite IH. cbn [ports sock pingptr Inotify threadexit trace os tick].
    rewrite <- app_assoc. cbn [exit_calls app].
    do 2 f_equal. lia.
Qed.

Lemma exit_calls_In (ino : Z) (ps : list tPortId) (n : nat) :
  forall i j, i <= j < i + Z.of_nat n ->
    In (sys_inotify_rm_watch ino (watch (rd zero_port ps j)))
       (exit_calls ino ps i n) /\
    In (sys_unlink (CanTtyName (rd zero_port ps j))) (exit_calls ino ps i n).
Proof.
  induction n as [|n IH]; intros i j Hj; [lia|].
  cbn [exit_calls]. destruct (Z.eq_dec j i) as [->|Hne].
  - split; [left; reflexivity|right; left; reflexivity].
  - destruct (IH (i + 1) j) as (A & B); [lia|].
    split; right; right; assumption.
Qed.

Lemma exit_calls_no_close (ino : Z) (ps : list tPortId) (n : nat) :
  forall i, existsb is_close (exit_calls ino ps i n) = false.
Proof. induction n as [|n IH]; intros i; cbn; auto. Qed.

(** The clean-up after the loop removes the watch and unlinks the
    symlink of every live port, in slot order, and returns.  It closes no
    descriptor and leaves the table as it is: no slot is removed. *)
Theorem CanRxThread_exit_unlinks_all (w : World) :
  let w' := snd (CanRxThread_exit w) in
  let calls := exit_calls (Inotify w) (p (ports w)) 1
                          (Z.to_nat (portptr (ports w) - 1)) in
  fst (CanRxThread_exit w) = Val tt /\
  trace w' = trace w ++ calls /\
  ports w' = ports w /\
  existsb is_close calls = false /\
  forall j, 1 <= j < portptr (ports w) ->
    In (sys_inotify_rm_watch (Inotify w)
                             (watch (rd zero_port (p (ports w)) j))) calls /\
    In (sys_unlink (CanTtyName (rd zero_port (p (ports w)) j))) calls.
Proof.
  intros w' calls. subst w' calls.
  unfold CanRxThread_exit. rewrite bind_gets. unfold for_loop.
  rewrite exit_loop_run. cbn [fst snd trace ports].
  split; [reflexivity|]. split; [reflexivity|]. split; [reflexivity|].
  split; [apply exit_calls_no_close|].
  intros j Hj. apply exit_calls_In. lia.
Qed.


End ReceiveLoop.

(** ** The receive loop never removes a port *)

Section KeepsPorts.

Context {K : Consts}.

Lemma same_port_refl (e : tPortId) : same_port e e.
Proof. repeat split. Qed.

Lemma same_port_trans (a b c : tPortId) :
  same_port a b -> same_port b c -> same_port a c.
Proof.
  intros (A1 & A2 & A3 & A4) (B1 & B2 & B3 & B4).
  repeat split; congruence.
Qed.

Lemma kept_refl (w : World) : kept w w.
Proof.
  intros Hwf. split; [exact Hwf|]. split; [reflexivity|].
  split; [lia|]. intros j Hj. split; [apply same_port_refl|].
  split; reflexivity.
Qed.

Lemma kept_trans (a b c : World) : kept a b -> kept b c -> kept a c.
Proof.
  intros Hab Hbc Hwf.
  destruct (Hab Hwf) as (Hwb & Hpb & Hlb & Hsb).
  destruct (Hbc Hwb) as (Hwc & Hpc & Hlc & Hsc).
  split; [exact Hwc|]. split; [congruence|].
  split; [lia|]. intros j Hj.
  destruct (Hsb j Hj) as (S1 & F1 & E1).
  destruct (Hsc j) as (S2 & F2 & E2); [lia|].
  split; [eapply same_port_trans; eassumption|].
  split; congruence.
Qed.

Lemma pres_ret {A : Type} (a : A) : preserves kept (ret a).
Proof. intros w b w' E; inversion E; subst; apply kept_refl. Qed.

Lemma pres_gets {A : Type} (f : World -> A) : preserves kept (gets f).
Proof. intros w b w' E; inversion E; subst; apply kept_refl. Qed.

Lemma pres_exit {A : Type} (c : Z) : preserves kept (@exit A c).
Proof. intros w b w' E; discriminate. Qed.

Lemma pres_fault {A : Type} : preserves kept (@fault A).
Proof. intros w b w' E; discriminate. Qed.

Lemma pres_syscall (c : Call) : preserves kept (syscall c).
Proof. intros w b w' E; inversion E; subst. apply (kept_refl w). Qed.

Lemma pres_bind {A B : Type} (m : M A) (k : A -> M B) :
  preserves kept m -> (forall a, preserves kept (k a)) ->
  preserves kept (bind m k).
Proof.
  intros Hm Hk w b w' E. unfold bind in E.
  destruct (m w) as [[a|c|] w1] eqn:Em; try discriminate.
  eapply kept_trans; [eapply Hm; exact Em|eapply Hk; exact E].
Qed.

Lemma pres_when (b : bool) (m : M unit) :
  preserves kept m -> preserves kept (when b m).
Proof. destruct b; simpl; auto using pres_ret. Qed.

Lemma pres_for_range (body : Z -> M unit) (n : nat) :
  (forall i, preserves kept (body i)) ->
  forall i, preserves kept (for_range i n body).
Proof.
  intros H. induction n as [|n IH]; intros i; simpl.
  - apply pres_ret.
  - apply pres_bind; auto.
Qed.

Lemma pres_for_each {A : Type} (l : list A) (body : A -> M unit) :
  (forall x, preserves kept (body x)) -> preserves kept (for_each l body).
Proof.
  intros H. induction l as [|x t IH]; simpl.
  - apply pres_ret.
  - apply pres_bind; auto.
Qed.

(** Writing a counter of slot [i] keeps every port. *)
Lemma pres_upd_same_port (i : Z) (g : tPortId -> tPortId) :
  (forall e, same_port e (g e)) ->
  preserves kept
    (modify_ports (fun t => set_p (upd (p t) i (g (rd zero_port (p t) i))) t)).
Proof.
  intros Hg w b w' E. inversion E; subst. clear E.
  intros (Hp & Hlp & Hlf). split.
  - unfold wf_ports. cbn. rewrite upd_length. auto.
  - split; [reflexivity|]. split; [cbn; lia|].
    intros j Hj. cbn [ports set_ports set_p p VportFd].
    split; [|split; reflexivity].
    destruct (Z.eq_dec i j) as [->|Hne].
    + destruct (rd_upd_cases zero_port (p (ports w)) j j
                  (g (rd zero_port (p (ports w)) j))) as [Ex|Ex];
        [lia| |]; rewrite Ex; [apply Hg|apply same_port_refl].
    + rewrite rd_upd_other by lia. apply same_port_refl.
Qed.

Lemma set_all_revents_fd (l : list Z) (fds : list pollfd) (n : Z) (j : Z) :
  fd (rd zero_pollfd (set_all_revents l fds n) j)
  = fd (rd zero_pollfd fds j) /\
  events (rd zero_pollfd (set_all_revents l fds n) j)
  = events (rd zero_pollfd fds j).
Proof.
  unfold set_all_revents, rd.
  generalize (Z.to_nat j) as k. generalize 0%nat as s.
  induction fds as [|f t IH]; intros s k.
  - destruct k; split; reflexivity.
  - cbn [List.length seq combine map]. destruct k as [|k].
    + cbn [nth]. destruct (Z.of_nat s <? n); split; reflexivity.
    + cbn [nth]. apply IH.
Qed.

Lemma pres_do_poll : preserves kept do_poll.
Proof.
  intros w b w' E. rewrite do_poll_run in E. inversion E; subst. clear E.
  intros (Hp & Hlp & Hlf).
  destruct (0 <=? rv (os w (tick w))); cbn [ports].
  - split.
    + unfold wf_ports. cbn. rewrite set_all_revents_length. auto.
    + split; [reflexivity|]. split; [cbn; lia|].
      intros j Hj. cbn [set_VportFd p VportFd].
      split; [apply same_port_refl|]. apply set_all_revents_fd.
  - apply (kept_refl w). split; auto.
Qed.

Lemma pres_CanSockSend (id len : Z) (d : option (list Z)) :
  preserves kept (CanSockSend id len d).
Proof.
  unfold CanSockSend.
  repeat first [ apply pres_bind; [|intro] | apply pres_ret | apply pres_gets
               | apply pres_fault | apply pres_syscall
               | match goal with
                 | |- preserves _ (if ?b then _ else _) => destruct b
                 | |- preserves _ (match ?x with _ => _ end) => destruct x
                 end ].
Qed.

Lemma pres_CanVport (portid : Z) (uuid : list Z) :
  preserves kept (CanVport portid uuid).
Proof.
  intros w r w' E Hwf.
  destruct (port_known portid (ports w)) eqn:Hk.
  { destruct (CanVport_known portid uuid w Hk) as (i & Ei & _).
    rewrite Ei in E. inversion E; subst. apply (kept_refl w' Hwf). }
  destruct (CanVport_unknown_result portid uuid w r w' Hwf Hk E)
    as (Hw' & Hpp & Hsame & Hres).
  split; [exact Hw'|]. split; [exact Hpp|].
  split; [destruct Hres as [(_ & ->)|(_ & -> & _)]; lia|].
  intros j Hj. destruct (Hsame j Hj) as (Ep & Ef).
  rewrite Ep, Ef. split; [apply same_port_refl|split; reflexivity].
Qed.

Ltac pres_step :=
  first [ apply pres_CanSockSend | apply pres_CanVport | apply pres_do_poll
        | apply pres_upd_same_port; intro; repeat split
        | apply pres_ret | apply pres_gets
        | apply pres_exit | apply pres_fault | apply pres_syscall
        | apply pres_when | apply pres_for_each; intro
        | apply pres_for_range; intro
        | apply pres_bind; [|intro]
        | match goal with
          | |- preserves _ (if ?b then _ else _) => destruct b
          | |- preserves _ (match ?x with _ => _ end) => destruct x
          end ].

Lemma pres_CanRxThread_body : preserves kept CanRxThread_body.
Proof.
  unfold CanRxThread_body, rx_ready, rx_can, rx_frame, rx_ptys, for_loop,
    rx_inotify, rx_pty, rx_event, rx_dispatch, ConfigurePort.
  repeat pres_step.
Qed.

(** A turn of the receive loop never removes or moves a port: every live
    slot is still live at the same index afterwards, for the same port
    number, identifier, UUID, watch and master descriptor, and the ping
    cursor is where it was.  Only [CanPing] takes ports out of the
    table. *)
Theorem CanRxThread_body_keeps_ports (w w' : World) (go : bool)
        (Hwf : wf_ports (ports w))
        (Hret : CanRxThread_body w = (Val go, w')) :
  portptr (ports w) <= portptr (ports w') /\
  pingptr w' = pingptr w /\
  forall j, 1 <= j < portptr (ports w) ->
    let e := rd zero_port (p (ports w)) j in
    let e' := rd zero_port (p (ports w')) j in
    port e' = port e /\ canid e' = canid e /\ can_uuid e' = can_uuid e /\
    watch e' = watch e /\
    fd (rd zero_pollfd (VportFd (ports w')) j)
    = fd (rd zero_pollfd (VportFd (ports w)) j).
Proof.
  destruct (pres_CanRxThread_body w go w' Hret Hwf) as (_ & Hp & Hle & Hs).
  split; [exact Hle|]. split; [exact Hp|].
  intros j Hj. destruct (Hs j) as ((A & B & C & D) & F & _); [lia|].
  cbv zeta. repeat split; assumption.
Qed.

End KeepsPorts.

(** ** The ping driver over a whole sweep *)

Section PingSweep.

Context {K : Consts}.

Lemma CanPing_at_zero (w : World) :
  pingptr w = 0 ->
  CanPing w =
  (Val tt,
   mkWorld (ports w) (sock w) 1 (Inotify w) (threadexit w)
           (trace w ++ [ping_frame (sock w) PKT_ID_UUID])
           (os w) (S (tick w))).
Proof.
  intros H0. unfold CanPing. rewrite bind_gets. rewrite H0.
  unfold CanSockSend, ping_frame, bind, ret, gets, syscall, modify,
    set_pingptr.
  cbn. destruct (to_size_t _ =? _); reflexivity.
Qed.

Lemma CanPing_past_end (w : World) :
  pingptr w <> 0 -> portptr (ports w) <= pingptr w ->
  CanPing w = (Val tt, set_pingptr 0 w).
Proof.
  intros Hn Hge. unfold CanPing. rewrite bind_gets.
  destruct (Z.eqb_spec (pingptr w) 0); [contradiction|].
  destruct (Z.leb_spec (portptr (ports w)) (pingptr w)); [|lia].
  reflexivity.
Qed.

(** The ends of the sweep.  With the cursor at 0 the driver sends the
    UUID request with an empty payload, whatever the table holds, and
    moves the cursor to 1; with the cursor at or past [portptr] it sends
    nothing and puts the cursor back to 0.  The table is untouched in
    both cases. *)
Theorem CanPing_cursor_ends (w : World) :
  (pingptr w = 0 ->
   fst (CanPing w) = Val tt /\
   pingptr (snd (CanPing w)) = 1 /\
   ports (snd (CanPing w)) = ports w /\
   trace (snd (CanPing w)) = trace w ++ [ping_frame (sock w) PKT_ID_UUID]) /\
  (pingptr w <> 0 -> portptr (ports w) <= pingptr w ->
   CanPing w = (Val tt, set_pingptr 0 w)).
Proof.
  split.
  - intros H0. rewrite (CanPing_at_zero w H0). repeat split; reflexivity.
  - apply CanPing_past_end.
Qed.

Lemma CanPing_n_shift (n : nat) (w : World) :
  CanPing_n (S n) w = CanPing_n n (snd (CanPing w)).
Proof.
  induction n as [|n IH]; [reflexivity|].
  change (CanPing_n (S (S n)) w) with (snd (CanPing (CanPing_n (S n) w))).
  rewrite IH. reflexivity.
Qed.

(** [k] calls from the first slot on, while every port has credit. *)
Lemma CanPing_n_slots (w : World) (k : nat) :
  wf_ports (ports w) ->
  pingptr w = 1 ->
  Z.of_nat k <= portptr (ports w) - 1 ->
  (forall i, 1 <= i < portptr (ports w) ->
             pingcount (rd zero_port (p (ports w)) i) <> 0) ->
  let wk := CanPing_n k w in
  pingptr wk = 1 + Z.of_nat k /\
  portptr (ports wk) = portptr (ports w) /\
  portsize (ports wk) = portsize (ports w) /\
  VportFd (ports wk) = VportFd (ports w) /\
  List.length (p (ports wk)) = List.length (p (ports w)) /\
  forall j, 0 <= j ->
    rd zero_port (p (ports wk)) j =
    if (1 <=? j) && (j <? 1 + Z.of_nat k)
    then set_pingcount (pingcount (rd zero_port (p (ports w)) j) - 1)
                       (rd zero_port (p (ports w)) j)
    else rd zero_port (p (ports w)) j.
Proof.
  intros (Hp & Hlp & Hlf) H1. induction k as [|k IH]; intros Hk Hlive wk;
    subst wk.
  - cbn [CanPing_n]. repeat (split; [first [reflexivity | lia]|]).
    intros j Hj.
    destruct (Z.leb_spec 1 j); destruct (Z.ltb_spec j (1 + Z.of_nat 0));
      cbn [andb]; first [reflexivity | lia].
  - destruct IH as (Ic & In_ & Is & If & Il & Ij); [lia|exact Hlive|].
    cbn [CanPing_n]. set (wk := CanPing_n k w) in *.
    assert (Ee : rd zero_port (p (ports wk)) (pingptr wk)
                 = rd zero_port (p (ports w)) (1 + Z.of_nat k)).
    { rewrite Ic, Ij by lia.
      destruct (Z.leb_spec 1 (1 + Z.of_nat k));
        destruct (Z.ltb_spec (1 + Z.of_nat k) (1 + Z.of_nat k));
        cbn [andb]; first [reflexivity | lia]. }
    rewrite CanPing_live_eq.
    + cbn [snd pingptr ports set_p portptr portsize VportFd p].
      rewrite upd_length, Ee, Ic.
      split; [lia|]. repeat (split; [assumption|]).
      intros j Hj.
      destruct (Z.eq_dec j (1 + Z.of_nat k)) as [->|Hne].
      * rewrite rd_upd_same by lia.
        destruct (Z.leb_spec 1 (1 + Z.of_nat k));
          destruct (Z.ltb_spec (1 + Z.of_nat k) (1 + Z.of_nat (S k)));
          cbn [andb]; first [reflexivity | lia].
      * rewrite rd_upd_other by lia. rewrite Ij by lia.
        destruct (Z.leb_spec 1 j);
          destruct (Z.ltb_spec j (1 + Z.of_nat k));
          destruct (Z.ltb_spec j (1 + Z.of_nat (S k)));
          cbn [andb]; first [reflexivity | lia].
    + rewrite Ic, In_. lia.
    + rewrite Ee. apply Hlive. lia.
Qed.

(** A sweep of the table by the ping driver.  From the cursor at 0, and
    while every live port has credit left, [portptr + 1] calls bring the
    cursor back to 0; each live port has lost exactly one credit and is
    otherwise as it was, and no port was removed. *)
Theorem CanPing_sweep (w : World)
        (Hwf : wf_ports (ports w))
        (H0 : pingptr w = 0)
        (Hlive : forall i, 1 <= i < portptr (ports w) ->
                           pingcount (rd zero_port (p (ports w)) i) <> 0) :
  let w' := CanPing_n (Z.to_nat (portptr (ports w) + 1)) w in
  pingptr w' = 0 /\
  portptr (ports w') = portptr (ports w) /\
  VportFd (ports w') = VportFd (ports w) /\
  forall j, 1 <= j < portptr (ports w) ->
    rd zero_port (p (ports w')) j =
    set_pingcount (pingcount (rd zero_port (p (ports w)) j) - 1)
                  (rd zero_port (p (ports w)) j).
Proof.
  intros w'. subst w'. pose proof Hwf as (Hp & Hlp & Hlf).
  assert (E1 : pingptr (snd (CanPing w)) = 1)
    by (rewrite (CanPing_at_zero w H0); reflexivity).
  assert (Ep : ports (snd (CanPing w)) = ports w)
    by (rewrite (CanPing_at_zero w H0); reflexivity).
  replace (Z.to_nat (portptr (ports w) + 1))
    with (S (S (Z.to_nat (portptr (ports w) - 1)))) by lia.
  rewrite CanPing_n_shift.
  change (CanPing_n (S ?n) ?x) with (snd (CanPing (CanPing_n n x))).
  set (w1 := snd (CanPing w)) in *.
  destruct (CanPing_n_slots w1 (Z.to_nat (portptr (ports w) - 1)))
    as (Ic & In_ & _ & If & _ & Ij).
  - rewrite Ep. exact Hwf.
  - exact E1.
  - rewrite Ep. lia.
  - rewrite Ep. exact Hlive.
  - set (wk := CanPing_n (Z.to_nat (portptr (ports w) - 1)) w1) in *.
    rewrite Ep in *.
    rewrite (CanPing_past_end wk) by (rewrite ?Ic, ?In_; lia).
    cbn [snd set_pingptr pingptr ports].
    split; [reflexivity|]. split; [exact In_|]. split; [exact If|].
    intros j Hj. rewrite Ij by lia.
    destruct (Z.leb_spec 1 j);
      destruct (Z.ltb_spec j (1 + Z.of_nat (Z.to_nat (portptr (ports w) - 1))));
      cbn [andb]; first [reflexivity | lia].
Qed.

(** Reaping in general: the driver removes the watch and the symlink of
    the dead port, copies the next slot, when there is one, over the
    cursor's and drops the last live slot; every other slot and the
    cursor stay. *)
Theorem CanPing_reap_effect (w : World)
        (Hj : 1 <= pingptr w < portptr (ports w))
        (Hdead : pingcount (rd zero_port (p (ports w)) (pingptr w)) = 0) :
  let j := pingptr w in
  let w' := snd (CanPing w) in
  fst (CanPing w) = Val tt /\
  pingptr w' = j /\
  portptr (ports w') = portptr (ports w) - 1 /\
  (forall i, 0 <= i -> i <> j ->
     rd zero_port (p (ports w')) i = rd zero_port (p (ports w)) i /\
     rd zero_pollfd (VportFd (ports w')) i
     = rd zero_pollfd (VportFd (ports w)) i) /\
  (j + 1 < portptr (ports w) -> wf_ports (ports w) ->
   rd zero_port (p (ports w')) j = rd zero_port (p (ports w)) (j + 1) /\
   rd zero_pollfd (VportFd (ports w')) j
   = rd zero_pollfd (VportFd (ports w)) (j + 1)) /\
  trace w' = trace w ++
    [sys_inotify_rm_watch (Inotify w)
                          (watch (rd zero_port (p (ports w)) j));
     sys_unlink (CanTtyName (rd zero_port (p (ports w)) j))].
Proof.
  intros j w'. subst j w'.
  destruct (CanPing_reap_slot w Hj Hdead)
    as (Hf & Hc & _ & Hn & _ & Hq & Hv & Ht).
  split; [exact Hf|]. split; [exact Hc|]. split; [exact Hn|].
  split; [|split; [|exact Ht]].
  - intros i Hi Hne. rewrite Hq, Hv.
    destruct (pingptr w + 1 <? portptr (ports w));
      [|split; reflexivity].
    split; apply rd_upd_other; auto.
  - intros Hlt (Hp & Hlp & Hlf). rewrite Hq, Hv.
    destruct (Z.ltb_spec (pingptr w + 1) (portptr (ports w))); [|lia].
    split; apply rd_upd_same; lia.
Qed.

(** In every state a run reaches, the table is well formed (at least the
    slot of the CAN socket is live, and both vectors have [portsize]
    elements), the [pingcount] of every live port lies between 0 and
    [PINGS_BEFORE_DISCONNECT], and the ping cursor is not negative. *)
Theorem reachable_invariant (w : World)
        (Hpings : 0 <= PINGS_BEFORE_DISCONNECT)
        (Hreach : reachable w) :
  wf_ports (ports w) /\
  (forall i, 1 <= i < portptr (ports w) ->
     0 <= pingcount (rd zero_port (p (ports w)) i)
     <= PINGS_BEFORE_DISCONNECT) /\
  0 <= pingptr w.
Proof.
  destruct (reachable_ok Hpings w Hreach) as ((Hwf & Hc) & Hcur).
  split; [exact Hwf|]. split; [exact Hc|exact Hcur].
Qed.

End PingSweep.

(** ** [CanSockInit] *)

Section InitProperties.

Context {K : Consts} {KI : InitConsts}.

Lemma ibind_initcall {B : Type} (c : InitCall) (k : Reply -> MI B)
      (s : InitWorld) :
  ibind (initcall c) k s =
  k (os (iw s) (tick (iw s)))
    (mkInitWorld
       (mkWorld (ports (iw s)) (sock (iw s)) (pingptr (iw s)) (Inotify (iw s))
                (threadexit (iw s)) (trace (iw s)) (os (iw s))
                (S (tick (iw s))))
       (icalls s ++ [c])).
Proof. reflexivity. Qed.

Lemma ibind_imodify {B : Type} (f : World -> World) (k : unit -> MI B)
      (s : InitWorld) :
  ibind (imodify f) k s = k tt (mkInitWorld (f (iw s)) (icalls s)).
Proof. reflexivity. Qed.

Ltac init_in E :=
  first [ rewrite ibind_initcall in E | rewrite ibind_imodify in E ];
  cbv beta zeta in E;
  cbn [iw icalls ports sock pingptr Inotify threadexit trace os tick
       set_sock set_Inotify set_ports set_p set_VportFd p VportFd portsize
       portptr boot_world app] in E.

Ltac init_contra :=
  match goal with
  | Hb : (?x =? 0) = false, He : ?x = 0 |- _ =>
      apply Z.eqb_neq in Hb; contradiction
  | Hb : (?x =? 0) = false, He : 0 = ?x |- _ =>
      apply Z.eqb_neq in Hb; symmetry in He; contradiction
  end.

(** [CanSockInit] from the start of the process, check by check. *)
Lemma CanSockInit_run (o : nat -> Reply) :
  let res := fst (CanSockInit (boot_world o)) in
  let s' := snd (CanSockInit (boot_world o)) in
  match first_failure (init_checks o) with
  | Some k => res = init_failure o k
  | None =>
      res = Val 0 /\
      s' = mkInitWorld
             (mkWorld (ports (init_world (rv (o 0%nat)) (rv (o 11%nat)) o))
                      (rv (o 0%nat)) 0 (rv (o 11%nat)) 0 [] o 14)
             (init_calls o)
  end.
Proof.
  cbv zeta. destruct (CanSockInit (boot_world o)) as [res s'] eqn:E.
  cbn [fst snd]. unfold init_checks. cbn [first_failure].
  unfold CanSockInit in E. init_in E. init_in E.
  destruct (Z.ltb_spec (rv (o 0%nat)) 0) as [H0|H0].
  { destruct (Z.leb_spec 0 (rv (o 0%nat))); [lia|].
    inversion E; reflexivity. }
  destruct (Z.leb_spec 0 (rv (o 0%nat))); [|lia]. init_in E.
  destruct (Z.ltb_spec (rv (o 1%nat)) 0) as [H1|H1].
  { destruct (Z.leb_spec 0 (rv (o 1%nat))); [lia|].
    inversion E; reflexivity. }
  destruct (Z.leb_spec 0 (rv (o 1%nat))); [|lia]. init_in E. init_in E.
  destruct (rv (o 3%nat) =? 0); cbn [negb]; [inversion E; reflexivity|].
  do 4 init_in E.
  destruct (Z.ltb_spec (rv (o 7%nat)) 0) as [H7|H7].
  { destruct (Z.leb_spec 0 (rv (o 7%nat))); [lia|].
    inversion E; reflexivity. }
  destruct (Z.leb_spec 0 (rv (o 7%nat))); [|lia]. init_in E.
  destruct (Z.ltb_spec (rv (o 8%nat)) 0) as [H8|H8].
  { destruct (Z.leb_spec 0 (rv (o 8%nat))); [lia|].
    inversion E; reflexivity. }
  destruct (Z.leb_spec 0 (rv (o 8%nat))); [|lia]. do 4 init_in E.
  unfold init_failure.
  destruct (rv (o 10%nat) =? 0) eqn:H10; cbn [negb].
  { destruct (rv (o 9%nat) =? 0); cbn [negb option_map nth];
      inversion E; reflexivity. }
  init_in E. unfold malloc_vec in E.
  destruct (rv (o 9%nat) =? 0); cbn [negb option_map nth];
    [inversion E; reflexivity|].
  do 3 init_in E.
  destruct (rv (o 11%nat) =? -1); cbn [negb option_map nth];
    [inversion E; reflexivity|].
  init_in E.
  destruct (rv (o 12%nat) =? 0) eqn:H12; cbn [negb option_map nth] in *;
    [|inversion E; reflexivity].
  init_in E.
  destruct (rv (o 13%nat) =? 0) eqn:H13; cbn [negb option_map nth] in *;
    [|inversion E; reflexivity].
  inversion E; subst. split; reflexivity.
Qed.


(** The result of [CanSockInit] is decided by the first check that
    fails: [ENOTSOCK] for [socket], the request number [SIOCGIFINDEX]
    for [ioctl], [ENOMEM] for the [malloc] of the filters, 1 for
    [setsockopt(SO_RCVBUF)], [EIO] for [bind], [EINVAL] for
    [inotify_init1], and the code that [pthread_mutex_init] or
    [pthread_create] returned.  It is 0 exactly when none fails; the
    results of the three other [setsockopt] calls and of [free] play no
    part. *)
Theorem CanSockInit_result (o : nat -> Reply) :
  (forallb (fun b => b) (init_checks o) = true <->
   fst (CanSockInit (boot_world o)) = Val 0) /\
  (forall k, first_failure (init_checks o) = Some k ->
             fst (CanSockInit (boot_world o)) = init_failure o k).
Proof.
  pose proof (CanSockInit_run o) as H. cbv zeta in H.
  assert (Hff : forall l, first_failure l = None <->
                          forallb (fun b => b) l = true).
  { induction l as [|b t IH]; cbn; [tauto|].
    destruct b; cbn; [|split; discriminate].
    rewrite <- IH. destruct (first_failure t); cbn; split;
      congruence. }
  split.
  - rewrite <- Hff. split.
    + intros En. rewrite En in H. destruct H as (Er & _). exact Er.
    + intros Er.
      destruct (first_failure (init_checks o)) as [k|] eqn:Ek;
        [|reflexivity].
      exfalso. rewrite Er in H. unfold init_checks in Ek.
      cbn [first_failure] in Ek. unfold init_failure in H.
      repeat match type of Ek with
             | context [if ?b then _ else _] =>
                 destruct b eqn:?; cbn [option_map] in Ek
             end;
        try discriminate; inversion Ek; subst k; cbn [nth] in H;
        try discriminate;
        try (destruct (rv (o 10%nat) =? 0); discriminate).
      * inversion H. init_contra.
      * inversion H. init_contra.
  - intros k Ek. rewrite Ek in H. exact H.
Qed.

(** The table is cleared before its allocation is tested: when the
    second [malloc] of the table returns NULL, [memset] writes through
    the NULL pointer, whereas a NULL from the first alone is reported as
    [ENOMEM]. *)
Theorem CanSockInit_memset_before_test (o : nat -> Reply)
        (Hsock : 0 <= rv (o 0%nat))
        (Hioctl : 0 <= rv (o 1%nat))
        (Hfilter : rv (o 3%nat) <> 0)
        (Hrcvbuf : 0 <= rv (o 7%nat))
        (Hbind : 0 <= rv (o 8%nat)) :
  (rv (o 10%nat) = 0 -> fst (CanSockInit (boot_world o)) = Fault) /\
  (rv (o 10%nat) <> 0 -> rv (o 9%nat) = 0 ->
   fst (CanSockInit (boot_world o)) = Val ENOMEM).
Proof.
  pose proof (CanSockInit_run o) as H. cbv zeta in H.
  unfold init_checks in H. cbn [first_failure] in H.
  destruct (Z.leb_spec 0 (rv (o 0%nat))); [|lia].
  destruct (Z.leb_spec 0 (rv (o 1%nat))); [|lia].
  destruct (Z.eqb_spec (rv (o 3%nat)) 0); [contradiction|].
  destruct (Z.leb_spec 0 (rv (o 7%nat))); [|lia].
  destruct (Z.leb_spec 0 (rv (o 8%nat))); [|lia].
  cbn [negb option_map] in H. unfold init_failure in H.
  split.
  - intros E10. rewrite E10 in H. cbn [Z.eqb negb] in H.
    destruct (rv (o 9%nat) =? 0); cbn [negb option_map nth] in H; exact H.
  - intros E10 E9. apply Z.eqb_neq in E10. rewrite E9, E10 in H.
    cbn [Z.eqb negb option_map nth] in H. exact H.
Qed.

End InitProperties.

(** ** The virtual-port factory on a port that is in the table *)

Section KnownPort.

Context {K : Consts}.

(** [CanVport] is a lookup for a port number that is in the table: it
    returns the index of the first live slot with that number, makes no
    call and leaves the world, the table included, as it was. *)
Theorem CanVport_finds_existing (portid : Z) (uuid : list Z) (w : World)
        (Hknown : port_known portid (ports w) = true) :
  exists i,
    CanVport portid uuid w = (Val i, w) /\
    1 <= i < portptr (ports w) /\
    port (rd zero_port (p (ports w)) i) = portid /\
    forall j, 1 <= j < i -> port (rd zero_port (p (ports w)) j) <> portid.
Proof. exact (CanVport_known portid uuid w Hknown). Qed.

End KnownPort.

(** ** Discovery: the SET frame and the new slot *)

Section Discovery.

Context {K : Consts}.

Lemma le_bytes_2 (z : Z) :
  le_bytes 2 z = [z mod 256; (z / 256) mod 256].
Proof.
  cbn [le_bytes]. rewrite Z.shiftr_div_pow2 by lia.
  change 255 with (Z.ones 8). rewrite !Z.land_ones by lia.
  reflexivity.
Qed.

Lemma le_bytes_2_low (z : Z) (k : Z) :
  16 <= k -> le_bytes 2 (z mod 2 ^ k) = le_bytes 2 z.
Proof.
  intros Hk. rewrite !le_bytes_2.
  replace k with (8 + (k - 8)) by lia.
  rewrite Z.pow_add_r by lia. change (2 ^ 8) with 256.
  assert (Hpos : 0 < 2 ^ (k - 8)) by (apply Z.pow_pos_nonneg; lia).
  rewrite Z.rem_mul_r by lia.
  assert (Hd : (256 | 2 ^ (k - 8))).
  { exists (2 ^ (k - 16)). change 256 with (2 ^ 8).
    rewrite <- Z.pow_add_r by lia. f_equal. lia. }
  f_equal; [|f_equal].
  - rewrite (Z.mul_comm 256), Z.mod_add by lia.
    apply Z.mod_mod. lia.
  - rewrite (Z.mul_comm 256), Z.div_add by lia.
    rewrite (Z.div_small (z mod 256)) by (apply Z.mod_pos_bound; lia).
    rewrite Z.add_0_l.
    apply Z.mod_mod_divide. exact Hd.
Qed.

(** The SET frame announces the slot that was opened.  When the node of
    a UUID response is new and [CanVport] opens a port for it,
    [ConfigurePort] returns 0 with the table as [CanVport] left it, and
    the frame it sends carries, in 8 bytes, the low 16 bits of the
    [canid] stored in the new slot followed by the UUID stored there. *)
Theorem ConfigurePort_announces_slot (frame : tCanFrame) (w : World)
        (r : Z) (w1 : World)
        (Hwf : wf_ports (ports w))
        (Hnew : port_known (PnGetNumber (data frame)) (ports w) = false)
        (Hret : CanVport (PnGetNumber (data frame))
                         (firstn (Z.to_nat CAN_UUID_SIZE) (data frame)) w
                = (Val r, w1))
        (Hr : r <> -1) :
  let e := rd zero_port (p (ports w1)) r in
  exists w2,
    ConfigurePort frame w = (Val 0, w2) /\
    ports w2 = ports w1 /\
    trace w2 = trace w1 ++
      [sys_write_frame (sock w)
         (mkFrame PKT_ID_SET 8 (le_bytes 2 (canid e) ++ can_uuid e))
         sizeof_tCanFrame].
Proof.
  intros e. subst e.
  destruct (CanVport_unknown_result _ _ w r w1 Hwf Hnew Hret)
    as (_ & _ & _ & [(E & _) | (Er & _ & _ & Ec & Eu & _)]);
    [contradiction|].
  cbv zeta in Ec, Eu. rewrite Er, Ec, Eu.
  pose proof (steady_CanVport (PnGetNumber (data frame))
                (firstn (Z.to_nat CAN_UUID_SIZE) (data frame)) w)
    as (Hs & _).
  rewrite Hret in Hs. cbn [snd] in Hs.
  unfold ConfigurePort, bind. rewrite Hret.
  rewrite CanSockSend_some_run by (vm_compute; discriminate).
  eexists. split; [reflexivity|]. cbn [ports trace].
  split; [reflexivity|]. rewrite Hs.
  do 3 f_equal.
  change (u8 (2 + CAN_UUID_SIZE)) with 8.
  unfold u16, u32. rewrite !le_bytes_2_low by lia.
  change (Z.to_nat CAN_UUID_SIZE) with 6%nat.
  rewrite firstn_firstn. change (Init.Nat.min 6 6) with 6%nat.
  rewrite firstn_all2; [reflexivity|].
  rewrite length_app, length_firstn. rewrite le_bytes_2. cbn [List.length].
  lia.
Qed.

End Discovery.

(** * The further properties on concrete inputs *)

Lemma uuid_bytes_A :
  forall k, 0 <= k < 6 -> 0 <= rd 0 (can_uuid portA) k < 256.
Proof.
  intros k Hk.
  assert (Hc : k = 0 \/ k = 1 \/ k = 2 \/ k = 3 \/ k = 4 \/ k = 5) by lia.
  destruct Hc as [-> | [-> | [-> | [-> | [-> | ->]]]]];
    vm_compute; (split; [discriminate|reflexivity]).
Qed.

Lemma uuid_bytes_B :
  forall k, 0 <= k < 6 -> 0 <= rd 0 (can_uuid portB) k < 256.
Proof.
  intros k Hk.
  assert (Hc : k = 0 \/ k = 1 \/ k = 2 \/ k = 3 \/ k = 4 \/ k = 5) by lia.
  destruct Hc as [-> | [-> | [-> | [-> | [-> | ->]]]]];
    vm_compute; (split; [discriminate|reflexivity]).
Qed.

Lemma unique_table_abc : unique_ports table_abc.
Proof.
  intros i j Hi Hj. simpl in Hj.
  assert (Hc : (i = 1 /\ j = 2) \/ (i = 1 /\ j = 3) \/ (i = 2 /\ j = 3))
    by lia.
  destruct Hc as [(-> & ->) | [(-> & ->) | (-> & ->)]];
    vm_compute; discriminate.
Qed.

Lemma wf_table_full : wf_ports table_full.
Proof. unfold wf_ports; simpl; lia. Qed.

Lemma wf_table_ba : wf_ports table_ba.
Proof. unfold wf_ports; simpl; lia. Qed.

Lemma wf_world_pty_ready : wf_ports (ports world_pty_ready).
Proof. unfold wf_ports; simpl; lia. Qed.

Lemma first_watch_open_C : first_watch event_open_C table_abc 3.
Proof.
  unfold first_watch. split; [simpl; lia|]. split; [reflexivity|].
  intros j Hj. assert (Hc : j = 1 \/ j = 2) by lia.
  destruct Hc as [-> | ->]; vm_compute; discriminate.
Qed.

Lemma credit_table_full :
  forall i, 1 <= i < portptr (ports world_full_ok) ->
            pingcount (rd zero_port (p (ports world_full_ok)) i) <> 0.
Proof.
  intros i Hi. simpl in Hi.
  assert (Hc : i = 1 \/ i = 2 \/ i = 3 \/ i = 4 \/ i = 5 \/ i = 6 \/ i = 7)
    by lia.
  destruct Hc as [-> | [-> | [-> | [-> | [-> | [-> | ->]]]]]];
    vm_compute; discriminate.
Qed.

(** Two bytes are sent with the identifier 801 and the [write] returns
    the size of a frame. *)
Lemma CanSockSend_writes_payload_witness :
  0 <= 2 <= 8 /\
  fst (CanSockSend (K := demo) 801 2 (Some [1; 2]) (world_abc (script_of [])))
  = Val 0.
Proof.
  split; [lia|].
  assert (Hlen : 0 <= 2 <= 8) by lia.
  assert (Hb : 2 <= Z.of_nat (List.length [1; 2])) by (simpl; lia).
  destruct (CanSockSend_writes_payload (K := demo) 801 2 [1; 2]
              (world_abc (script_of [])) Hlen Hb)
    as (f & _ & _ & _ & _ & _ & H & _).
  apply H. reflexivity.
Defined.

(** The names of the first two of the three ports differ. *)
Lemma CanTtyName_injective_witness :
  String.length (CanTtyName portA) = 25%nat /\
  CanTtyName portA <> CanTtyName portB.
Proof.
  destruct (CanTtyName_injective portA portB uuid_bytes_A uuid_bytes_B)
    as (Hl & Hinj).
  split; [exact Hl|].
  intros E. assert (H0 : 0 <= 0 < 6) by lia.
  pose proof (Hinj E 0 H0) as H. vm_compute in H. discriminate H.
Defined.

(** The full table of 8 slots grows to 16. *)
Lemma CanVport_grow_doubles_witness :
  portptr (ports world_full_ok) = portsize (ports world_full_ok) /\
  portsize (ports (snd (CanVport_grow world_full_ok))) = 16.
Proof.
  split; [reflexivity|].
  assert (Hfull : portptr (ports world_full_ok)
                  = portsize (ports world_full_ok)) by reflexivity.
  assert (Hret : fst (CanVport_grow world_full_ok) = Val tt)
    by (vm_compute; reflexivity).
  exact (proj1 (CanVport_grow_doubles world_full_ok wf_table_full
                  Hfull Hret)).
Defined.

(** Port 9 is added to the table of three ports at index 4. *)
Lemma CanVport_result_witness :
  port_known 9 table_abc = false /\
  fst (CanVport (K := demo) 9 uuid9 (world_abc (script_of script_open)))
  = Val 4 /\
  portptr (ports (snd (CanVport (K := demo) 9 uuid9
                                (world_abc (script_of script_open))))) = 5.
Proof.
  split; [reflexivity|]. split; [vm_compute; reflexivity|].
  assert (Hnew : port_known 9 (ports (world_abc (script_of script_open)))
                 = false) by reflexivity.
  assert (Hret : CanVport (K := demo) 9 uuid9
                          (world_abc (script_of script_open))
                 = (Val 4, snd (CanVport (K := demo) 9 uuid9
                                  (world_abc (script_of script_open)))))
    by (vm_compute; reflexivity).
  destruct (CanVport_result (K := demo) 9 uuid9
              (world_abc (script_of script_open)) 4
              (snd (CanVport (K := demo) 9 uuid9
                             (world_abc (script_of script_open))))
              wf_table_abc Hnew Hret)
    as (_ & _ & _ & [(H & _) | (_ & H & _)]).
  - discriminate H.
  - exact H.
Defined.

(** [chmod] fails while port 9 is added: the result is -1 after 9 of the
    10 calls. *)
Lemma CanVport_failure_undoes_nothing_witness :
  CanVport_steps (world_abc (script_of script_chmod_fails)) = 9%nat /\
  fst (CanVport (K := demo) 9 uuid9
                (world_abc (script_of script_chmod_fails))) = Val (-1).
Proof.
  split; [reflexivity|].
  assert (Hroom : portptr table_abc < portsize table_abc) by (simpl; lia).
  assert (Hnew : port_known 9 (ports (world_abc (script_of script_chmod_fails)))
                 = false) by reflexivity.
  apply (proj1 (proj2 (CanVport_failure_undoes_nothing (K := demo) 9 uuid9
                         (world_abc (script_of script_chmod_fails))
                         wf_table_abc Hnew Hroom))).
  vm_compute. discriminate.
Defined.

(** Port 9 is opened with the watch 7, which closing it removes. *)
Lemma CanVport_close_round_trip_witness :
  CanVport_steps (world_abc (script_of script_open)) = 10%nat /\
  watch (rd zero_port
            (p (ports (snd (CanVport (K := demo) 9 uuid9
                                     (world_abc (script_of script_open))))))
            4) = 7.
Proof.
  split; [reflexivity|].
  assert (Hroom : portptr table_abc < portsize table_abc) by (simpl; lia).
  assert (Hnew : port_known 9 (ports (world_abc (script_of script_open)))
                 = false) by reflexivity.
  assert (Hok : CanVport_steps (world_abc (script_of script_open)) = 10%nat)
    by reflexivity.
  exact (proj1 (proj2 (proj2
           (CanVport_close_round_trip (K := demo) 9 uuid9
              (world_abc (script_of script_open))
              wf_table_abc Hnew Hroom Hok)))).
Defined.

(** The table of three ports with port 9 added has no port number
    twice. *)
Lemma CanVport_keeps_unique_witness :
  unique_ports table_abc /\
  unique_ports (ports (snd (CanVport (K := demo) 9 uuid9
                                     (world_abc (script_of script_open))))).
Proof.
  split; [exact unique_table_abc|].
  assert (Hid : 0 <= 9 < 2 ^ 16) by lia.
  exact (CanVport_keeps_unique (K := demo) 9 uuid9
           (world_abc (script_of script_open))
           wf_table_abc Hid unique_table_abc).
Defined.

(** Port 2 is in the table of three ports, at index 2. *)
Lemma CanVport_finds_existing_witness :
  port_known 2 table_abc = true /\
  exists i,
    CanVport (K := demo) 2 uuid9 (world_abc (script_of []))
    = (Val i, world_abc (script_of [])).
Proof.
  split; [reflexivity|].
  destruct (CanVport_finds_existing (K := demo) 2 uuid9
              (world_abc (script_of [])) eq_refl) as (i & E & _).
  exists i. exact E.
Defined.

(** The third port is not active; the chunk read from its master holds
    0x7E, and the port is active afterwards. *)
Lemma rx_pty_forwards_witness :
  active (rd zero_port (p (ports world_pty_ready)) 3) = 0 /\
  active (rd zero_port
            (p (ports (snd (rx_pty (K := demo) 3 world_pty_ready)))) 3) = 1.
Proof.
  split; [reflexivity|].
  assert (Hi : 1 <= 3 < portptr (ports world_pty_ready)) by (simpl; lia).
  destruct (rx_pty_forwards (K := demo) 3 world_pty_ready
              wf_world_pty_ready Hi) as (_ & _ & H).
  assert (Hr : revents (rd zero_pollfd (VportFd (ports world_pty_ready)) 3)
               <> 0) by (vm_compute; discriminate).
  assert (Hn : 0 < rv (os world_pty_ready (tick world_pty_ready)) <= 8)
    by (simpl; lia).
  destruct (H Hr Hn) as (_ & _ & _ & _ & Ha & _).
  rewrite Ha; [reflexivity|]. left. reflexivity.
Defined.

(** The symlink of the third port is opened: the port becomes active. *)
Lemma rx_event_toggles_witness :
  first_watch event_open_C table_abc 3 /\
  active (rd zero_port
            (p (ports (snd (rx_event (K := demo) event_open_C
                                     (world_abc (script_of [])))))) 3) = 1.
Proof.
  split; [exact first_watch_open_C|].
  destruct (rx_event_toggles (K := demo) event_open_C
              (world_abc (script_of [])) wf_table_abc) as (_ & H).
  destruct (H 3 first_watch_open_C) as (_ & Ho & _).
  assert (Hm : Z.land (mask event_open_C) IN_OPEN <> 0)
    by (vm_compute; discriminate).
  rewrite (proj1 (Ho Hm)). reflexivity.
Defined.

(** A turn that reads a frame for the second of three ports keeps the
    three ports. *)
Lemma CanRxThread_body_keeps_ports_witness :
  fst (CanRxThread_body (K := demo) (world_abc (script_of script_both)))
  = Val true /\
  4 <= portptr (ports (snd (CanRxThread_body (K := demo)
                              (world_abc (script_of script_both))))).
Proof.
  split; [vm_compute; reflexivity|].
  assert (Hret : CanRxThread_body (K := demo)
                   (world_abc (script_of script_both))
                 = (Val true,
                    snd (CanRxThread_body (K := demo)
                           (world_abc (script_of script_both)))))
    by (vm_compute; reflexivity).
  exact (proj1 (CanRxThread_body_keeps_ports (K := demo)
                  (world_abc (script_of script_both))
                  (snd (CanRxThread_body (K := demo)
                          (world_abc (script_of script_both))))
                  true wf_table_abc Hret)).
Defined.

(** Nine calls sweep the table of 7 ports: the cursor is back at 0. *)
Lemma CanPing_sweep_witness :
  pingptr world_full_ok = 0 /\
  pingptr (CanPing_n (K := demo) 9 world_full_ok) = 0.
Proof.
  split; [reflexivity|].
  exact (proj1 (CanPing_sweep (K := demo) world_full_ok wf_table_full
                  eq_refl credit_table_full)).
Defined.

(** The first of three ports is reaped: two ports are left. *)
Lemma CanPing_reap_effect_witness :
  pingcount (rd zero_port (p table_abc) 1) = 0 /\
  portptr (ports (snd (CanPing (K := demo) (world_abc (script_of []))))) = 3.
Proof.
  split; [reflexivity|].
  assert (Hj : 1 <= pingptr (world_abc (script_of []))
               < portptr (ports (world_abc (script_of []))))
    by (simpl; lia).
  exact (proj1 (proj2 (proj2
           (CanPing_reap_effect (K := demo) (world_abc (script_of []))
              Hj eq_refl)))).
Defined.

(** The last of two ports is reaped: the first is left. *)
Lemma CanPing_reap_deletes_near_end_witness :
  portptr (ports world_ba) <= pingptr world_ba + 2 /\
  live (ports (snd (CanPing (K := demo) world_ba))) = [zero_port; portB].
Proof.
  split; [simpl; lia|].
  assert (Hj : 1 <= pingptr world_ba < portptr (ports world_ba))
    by (simpl; lia).
  assert (Hn : portptr (ports world_ba) <= pingptr world_ba + 2)
    by (simpl; lia).
  exact (CanPing_reap_deletes_near_end (K := demo) world_ba wf_table_ba
           Hj Hn eq_refl).
Defined.

(** The state after the discovery of three nodes and 17 calls of the
    ping driver is reachable: its table is well formed. *)
Lemma reachable_invariant_witness :
  0 <= PINGS_BEFORE_DISCONNECT (Consts := demo) /\
  wf_ports (ports world_reaped).
Proof.
  assert (Hp : 0 <= PINGS_BEFORE_DISCONNECT (Consts := demo))
    by (simpl; lia).
  split; [exact Hp|].
  assert (Hr : reachable (K := demo) world_reaped).
  { apply (run_reachable (K := demo) ops_three_reap
             (init_world 3 4 (script_of script_three))).
    - apply reach_init.
    - vm_compute. reflexivity. }
  exact (proj1 (reachable_invariant (K := demo) world_reaped Hp Hr)).
Defined.


(** The second [malloc] of the table returns NULL: the initialisation
    faults in [memset]. *)
Lemma CanSockInit_memset_before_test_witness :
  rv (script_of script_init_nomem 10%nat) = 0 /\
  fst (CanSockInit (K := demo) (KI := example_init)
                   (boot_world (script_of script_init_nomem))) = Fault.
Proof.
  split; [reflexivity|].
  assert (H0 : 0 <= rv (script_of script_init_nomem 0%nat)) by (simpl; lia).
  assert (H1 : 0 <= rv (script_of script_init_nomem 1%nat)) by (simpl; lia).
  assert (H3 : rv (script_of script_init_nomem 3%nat) <> 0)
    by (simpl; lia).
  assert (H7 : 0 <= rv (script_of script_init_nomem 7%nat)) by (simpl; lia).
  assert (H8 : 0 <= rv (script_of script_init_nomem 8%nat)) by (simpl; lia).
  apply (proj1 (CanSockInit_memset_before_test (K := demo)
                  (KI := example_init) (script_of script_init_nomem)
                  H0 H1 H3 H7 H8)).
  reflexivity.
Defined.

(** Port 9 is opened for a new node: the SET frame carries the
    identifier 402 (0x192) of the new slot and the UUID of the node. *)
Lemma ConfigurePort_announces_slot_witness :
  port_known 9 table_abc = false /\
  trace (snd (ConfigurePort (K := demo) frame_uuid9
                            (world_abc (script_of script_open)))) =
  trace (snd (CanVport (K := demo) 9 [9; 0; 0; 0; 0; 0]
                       (world_abc (script_of script_open)))) ++
  [sys_write_frame 3 (mkFrame 802 8 [146; 1; 9; 0; 0; 0; 0; 0]) 16].
Proof.
  split; [reflexivity|].
  assert (Hnew : port_known (PnGetNumber (Consts := demo) (data frame_uuid9))
                            (ports (world_abc (script_of script_open)))
                 = false) by reflexivity.
  assert (Hret : CanVport (K := demo)
                   (PnGetNumber (Consts := demo) (data frame_uuid9))
                   (firstn (Z.to_nat CAN_UUID_SIZE) (data frame_uuid9))
                   (world_abc (script_of script_open))
                 = (Val 4,
                    snd (CanVport (K := demo) 9 [9; 0; 0; 0; 0; 0]
                           (world_abc (script_of script_open)))))
    by (vm_compute; reflexivity).
  assert (Hr : 4 <> -1) by discriminate.
  destruct (ConfigurePort_announces_slot (K := demo) frame_uuid9
              (world_abc (script_of script_open)) 4 _
              wf_table_abc Hnew Hret Hr) as (w2 & E & _ & Et).
  rewrite E. cbn [snd]. rewrite Et. vm_compute. reflexivity.
Defined.
